(** * Airbus sustainability report: the page-interaction script (index.js)

    A shallow embedding of [src/index.js] and the properties its
    specification states about it.

    - The DOM is a forest of [node]s (text nodes and elements); an element
      handle, as JavaScript holds it, is the [path] of the element in the
      forest.  No function of the script inserts or removes an element, so
      handles stay valid; [textContent] assignment replaces the children of
      one element only.
    - JavaScript numbers that the script computes with (the boxes of
      elements, the height of the window) are IEEE doubles ([float]), with
      the arithmetic of the processor; [scrollY], which is only compared
      with a constant, is the rational it denotes.
    - Strings are [string]s; an attribute read ([getAttribute]) is an
      [option string], [None] standing for [null].
    - Effects are explicit: every function of the script is a function on
      the [World] (document, window, location, history, console, timers,
      listeners), written in a small state monad.
    - [setTimeout]/[clearTimeout] are a timer table over a logical clock in
      milliseconds; the event loop may run a timer once its delay has
      elapsed. *)

From Corelib Require Import PrimFloat FloatOps SpecFloat.
From Stdlib Require Import Ascii String QArith Qminmax Lqa.
From stdpp Require Import base option list strings pretty gmap.

Open Scope string_scope.
Open Scope list_scope.

Set Warnings "-inexact-float".

(** ** The document *)

Record elem := Element {
  tag : string;                  (* lower-case tag name *)
  classes : list string;         (* classList *)
  attrs : gmap string string;    (* the other attributes, "id" included *)
  rect_top : float;              (* getBoundingClientRect().top *)
  rect_bottom : float            (* getBoundingClientRect().bottom *)
}.

#[warnings="-register-all"]
Inductive node :=
| Text (s : string)
| Elem (d : elem) (children : list node).

Definition path := list nat.

Definition children_of (n : node) : list node :=
  match n with Elem _ ch => ch | Text _ => [] end.

(** The node at [p] below [n]; the empty path is [n] itself. *)
Fixpoint node_get (p : path) (n : node) : option node :=
  match p with
  | [] => Some n
  | i :: q => children_of n !! i ≫= node_get q
  end.

(** The node a handle refers to; the document itself is no node. *)
Definition get_node (p : path) (ns : list node) : option node :=
  match p with
  | [] => None
  | i :: q => ns !! i ≫= node_get q
  end.

Definition node_data (n : node) : option elem :=
  match n with Elem d _ => Some d | Text _ => None end.

Definition get_elem (p : path) (ns : list node) : option elem :=
  get_node p ns ≫= node_data.

Definition on_children (g : list node -> list node) (n : node) : node :=
  match n with Elem d ch => Elem d (g ch) | Text s => Text s end.

Definition on_data (f : elem -> elem) (n : node) : node :=
  match n with Elem d ch => Elem (f d) ch | Text s => Text s end.

Fixpoint node_alter (f : node -> node) (p : path) (n : node) : node :=
  match p with
  | [] => f n
  | i :: q => on_children (alter (node_alter f q) i) n
  end.

Definition alter_node (f : node -> node) (p : path) (ns : list node) : list node :=
  match p with
  | [] => ns
  | i :: q => alter (node_alter f q) i ns
  end.

(** A write through an element handle: [el.prop = v], [el.setAttribute]. *)
Definition set_elem (f : elem -> elem) (p : path) (ns : list node) : list node :=
  alter_node (on_data f) p ns.

(** Element paths in tree order (the order of [querySelectorAll]). *)
Fixpoint node_paths (n : node) : list path :=
  match n with
  | Text _ => []
  | Elem _ ch =>
      [] :: (fix go (i : nat) (l : list node) : list path :=
               match l with
               | [] => []
               | c :: l' => map (cons i) (node_paths c) ++ go (S i) l'
               end) 0%nat ch
  end.

Fixpoint forest_paths_from (i : nat) (l : list node) : list path :=
  match l with
  | [] => []
  | c :: l' => map (cons i) (node_paths c) ++ forest_paths_from (S i) l'
  end.

Definition forest_paths (ns : list node) : list path := forest_paths_from 0 ns.

(** [textContent]: the text of the descendants, in tree order. *)
Fixpoint textContent (n : node) : string :=
  match n with
  | Text s => s
  | Elem _ ch =>
      (fix go (l : list node) : string :=
         match l with
         | [] => ""
         | c :: l' => textContent c +:+ go l'
         end) ch
  end.

(** ** Attributes and classes *)

Definition getAttribute (a : string) (e : elem) : option string := attrs e !! a.

Definition setAttribute (a v : string) (e : elem) : elem :=
  Element (tag e) (classes e) (<[a:=v]> (attrs e)) (rect_top e) (rect_bottom e).

Definition removeAttribute (a : string) (e : elem) : elem :=
  Element (tag e) (classes e) (delete a (attrs e)) (rect_top e) (rect_bottom e).

(** [el.id]: the attribute, or the empty string. *)
Definition elem_id (e : elem) : string := default "" (getAttribute "id" e).

Definition has_class (c : string) (e : elem) : bool := bool_decide (c ∈ classes e).

(** [classList.toggle(c, force)]. *)
Definition classList_toggle (c : string) (force : bool) (e : elem) : elem :=
  let cs := classes e in
  let cs' := if force
             then (if bool_decide (c ∈ cs) then cs else cs ++ [c])
             else filter (fun x => x ≠ c) cs in
  Element (tag e) cs' (attrs e) (rect_top e) (rect_bottom e).

(** ** Selectors: the forms the script uses *)

Inductive simple_selector :=
| SelId (i : string)                  (* #i *)
| SelTag (t : string)                 (* t *)
| SelTagClass (t c : string)          (* t.c *)
| SelTagAttr (t a : string).          (* t[a] *)

Inductive selector :=
| Simple (s : simple_selector)
| Descendant (anc s : simple_selector)   (* anc s *)
| AnyOf (ss : list simple_selector).     (* s1, s2, ... *)

Definition matches_simple (s : simple_selector) (e : elem) : bool :=
  match s with
  | SelId i => bool_decide (i ≠ "") && bool_decide (getAttribute "id" e = Some i)
  | SelTag t => bool_decide (tag e = t)
  | SelTagClass t c => bool_decide (tag e = t) && has_class c e
  | SelTagAttr t a => bool_decide (tag e = t) && bool_decide (is_Some (getAttribute a e))
  end.

(** The handles of the ancestors of [p], nearest first. *)
Fixpoint ancestors (p : path) : list path :=
  match p with
  | [] => []
  | [i] => []
  | i :: q => map (cons i) (ancestors q) ++ [[i]]
  end.

Definition matches_at (s : simple_selector) (ns : list node) (p : path) : bool :=
  match get_elem p ns with
  | Some e => matches_simple s e
  | None => false
  end.

Definition matches (sel : selector) (ns : list node) (p : path) : bool :=
  match sel with
  | Simple s => matches_at s ns p
  | Descendant anc s => matches_at s ns p && existsb (matches_at anc ns) (ancestors p)
  | AnyOf ss => existsb (fun s => matches_at s ns p) ss
  end.

Definition querySelectorAll (sel : selector) (ns : list node) : list path :=
  filter (fun p => matches sel ns p = true) (forest_paths ns).

Definition querySelector (sel : selector) (ns : list node) : option path :=
  head (querySelectorAll sel ns).

Definition getElementById (i : string) (ns : list node) : option path :=
  querySelector (Simple (SelId i)) ns.

(** [el.querySelector(sel)]: the first match among the descendants of [p]. *)
Definition is_descendant (p q : path) : bool :=
  bool_decide (p `prefix_of` q) && bool_decide (p ≠ q).

Definition elem_querySelector (sel : selector) (p : path) (ns : list node) : option path :=
  head (filter (fun q => is_descendant p q = true) (querySelectorAll sel ns)).

(** [el.closest(sel)]: the element itself or its nearest matching ancestor. *)
Definition closest (s : simple_selector) (p : path) (ns : list node) : option path :=
  head (filter (fun q => matches_at s ns q = true) (p :: ancestors p)).

(** ** JavaScript values that reach the console or a truthiness test *)

Inductive jsval :=
| VNull
| VBool (b : bool)
| VStr (s : string).

Definition truthy (v : jsval) : bool :=
  match v with
  | VNull => false
  | VBool b => b
  | VStr s => negb (bool_decide (s = ""))
  end.

Definition of_attr (o : option string) : jsval :=
  match o with Some s => VStr s | None => VNull end.

(** [s.substring(1)] *)
Definition substring1 (s : string) : string :=
  match s with EmptyString => "" | String _ r => r end.

(** [s.startsWith(c)] for a one-character [c]. *)
Definition startsWith (c : ascii) (s : string) : bool :=
  match s with String a _ => bool_decide (a = c) | EmptyString => false end.

(** ** Regular expressions, matched by derivatives

    [test_anchored r s] is [/^r$/.test(s)]. *)

Inductive regex :=
| Void
| Eps
| Chr (c : ascii)
| Class (p : ascii -> bool)
| Seq (r1 r2 : regex)
| Alt (r1 r2 : regex)
| Star (r : regex).

Fixpoint nullable (r : regex) : bool :=
  match r with
  | Void | Chr _ | Class _ => false
  | Eps | Star _ => true
  | Seq r1 r2 => nullable r1 && nullable r2
  | Alt r1 r2 => nullable r1 || nullable r2
  end.

Fixpoint deriv (c : ascii) (r : regex) : regex :=
  match r with
  | Void | Eps => Void
  | Chr d => if bool_decide (c = d) then Eps else Void
  | Class p => if p c then Eps else Void
  | Seq r1 r2 =>
      if nullable r1 then Alt (Seq (deriv c r1) r2) (deriv c r2)
      else Seq (deriv c r1) r2
  | Alt r1 r2 => Alt (deriv c r1) (deriv c r2)
  | Star r1 => Seq (deriv c r1) (Star r1)
  end.

Fixpoint test_anchored (r : regex) (s : string) : bool :=
  match s with
  | EmptyString => nullable r
  | String c s' => test_anchored (deriv c r) s'
  end.

Definition in_range (lo hi : nat) (c : ascii) : bool :=
  (lo <=? nat_of_ascii c)%nat && (nat_of_ascii c <=? hi)%nat.

(** [[a-zA-Z]] *)
Definition is_letter (c : ascii) : bool := in_range 97 122 c || in_range 65 90 c.

(** [\w]: [[A-Za-z0-9_]] *)
Definition is_word (c : ascii) : bool :=
  is_letter c || in_range 48 57 c || bool_decide (c = "_"%char).

(** [[\w-]] *)
Definition is_word_or_hyphen (c : ascii) : bool :=
  is_word c || bool_decide (c = "-"%char).

(** [#[a-zA-Z][\w-]*] *)
Definition href_regex : regex :=
  Seq (Chr "#") (Seq (Class is_letter) (Star (Class is_word_or_hyphen))).

(** ** The world the script runs in *)

Inductive level := Log | Warn | Error.

Inductive target := Window | Document.

(** The functions of the script that are passed around as values. *)
Inductive handler :=
| HandleNavbarScroll
| UpdateActiveNavLink
| HandleWindowResize
| HandleDocumentClick
| HandleKeyboardNavigation
| ResetScrollPosition
| OnPopstate.                (* the arrow function of line 403 *)

(** What [addEventListener] is given: a function of the script, or the
    wrapper that [throttle]/[debounce] returned for it. *)
Inductive listener :=
| Direct (h : handler)
| Throttled (h : handler) (wait : nat)
| Debounced (h : handler) (wait : nat).

(** The callbacks the page code hands to [setTimeout]. *)
Inductive task :=
| ScrollToLocationHash                          (* line 416 *)
| RestoreButton (button : path) (text : string). (* line 276 *)

Record World := mkWorld {
  doc : list node;
  innerHeight : float;             (* window.innerHeight *)
  clientHeight : float;            (* document.documentElement.clientHeight *)
  scrollY : Q;                     (* window.scrollY *)
  vh_px : option float;            (* --vh on the root element, in px *)
  pathname : string;               (* window.location.* *)
  search : string;
  hash : string;
  hostname : string;
  has_pushState : bool;            (* history.pushState is defined *)
  pushed : list string;            (* URLs given to history.pushState *)
  console : list (level * list jsval);
  scrolledIntoView : list (path * gmap string string);
  focused : option path;           (* document.activeElement, when the script set it *)
  focusable : list path;           (* the elements the browser can focus *)
  listeners : list (target * string * listener);
  timeouts : list (task * nat);    (* setTimeout(callback, delay) *)
  has_gtag : bool;                 (* typeof gtag !== 'undefined' *)
  gtag_events : list (string * string * string)
}.

Definition set_doc (f : list node -> list node) (w : World) : World :=
  mkWorld (f (doc w)) (innerHeight w) (clientHeight w) (scrollY w) (vh_px w)
    (pathname w) (search w) (hash w) (hostname w) (has_pushState w) (pushed w)
    (console w) (scrolledIntoView w) (focused w) (focusable w) (listeners w) (timeouts w)
    (has_gtag w) (gtag_events w).

Definition set_vh_px (v : option float) (w : World) : World :=
  mkWorld (doc w) (innerHeight w) (clientHeight w) (scrollY w) v
    (pathname w) (search w) (hash w) (hostname w) (has_pushState w) (pushed w)
    (console w) (scrolledIntoView w) (focused w) (focusable w) (listeners w) (timeouts w)
    (has_gtag w) (gtag_events w).

Definition set_location (p s h : string) (w : World) : World :=
  mkWorld (doc w) (innerHeight w) (clientHeight w) (scrollY w) (vh_px w)
    p s h (hostname w) (has_pushState w) (pushed w)
    (console w) (scrolledIntoView w) (focused w) (focusable w) (listeners w) (timeouts w)
    (has_gtag w) (gtag_events w).

Definition set_pushed (f : list string -> list string) (w : World) : World :=
  mkWorld (doc w) (innerHeight w) (clientHeight w) (scrollY w) (vh_px w)
    (pathname w) (search w) (hash w) (hostname w) (has_pushState w) (f (pushed w))
    (console w) (scrolledIntoView w) (focused w) (focusable w) (listeners w) (timeouts w)
    (has_gtag w) (gtag_events w).

Definition set_console (f : list (level * list jsval) -> list (level * list jsval))
    (w : World) : World :=
  mkWorld (doc w) (innerHeight w) (clientHeight w) (scrollY w) (vh_px w)
    (pathname w) (search w) (hash w) (hostname w) (has_pushState w) (pushed w)
    (f (console w)) (scrolledIntoView w) (focused w) (focusable w) (listeners w) (timeouts w)
    (has_gtag w) (gtag_events w).

Definition set_scrolledIntoView
    (f : list (path * gmap string string) -> list (path * gmap string string))
    (w : World) : World :=
  mkWorld (doc w) (innerHeight w) (clientHeight w) (scrollY w) (vh_px w)
    (pathname w) (search w) (hash w) (hostname w) (has_pushState w) (pushed w)
    (console w) (f (scrolledIntoView w)) (focused w) (focusable w) (listeners w) (timeouts w)
    (has_gtag w) (gtag_events w).

Definition set_focused (o : option path) (w : World) : World :=
  mkWorld (doc w) (innerHeight w) (clientHeight w) (scrollY w) (vh_px w)
    (pathname w) (search w) (hash w) (hostname w) (has_pushState w) (pushed w)
    (console w) (scrolledIntoView w) o (focusable w) (listeners w) (timeouts w)
    (has_gtag w) (gtag_events w).

Definition set_listeners
    (f : list (target * string * listener) -> list (target * string * listener))
    (w : World) : World :=
  mkWorld (doc w) (innerHeight w) (clientHeight w) (scrollY w) (vh_px w)
    (pathname w) (search w) (hash w) (hostname w) (has_pushState w) (pushed w)
    (console w) (scrolledIntoView w) (focused w) (focusable w) (f (listeners w)) (timeouts w)
    (has_gtag w) (gtag_events w).

Definition set_timeouts (f : list (task * nat) -> list (task * nat)) (w : World) : World :=
  mkWorld (doc w) (innerHeight w) (clientHeight w) (scrollY w) (vh_px w)
    (pathname w) (search w) (hash w) (hostname w) (has_pushState w) (pushed w)
    (console w) (scrolledIntoView w) (focused w) (focusable w) (listeners w) (f (timeouts w))
    (has_gtag w) (gtag_events w).

Definition set_gtag_events
    (f : list (string * string * string) -> list (string * string * string))
    (w : World) : World :=
  mkWorld (doc w) (innerHeight w) (clientHeight w) (scrollY w) (vh_px w)
    (pathname w) (search w) (hash w) (hostname w) (has_pushState w) (pushed w)
    (console w) (scrolledIntoView w) (focused w) (focusable w) (listeners w) (timeouts w)
    (has_gtag w) (f (gtag_events w)).

(** *** The state monad of the script *)

Definition M (A : Type) : Type := World -> A * World.

Definition ret {A} (a : A) : M A := fun w => (a, w).

Definition bind {A B} (m : M A) (k : A -> M B) : M B :=
  fun w => let (a, w') := m w in k a w'.

Definition gets {A} (f : World -> A) : M A := fun w => (f w, w).

Definition modify (f : World -> World) : M unit := fun w => (tt, f w).

Definition exec {A} (m : M A) (w : World) : World := snd (m w).

Notation "x <- m ;; k" := (bind m (fun x => k))
  (at level 100, m at next level, right associativity).
Notation "m ;;; k" := (bind m (fun _ => k))
  (at level 100, right associativity).

Definition when (b : bool) (m : M unit) : M unit := if b then m else ret tt.

(** *** Browser primitives *)

Definition console_emit (l : level) (args : list jsval) : M unit :=
  modify (set_console (fun c => c ++ [(l, args)])).

Definition scrollIntoView (p : path) (opts : gmap string string) : M unit :=
  modify (set_scrolledIntoView (fun c => c ++ [(p, opts)])).

(** [el.focus({ preventScroll: true })]: the focus moves to [el] when the
    browser can focus it (an element with a tabindex, a link, a control;
    rendered and not disabled), and stays where it is otherwise. *)
Definition focus (p : path) : M unit :=
  modify (fun w => if bool_decide (p ∈ focusable w) then set_focused (Some p) w else w).

Definition addEventListener (t : target) (type : string) (l : listener) : M unit :=
  modify (set_listeners (fun ls => ls ++ [(t, type, l)])).

Definition setTimeout (cb : task) (delay : nat) : M unit :=
  modify (set_timeouts (fun ts => ts ++ [(cb, delay)])).

Definition write_elem (p : path) (f : elem -> elem) : M unit :=
  modify (set_doc (set_elem f p)).

(** [break_at c s]: [s] cut before the first [c]. *)
Fixpoint break_at (c : ascii) (s : string) : string * string :=
  match s with
  | EmptyString => ("", "")
  | String a r =>
      if bool_decide (a = c) then ("", s)
      else let (x, y) := break_at c r in (String a x, y)
  end.

(** The components of a URL of the form [path?query#fragment];
    [location.search] and [location.hash] are empty when the query or
    the fragment is. *)
Definition url_components (url : string) : string * string * string :=
  let (before, h) := break_at "#" url in
  let (p, s) := break_at "?" before in
  (p, (if bool_decide (s = "?") then "" else s),
      (if bool_decide (h = "#") then "" else h)).

(** The URL parser on the string [pushState] is given.  Strings hold
    UTF-8.  The parser drops the C0 controls and spaces at both ends of
    its input, then every tab and newline; in the fragment it
    percent-encodes the C0 controls, the space, the double quote, [<],
    [>], the backtick and every byte above [~]. *)
Definition is_c0_or_space (a : ascii) : bool := (nat_of_ascii a <=? 32)%nat.

Definition is_tab_or_newline (a : ascii) : bool :=
  bool_decide (nat_of_ascii a ∈ [9; 10; 13]%nat).

Fixpoint drop_leading (s : string) : string :=
  match s with
  | EmptyString => ""
  | String a r => if is_c0_or_space a then drop_leading r else s
  end.

Fixpoint drop_trailing (s : string) : string :=
  match s with
  | EmptyString => ""
  | String a r =>
      match drop_trailing r with
      | EmptyString => if is_c0_or_space a then "" else String a ""
      | r' => String a r'
      end
  end.

Fixpoint remove_tab_newline (s : string) : string :=
  match s with
  | EmptyString => ""
  | String a r =>
      if is_tab_or_newline a then remove_tab_newline r
      else String a (remove_tab_newline r)
  end.

Definition in_fragment_encode_set (a : ascii) : bool :=
  (nat_of_ascii a <=? 32)%nat || (126 <? nat_of_ascii a)%nat
  || bool_decide (nat_of_ascii a ∈ [34; 60; 62; 96]%nat).

Definition hex_digit (n : nat) : ascii :=
  ascii_of_nat (if (n <? 10)%nat then 48 + n else 55 + n).

Definition percent_encode (a : ascii) : string :=
  String "%" (String (hex_digit (nat_of_ascii a / 16))
                (String (hex_digit (nat_of_ascii a mod 16)) "")).

Fixpoint encode_fragment (s : string) : string :=
  match s with
  | EmptyString => ""
  | String a r =>
      (if in_fragment_encode_set a then percent_encode a else String a "")
      +:+ encode_fragment r
  end.

(** [location.hash] for the fragment [f] as the parser read it. *)
Definition hash_of_fragment (f : string) : string :=
  if bool_decide (f = "") then "" else "#" +:+ encode_fragment f.

Definition parse_url (url : string) : string * string * string :=
  let c := url_components (remove_tab_newline (drop_trailing (drop_leading url))) in
  (c.1.1, c.1.2, hash_of_fragment (substring1 c.2)).

(** [history.pushState(null, '', url)]: a new history entry; the
    location becomes the URL that [url] parses to.  The path and the
    query are taken as they are written: the script writes
    [location.pathname] and [location.search] there, which the browser
    reports in parsed form and reads back unchanged, and from a path that
    starts with one [/], in a document without a [base] element, the URL
    is one of the page's origin, so that the call does not throw
    ([well_formed_location] below is this condition). *)
Definition pushState (url : string) : M unit :=
  modify (fun w =>
    let c := parse_url url in
    set_location c.1.1 c.1.2 c.2 (set_pushed (fun us => us ++ [url]) w)).

(** ** The script: utility functions *)

(** [scrollToElement(targetId, options = {})], lines 53-80. *)
Definition defaultOptions : gmap string string :=
  {[ "behavior" := "smooth"; "block" := "start"; "inline" := "nearest" ]}.

Definition scrollToElement (targetId : string) (options : gmap string string) : M bool :=
  let scrollOptions := options ∪ defaultOptions in
  section <- gets (fun w => getElementById targetId (doc w)) ;;
  match section with
  | Some el =>
      scrollIntoView el scrollOptions ;;;
      pushOk <- gets has_pushState ;;
      when pushOk (
        newUrl <- gets (fun w => pathname w +:+ search w +:+ "#" +:+ targetId) ;;
        pushState newUrl) ;;;
      focus el ;;;
      ret true
  | None =>
      console_emit Warn
        [VStr ("[Airbus Site] Element with ID '" +:+ targetId +:+ "' not found")] ;;;
      ret false
  end.

(** [isElementVisible(element, threshold)], lines 88-98.  A number is
    falsy when it is zero or NaN (line 92); the products and the two
    comparisons of lines 95-96 are those of IEEE doubles. *)
Definition windowHeight (w : World) : float :=
  if PrimFloat.is_zero (innerHeight w) || PrimFloat.is_nan (innerHeight w)
  then clientHeight w else innerHeight w.

Definition isElementVisible (element : option path) (threshold : float) (w : World)
    : bool :=
  match element with
  | None => false
  | Some el =>
      match get_elem el (doc w) with
      | None => false
      | Some e =>
          (rect_top e <=? windowHeight w * (1 - threshold))%float
          && (windowHeight w * threshold <=? rect_bottom e)%float
      end
  end.

(** ** Navbar management *)

(** [handleNavbarScroll()], lines 105-120. *)
Definition handleNavbarScroll : M unit :=
  nav <- gets (fun w => querySelector (Simple (SelTag "nav")) (doc w)) ;;
  match nav with
  | Some el =>
      isScrolled <- gets (fun w => negb (Qle_bool (scrollY w) 80)) ;;
      write_elem el (classList_toggle "scrolled" isScrolled) ;;;
      write_elem el (setAttribute "aria-label"
        (if isScrolled
         then "Menu di navigazione principale (sfondo visibile)"
         else "Menu di navigazione principale (trasparente)"))
  | None => ret tt
  end.

Definition sections : list string := ["homepage"; "performance"; "report"].

Definition navLinkSelector : selector :=
  Descendant (SelTag "nav") (SelTagClass "a" "smooth-scroll").

(** The loop of lines 131-137 over the section identifiers [ids].  The
    result is the identifiers the loop looked up, in order, and the value
    of [activeSection] when the loop ends. *)
Fixpoint scanSections (ids : list string) (w : World) : list string * string :=
  match ids with
  | [] => ([], "")
  | sectionId :: rest =>
      let section := getElementById sectionId (doc w) in
      if bool_decide (is_Some section) && isElementVisible section 0.3 w
      then ([sectionId], sectionId)
      else let (seen, active) := scanSections rest w in (sectionId :: seen, active)
  end.

Definition activeSection (w : World) : string := snd (scanSections sections w).

(** The body of the [forEach] of lines 140-146, for one link. *)
Definition markLink (active : string) (link : elem) : elem :=
  let href := getAttribute "href" link in
  let isActive := bool_decide (href = Some ("#" +:+ active)) in
  setAttribute "aria-current" (if isActive then "page" else "false")
    (classList_toggle "active" isActive link).

(** [updateActiveNavLink()], lines 125-147. *)
Definition updateActiveNavLink : M unit :=
  navLinks <- gets (fun w => querySelectorAll navLinkSelector (doc w)) ;;
  active <- gets activeSection ;;
  modify (set_doc (fun d => foldl (fun d link => set_elem (markLink active) link d) d navLinks)).

(** ** Validation and utilities *)

(** [validateHref(href)], lines 256-262: the value of the [&&] chain. *)
Definition validateHref (href : option string) : jsval :=
  match href with
  | None => VNull
  | Some s =>
      if negb (truthy (VStr s)) then VStr s
      else if negb (startsWith "#" s) then VBool false
      else if negb (1 <? String.length s)%nat then VBool false
      else VBool (test_anchored href_regex s)
  end.

(** [trackEvent(action, category, label = '')], lines 289-303. *)
Definition trackEvent (action category label : string) : M unit :=
  g <- gets has_gtag ;;
  when g (modify (set_gtag_events (fun es => es ++ [(action, category, label)]))) ;;;
  host <- gets hostname ;;
  when (bool_decide (host = "localhost") || bool_decide (host = "127.0.0.1"))
    (console_emit Log
       [VStr ("[Analytics] " +:+ action +:+ " | " +:+ category +:+ " | " +:+ label)]).

(** [el.textContent = s]: the children become one text node. *)
Definition set_textContent (s : string) (n : node) : node :=
  on_children (fun _ => if bool_decide (s = "") then [] else [Text s]) n.

(** [showDownloadFeedback(element)], lines 268-281. *)
Definition showDownloadFeedback (element : path) : M unit :=
  originalText <- gets (fun w => default "" (textContent <$> get_node element (doc w))) ;;
  button <- gets (fun w => elem_querySelector (Simple (SelTag "button")) element (doc w)) ;;
  match button with
  | Some b =>
      modify (set_doc (alter_node (set_textContent "⬇ Download avviato...") b)) ;;;
      write_elem b (setAttribute "disabled" "") ;;;
      setTimeout (RestoreButton b originalText) 2000
  | None => ret tt
  end.

(** ** Event handlers *)

(** [handleDocumentClick(e)], lines 155-198, for a click whose target is
    the element [tgt]; the result tells whether [e.preventDefault()] was
    called. *)
Definition handleDocumentClick (tgt : path) : M bool :=
  button <- gets (fun w => closest (SelId "goToReport") tgt (doc w)) ;;
  smoothLink <- gets (fun w => closest (SelTagClass "a" "smooth-scroll") tgt (doc w)) ;;
  downloadLink <- gets (fun w => closest (SelTagAttr "a" "download") tgt (doc w)) ;;
  match button, smoothLink, downloadLink with
  | Some _, _, _ =>
      ok <- scrollToElement "report" ∅ ;;
      when ok (trackEvent "button_click" "go_to_report" "homepage") ;;;
      ret true
  | None, Some link, _ =>
      href <- gets (fun w => get_elem link (doc w) ≫= getAttribute "href") ;;
      (if truthy (validateHref href)
       then
         let targetId := substring1 (default "" href) in
         ok <- scrollToElement targetId ∅ ;;
         when ok (trackEvent "navigation" "smooth_scroll" targetId)
       else
         console_emit Warn
           [VStr "[Airbus Site] Invalid href format for smooth scroll:"; of_attr href]) ;;;
      ret true
  | None, None, Some link =>
      dl <- gets (fun w => get_elem link (doc w) ≫= getAttribute "download") ;;
      let filename := if truthy (of_attr dl) then default "" dl else "document" in
      trackEvent "download" "report_pdf" filename ;;;
      showDownloadFeedback link ;;;
      ret false
  | None, None, None => ret false
  end.

(** [handleWindowResize()], lines 240-247. *)
Definition handleWindowResize : M unit :=
  vh <- gets (fun w => (innerHeight w * 0.01)%float) ;;
  modify (set_vh_px (Some vh)) ;;;
  updateActiveNavLink.

(** ** Initialization *)

(** [validateCriticalElements()], lines 328-347. *)
Definition criticalElements : list (selector * string) :=
  [ (Simple (SelId "homepage"), "Homepage section");
    (Simple (SelId "performance"), "Performance section");
    (Simple (SelId "report"), "Report section");
    (Simple (SelTag "nav"), "Navigation bar") ].

Definition validateCriticalElements : M bool :=
  missing <- gets (fun w =>
    filter (fun c => querySelector (fst c) (doc w) = None) criticalElements) ;;
  when (0 <? length missing)%nat
    (console_emit Warn
       [VStr "[Airbus Site] Missing critical elements:";
        VStr (String.concat ", " (map snd missing))]) ;;;
  ret (length missing =? 0)%nat.

(** The body of the [forEach] of lines 361-370, for the section [sec]
    at position [index]. *)
Definition labelSection (index : nat) (sec : path) : M unit :=
  s <- gets (fun w => get_elem sec (doc w)) ;;
  let labelled a := truthy (of_attr (s ≫= getAttribute a)) in
  when (negb (labelled "aria-labelledby") && negb (labelled "aria-label")) (
    heading <- gets (fun w =>
      elem_querySelector (AnyOf [SelTag "h2"; SelTag "h3"; SelTag "h4"]) sec (doc w)) ;;
    match heading with
    | Some h =>
        hid <- gets (fun w => default "" (elem_id <$> get_elem h (doc w))) ;;
        let headingId :=
          if truthy (VStr hid) then hid else "section-heading-" +:+ pretty index in
        write_elem h (setAttribute "id" headingId) ;;;
        write_elem sec (setAttribute "aria-labelledby" headingId)
    | None => ret tt
    end).

Fixpoint forEach_indexed (f : nat -> path -> M unit) (i : nat) (l : list path) : M unit :=
  match l with
  | [] => ret tt
  | x :: l' => f i x ;;; forEach_indexed f (S i) l'
  end.

(** [setupAccessibility()], lines 352-373. *)
Definition setupAccessibility : M unit :=
  main <- gets (fun w => querySelector (Simple (SelTag "main")) (doc w)) ;;
  match main with
  | Some m =>
      role <- gets (fun w => get_elem m (doc w) ≫= getAttribute "role") ;;
      when (negb (truthy (of_attr role))) (write_elem m (setAttribute "role" "main"))
  | None => ret tt
  end ;;;
  secs <- gets (fun w => querySelectorAll (Simple (SelTag "section")) (doc w)) ;;
  forEach_indexed labelSection 0 secs.

(** The part of [initializeSite] after the validation, lines 386-421. *)
Definition initializeSite_setup : M unit :=
  setupAccessibility ;;;
  handleWindowResize ;;;
  addEventListener Window "scroll" (Throttled HandleNavbarScroll 16) ;;;
  addEventListener Window "scroll" (Throttled UpdateActiveNavLink 100) ;;;
  addEventListener Window "resize" (Debounced HandleWindowResize 250) ;;;
  addEventListener Document "click" (Direct HandleDocumentClick) ;;;
  addEventListener Document "keydown" (Direct HandleKeyboardNavigation) ;;;
  addEventListener Window "beforeunload" (Direct ResetScrollPosition) ;;;
  addEventListener Window "popstate" (Direct OnPopstate) ;;;
  handleNavbarScroll ;;;
  updateActiveNavLink ;;;
  h <- gets hash ;;
  when (truthy (VStr h)) (setTimeout ScrollToLocationHash 300) ;;;
  console_emit Log [VStr "[Airbus Site] Initialization complete"].

(** [initializeSite()], lines 378-422. *)
Definition initializeSite : M unit :=
  console_emit Log [VStr "[Airbus Site] Initializing..."] ;;;
  ok <- validateCriticalElements ;;
  when (negb ok)
    (console_emit Error
       [VStr "[Airbus Site] Critical elements missing, some features may not work"]) ;;;
  initializeSite_setup.

(** Running a timer callback of the page. *)
Definition run_task (t : task) : M unit :=
  match t with
  | ScrollToLocationHash =>
      h <- gets hash ;;
      scrollToElement (substring1 h) ∅ ;;; ret tt
  | RestoreButton b text =>
      modify (set_doc (alter_node (set_textContent text) b)) ;;;
      write_elem b (removeAttribute "disabled")
  end.

(** ** Keyboard navigation *)

(** The part of a [KeyboardEvent] the script reads. *)
Record KeyboardEvent := mkKeyboardEvent {
  key : string;
  ctrlKey : bool;
  altKey : bool;
  keyTarget : path               (* e.target *)
}.

(** [el.matches('[tabindex]:not(button):not(a):not(input)')] *)
Definition matchesCustomTabindex (e : elem) : bool :=
  bool_decide (is_Some (getAttribute "tabindex" e))
  && negb (bool_decide (tag e = "button"))
  && negb (bool_decide (tag e = "a"))
  && negb (bool_decide (tag e = "input")).

(** The object [shortcuts] of lines 217-221, read with a key name. *)
Definition shortcuts : gmap string string :=
  {[ "1" := "homepage"; "2" := "performance"; "3" := "report" ]}.

(** [shortcuts[key]] also finds what an object literal inherits from
    [Object.prototype].  No key of a keyboard has one of these names; the
    map above is the lookup for every other key. *)
Definition objectPrototypeKeys : list string :=
  [ "constructor"; "hasOwnProperty"; "isPrototypeOf"; "propertyIsEnumerable";
    "toLocaleString"; "toString"; "valueOf"; "__proto__";
    "__defineGetter__"; "__defineSetter__"; "__lookupGetter__"; "__lookupSetter__" ].

(** The listeners of the script that a click reaches: the only function
    the script registers for clicks is [handleDocumentClick]. *)
Definition isClickListener (l : target * string * listener) : bool :=
  match l with
  | (_, type, Direct HandleDocumentClick) => bool_decide (type = "click")
  | _ => false
  end.

Fixpoint runClickListeners (ls : list (target * string * listener)) (tgt : path) : M unit :=
  match ls with
  | [] => ret tt
  | l :: ls' =>
      when (isClickListener l) (handleDocumentClick tgt ;;; ret tt) ;;;
      runClickListeners ls' tgt
  end.

(** [el.click()]: a click event on [el] that bubbles to the document;
    the listeners registered when it is dispatched run in order. *)
Definition click (tgt : path) : M unit :=
  ls <- gets listeners ;;
  runClickListeners ls tgt.

(** [handleKeyboardNavigation(e)], lines 204-235, for an event whose
    target is an element and whose key is none of [objectPrototypeKeys];
    the result tells whether [e.preventDefault()] was called. *)
Definition handleKeyboardNavigation (e : KeyboardEvent) : M bool :=
  tgt <- gets (fun w => get_elem (keyTarget e) (doc w)) ;;
  if (bool_decide (key e = "Enter") || bool_decide (key e = " "))
     && from_option matchesCustomTabindex false tgt
  then click (keyTarget e) ;;; ret true
  else
    prevented <-
      (if ctrlKey e && negb (altKey e)
       then match shortcuts !! key e with
            | Some sectionId =>
                scrollToElement sectionId ∅ ;;;
                trackEvent "keyboard_navigation" "shortcut" sectionId ;;;
                ret true
            | None => ret false
            end
       else ret false) ;;
    when (bool_decide (key e = "Escape")) (
      scrollToElement "homepage" ∅ ;;;
      trackEvent "keyboard_navigation" "escape_to_top" "") ;;;
    ret prevented.

(** An attribute of the element behind a handle. *)
Definition attr_at (a : string) (q : path) (d : list node) : option string :=
  get_elem q d ≫= getAttribute a.

(** The selector of line 363. *)
Definition headingSelector : selector :=
  AnyOf [SelTag "h2"; SelTag "h3"; SelTag "h4"].

(** ** Timers and the wrappers of [throttle] and [debounce]

    A wrapper owns one variable, [timeout], and hands the closure [later]
    to [setTimeout].  The machine below holds what such a wrapper can
    touch: the timer table of the page, the clock, the variable, and the
    state [S] the wrapped function acts on.  Other code may set timers of
    its own ([Foreign]); their callbacks act on [S] only. *)

Module EventLoop.

(** The delay a timer gets for the number [setTimeout] is given, here a
    whole number of milliseconds: the parameter is a WebIDL [long], so
    the number wraps around at 2^32, and a negative result counts as 0. *)
Definition timer_delay (delay : nat) : nat :=
  let r := (Z.of_nat delay mod 2 ^ 32)%Z in
  if (r <? 2 ^ 31)%Z then Z.to_nat r else 0%nat.

Arguments timer_delay : simpl never.

Section Machine.
Context {A S : Type}.

(** A timer callback: the closure [later] of a call with arguments
    [args], or a callback of other code. *)
Inductive callback :=
| Later (args : A)
| Foreign (k : S -> S).

Record timer := mkTimer {
  timer_id : nat;
  timer_due : nat;          (* the time from which it may run *)
  timer_cb : callback
}.

Record machine := mkMachine {
  clock : nat;              (* milliseconds *)
  pending : list timer;
  next_id : nat;
  timeout : option nat;     (* the wrapper's variable; None is undefined *)
  state : S
}.

Definition setTimeout (cb : callback) (delay : nat) (m : machine) : nat * machine :=
  (next_id m,
   mkMachine (clock m)
     (pending m ++ [mkTimer (next_id m) (clock m + timer_delay delay) cb])
     (Datatypes.S (next_id m)) (timeout m) (state m)).

Definition clearTimeout (id : option nat) (m : machine) : machine :=
  match id with
  | None => m
  | Some i =>
      mkMachine (clock m) (filter (fun t => timer_id t ≠ i) (pending m))
        (next_id m) (timeout m) (state m)
  end.

Definition set_timeout (id : option nat) (m : machine) : machine :=
  mkMachine (clock m) (pending m) (next_id m) id (state m).

Definition set_state (f : S -> S) (m : machine) : machine :=
  mkMachine (clock m) (pending m) (next_id m) (timeout m) (f (state m)).

(** The function a wrapper is ([executedFunction]) and the closure it
    schedules ([later]). *)
Record wrapper := mkWrapper {
  executedFunction : A -> machine -> machine;
  later : A -> machine -> machine
}.

(** [throttle(func, wait)], lines 17-27. *)
Definition throttle (func : A -> S -> S) (wait : nat) : wrapper :=
  mkWrapper
    (fun args m =>
       let m := clearTimeout (timeout m) m in
       let (id, m) := setTimeout (Later args) wait m in
       set_timeout (Some id) m)
    (fun args m =>
       let m := clearTimeout (timeout m) m in
       set_state (func args) m).

(** [debounce(func, wait)], lines 35-45. *)
Definition debounce (func : A -> S -> S) (wait : nat) : wrapper :=
  mkWrapper
    (fun args m =>
       let m := clearTimeout (timeout m) m in
       let (id, m) := setTimeout (Later args) wait m in
       set_timeout (Some id) m)
    (fun args m =>
       let m := clearTimeout (timeout m) m in
       set_state (func args) m).

(** What happens to the machine: the wrapper is called, the event loop
    runs a timer, time passes, other code sets a timer. *)
Inductive input :=
| Call (args : A)
| Fire (pos : nat)         (* the position of the timer in the table *)
| Tick (d : nat)
| SetForeign (k : S -> S) (delay : nat).

(** What is observed: a call of the wrapper, an invocation of the wrapped
    function, each with the time and the arguments. *)
Inductive obs :=
| Called (t : nat) (args : A)
| Invoked (t : nat) (args : A).

Definition remove_timer (pos : nat) (m : machine) : machine :=
  mkMachine (clock m) (delete pos (pending m)) (next_id m) (timeout m) (state m).

Definition tick (d : nat) (m : machine) : machine :=
  mkMachine (clock m + d) (pending m) (next_id m) (timeout m) (state m).

(** One step.  The event loop runs a timer only when it is in the table
    and its delay has elapsed; the timer leaves the table before its
    callback runs. *)
Definition step (w : wrapper) (i : input) (m : machine) : option (machine * list obs) :=
  match i with
  | Call args => Some (executedFunction w args m, [Called (clock m) args])
  | Tick d => Some (tick d m, [])
  | SetForeign k delay => Some (snd (setTimeout (Foreign k) delay m), [])
  | Fire pos =>
      match pending m !! pos with
      | Some t =>
          if bool_decide (timer_due t <= clock m)%nat then
            match timer_cb t with
            | Later args =>
                Some (later w args (remove_timer pos m), [Invoked (clock m) args])
            | Foreign k => Some (set_state k (remove_timer pos m), [])
            end
          else None
      | None => None
      end
  end.

Fixpoint run (w : wrapper) (tr : list input) (m : machine) : option (machine * list obs) :=
  match tr with
  | [] => Some (m, [])
  | i :: tr' =>
      match step w i m with
      | Some (m', o) =>
          match run w tr' m' with
          | Some (m'', os) => Some (m'', o ++ os)
          | None => None
          end
      | None => None
      end
  end.

(** The machine when the wrapper has just been made: the variable is
    undefined and the timers in the table are other code's. *)
Definition fresh (t0 n0 : nat) (others : list (nat * nat * (S -> S))) (s0 : S) : machine :=
  mkMachine t0 (map (fun o => mkTimer o.1.1 o.1.2 (Foreign o.2)) others) n0 None s0.

(** The wrapper's own timers in a table: id, due time and arguments. *)
Definition own (t : timer) : option (nat * nat * A) :=
  match timer_cb t with
  | Later a => Some (timer_id t, timer_due t, a)
  | Foreign _ => None
  end.

Definition own_timers (m : machine) : list (nat * nat * A) := omap own (pending m).

(** An invocation of the wrapped function comes right after the call
    whose arguments it receives, and no sooner than [wait] after it. *)
Definition trailing_edge (wait : nat) (log : list obs) : Prop :=
  forall l1 t a l2, log = l1 ++ Invoked t a :: l2 ->
    exists l0 tc, l1 = l0 ++ [Called tc a] /\ (tc + wait <= t)%nat.

Definition obs_time (o : obs) : nat :=
  match o with Called t _ | Invoked t _ => t end.

(** The observations are in the order of their times. *)
Definition chronological (log : list obs) : Prop :=
  forall l1 o1 l2 o2 l3, log = l1 ++ o1 :: l2 ++ o2 :: l3 ->
    (obs_time o1 <= obs_time o2)%nat.

(** No observation is later than the clock. *)
Definition timed (m : machine) (log : list obs) : Prop :=
  Forall (fun o => (obs_time o <= clock m)%nat) log /\ chronological log.

(** What holds of the machine and the observations so far: the
    invocations are on the trailing edge, and the wrapper has a timer
    in the table exactly when the last thing observed is a call; it is
    then the timer of that call, and [timeout] names it. *)
Definition settled (m : machine) (log : list obs) : Prop :=
  own_timers m = []
  /\ forall l0 tc a, log <> l0 ++ [Called tc a].

Definition armed (wait : nat) (m : machine) (log : list obs) : Prop :=
  exists id tc a l0,
    own_timers m = [(id, (tc + wait)%nat, a)]
    /\ timeout m = Some id
    /\ log = l0 ++ [Called tc a].

Definition invariant (wait : nat) (m : machine) (log : list obs) : Prop :=
  trailing_edge wait log /\ (settled m log \/ armed wait m log).

End Machine.

Arguments callback : clear implicits.
Arguments timer : clear implicits.
Arguments machine : clear implicits.
Arguments wrapper : clear implicits.
Arguments input : clear implicits.
Arguments obs : clear implicits.

End EventLoop.

(** The timers of other code in the table. *)
Definition is_foreign {A S} (t : EventLoop.timer A S) : bool :=
  match EventLoop.timer_cb t with
  | EventLoop.Foreign _ => true
  | EventLoop.Later _ => false
  end.

Definition foreign_timers {A S} (m : EventLoop.machine A S) : list (EventLoop.timer A S) :=
  filter (fun t => is_foreign t = true) (EventLoop.pending m).

(** Timer ids are handed out once: the ids in the table are below
    [next_id], and so is the id the wrapper holds, which names no timer of
    other code. *)
Definition ids_fresh {A S} (m : EventLoop.machine A S) : Prop :=
  Forall (fun t => (EventLoop.timer_id t < EventLoop.next_id m)%nat) (EventLoop.pending m)
  /\ forall i, EventLoop.timeout m = Some i ->
       (i < EventLoop.next_id m)%nat
       /\ Forall (fun t => EventLoop.timer_id t = i -> is_foreign t = false)
            (EventLoop.pending m).

(** The body of a wrapped handler. *)
Definition handler_body (h : handler) : option (M unit) :=
  match h with
  | HandleNavbarScroll => Some handleNavbarScroll
  | UpdateActiveNavLink => Some updateActiveNavLink
  | HandleWindowResize => Some handleWindowResize
  | _ => None
  end.

(** The wrapper a registered listener stands for; the wrapped handlers
    ignore the event they are given. *)
Definition listener_wrapper {A} (l : listener) : option (EventLoop.wrapper A World) :=
  match l with
  | Throttled h wait =>
      body ← handler_body h; Some (EventLoop.throttle (fun _ => exec body) wait)
  | Debounced h wait =>
      body ← handler_body h; Some (EventLoop.debounce (fun _ => exec body) wait)
  | Direct _ => None
  end.

(** The listeners that are wrappers of [throttle] or [debounce]. *)
Definition wrapped (l : listener) : bool :=
  match l with Direct _ => false | Throttled _ _ | Debounced _ _ => true end.

(** ** What the specification calls overlap *)

(** The number a finite double denotes. *)
Definition float_value (f : float) : option Q :=
  match Prim2SF f with
  | S754_zero _ => Some 0%Q
  | S754_finite s m e =>
      Some (Qred ((if s then -1 else 1) * (Zpos m # 1) * Qpower 2 e))
  | _ => None
  end.

(** The length of the part of the box [top, bottom] that lies in the
    viewport [0, H]. *)
Definition viewport_overlap (top bottom H : Q) : Q :=
  Qmax 0 (Qmin bottom H - Qmax top 0).

(** A listed section counts when its element exists and passes the
    visibility test at threshold 0.3: the condition of line 133. *)
Definition sectionVisible (sectionId : string) (w : World) : bool :=
  bool_decide (is_Some (getElementById sectionId (doc w)))
  && isElementVisible (getElementById sectionId (doc w)) 0.3 w.

(** Every character of [s] satisfies [p]. *)
Fixpoint all_chars (p : ascii -> bool) (s : string) : bool :=
  match s with
  | EmptyString => true
  | String a r => p a && all_chars p r
  end.

(** ** Well-formed locations *)

Fixpoint has_char (c : ascii) (s : string) : bool :=
  match s with
  | EmptyString => false
  | String a r => bool_decide (a = c) || has_char c r
  end.

(** A character the URL parser leaves as it is in a path and in a
    query: printable ASCII, none of the double quote, the quote, [<],
    [>], the backslash, [^], the backtick, [{] and [}]. *)
Definition is_url_char (a : ascii) : bool :=
  (33 <=? nat_of_ascii a)%nat && (nat_of_ascii a <=? 126)%nat
  && negb (bool_decide (nat_of_ascii a ∈ [34; 39; 60; 62; 92; 94; 96; 123; 125]%nat)).

(** The segments of a path, cut at every [/]. *)
Fixpoint segments (s : string) : list string :=
  match s with
  | EmptyString => [""]
  | String a r =>
      if bool_decide (a = "/"%char) then "" :: segments r
      else match segments r with
           | x :: xs => String a x :: xs
           | [] => [String a ""]
           end
  end.

(** The segments the URL parser removes from a path. *)
Definition is_dot_segment (s : string) : bool :=
  bool_decide (s ∈ ["."; "%2e"; "%2E"; ".."; ".%2e"; ".%2E"; "%2e."; "%2E.";
                    "%2e%2e"; "%2e%2E"; "%2E%2e"; "%2E%2E"]).

(** What [location.pathname] and [location.search] satisfy on a page
    served over http(s): the path starts with one [/] and holds neither
    [?] nor [#]; the query is empty, or starts with [?], is longer than
    that, and holds no [#]; both are in parsed form, so that the parser
    reads them back as they are (no character it would encode, no dot
    segment).  And the document has no [base] element, so that a URL
    without a host is resolved against the location of the page. *)
Definition well_formed_location (w : World) : bool :=
  negb (has_char "#" (pathname w)) && negb (has_char "?" (pathname w))
  && negb (has_char "#" (search w))
  && (bool_decide (search w = "")
      || (startsWith "?" (search w) && negb (bool_decide (search w = "?"))))
  && startsWith "/" (pathname w) && negb (startsWith "/" (substring1 (pathname w)))
  && all_chars is_url_char (pathname w) && all_chars is_url_char (search w)
  && forallb (fun x => negb (is_dot_segment x)) (segments (pathname w))
  && bool_decide (querySelector (Simple (SelTag "base")) (doc w) = None).

(** [targetId] needs no encoding in a fragment. *)
Definition fragment_safe (targetId : string) : bool :=
  all_chars (fun a => negb (in_fragment_encode_set a)) targetId.

(** ** Frames for the effects of a command *)

(** [m] adds the entries [l] to the list [proj] of the world, and
    nothing else. *)
Definition appends {T A} (proj : World -> list T) (l : list T) (m : M A) : Prop :=
  forall w, proj (snd (m w)) = proj w ++ l.

(** The world without what was written to the console. *)
Definition erase_console (w : World) : World := set_console (fun _ => []) w.

(** [m] neither reads the console nor lets it decide anything. *)
Definition console_blind {A} (m : M A) : Prop :=
  forall w1 w2, erase_console w1 = erase_console w2 ->
    fst (m w1) = fst (m w2)
    /\ erase_console (snd (m w1)) = erase_console (snd (m w2)).

(** The selector [sel] finds an element of the document. *)
Definition present (sel : selector) (w : World) : Prop :=
  is_Some (querySelector sel (doc w)).

(** The names [validateCriticalElements] lists, and what the console
    receives for the missing elements during [initializeSite]. *)
Definition missingNames (w : World) : string :=
  String.concat ", "
    (map snd (filter (fun c => querySelector (fst c) (doc w) = None) criticalElements)).

Definition validationMessages (w : World) : list (level * list jsval) :=
  if fst (validateCriticalElements w) then []
  else [ (Warn, [VStr "[Airbus Site] Missing critical elements:"; VStr (missingNames w)]);
         (Error, [VStr "[Airbus Site] Critical elements missing, some features may not work"]) ].

(** ** Sample pages *)

Definition element (t : string) (cs : list string) (ats : list (string * string))
    (top bottom : float) (ch : list node) : node :=
  Elem (Element t cs (list_to_map ats) top bottom) ch.

(** A page with a navigation bar and the three sections, whose boxes are
    given as (top, bottom). *)
Definition samplePage (home perf report : float * float) : list node :=
  [ element "html" [] [] 0 3000 [
      element "nav" [] [] 0 60 [
        element "a" ["smooth-scroll"; "active"] [("href", "#homepage")] 0 20
          [Text "Home"];
        element "a" ["smooth-scroll"] [("href", "#performance")] 0 20
          [Text "Performance"];
        element "a" ["smooth-scroll"] [("href", "#")] 0 20 [Text "Top"];
        element "a" ["smooth-scroll"] [("href", "#report")] 0 20 [Text "Report"] ];
      element "main" [] [] 0 3000 [
        element "section" [] [("id", "homepage")] home.1 home.2 [
          element "h2" [] [] 0 0 [Text "Airbus"];
          element "button" [] [("id", "goToReport")] 0 0 [Text "Scarica il Report"] ];
        element "section" [] [("id", "performance")] perf.1 perf.2 [];
        element "section" [] [("id", "report")] report.1 report.2 [
          element "a" [] [("download", "report.pdf"); ("href", "report.pdf")] 0 0 [
            element "button" [] [] 0 0 [Text "Download"] ] ] ] ] ].

(** In the sample pages the links with an href, the buttons and the
    elements with a tabindex can be focused. *)
Definition sampleFocusable (e : elem) : bool :=
  bool_decide (is_Some (getAttribute "tabindex" e))
  || bool_decide (tag e = "button")
  || (bool_decide (tag e = "a") && bool_decide (is_Some (getAttribute "href" e))).

Definition worldOf (d : list node) (pushOk : bool) : World :=
  mkWorld d 1000 1000 900 None "/index.html" "?lang=it" "" "airbus.example"
    pushOk [] [] [] None
    (filter (fun p => from_option sampleFocusable false (get_elem p d) = true)
       (forest_paths d))
    [] [] true [].

(** Scrolled so that the second section fills the viewport. *)
Definition sampleWorld : World :=
  worldOf (samplePage (-900, 100)%float (100, 1100)%float (1100, 2100)%float) true.


(** Scrolled so that the end of the first section and the start of the
    second one are both in the middle of the window. *)
Definition overlapWorld : World :=
  worldOf (samplePage (-300, 400)%float (400, 1400)%float (1400, 2400)%float) true.

(** Scrolled past the three sections. *)
Definition pastWorld : World :=
  worldOf (samplePage (-5000, -4000)%float (-4000, -3000)%float (-3000, -2000)%float)
    true.

(** A section that is 50 px high, in the middle band of a viewport of
    1000 px. *)
Definition thinSection : elem :=
  Element "section" [] {[ "id" := "performance" ]} 600 650.

Definition thinWorld : World := worldOf [Elem thinSection []] true.

(** A section from 504 to 900 in a window 720 px high. *)
Definition roundingSection : elem :=
  Element "section" [] {[ "id" := "performance" ]} 504 900.

Definition roundingWorld : World :=
  mkWorld [Elem roundingSection []] 720 720 0 None "/index.html" "" "" "airbus.example"
    true [] [] [] None [] [] [] true [].

(** A smooth-scroll link with the href [#] inside the element
    [#goToReport]. *)
Definition nestedLinkWorld : World :=
  worldOf
    [ element "div" [] [("id", "goToReport")] 0 50 [
        element "a" ["smooth-scroll"] [("href", "#")] 0 50 [Text "Report"] ];
      element "section" [] [("id", "report")] 1100 2100 [] ] true.

(** A section whose id holds a space. *)
Definition spacedWorld : World :=
  worldOf [ element "section" [] [("id", "a b")] 0 100 [] ] true.

(** A report section that can take the focus. *)
Definition tabindexWorld : World :=
  worldOf [ element "section" [] [("id", "report"); ("tabindex", "-1")] 0 100 [] ] true.

(** A page without the report section: the validation fails on it. *)
Definition partialWorld : World :=
  worldOf
    [ element "nav" [] [] 0 60 [
        element "a" ["smooth-scroll"] [("href", "#homepage")] 0 20 [Text "Home"];
        element "a" ["smooth-scroll"; "active"] [("href", "#performance")] 0 20
          [Text "Performance"] ];
      element "main" [] [] 0 2000 [
        element "section" [] [("id", "homepage")] 0 1000 [
          element "h2" [] [] 0 50 [Text "Airbus"] ];
        element "section" [] [("id", "performance")] 1000 2000 [] ] ] true.

(** A page without the navigation bar and the report section. *)
Definition barePage : list node :=
  [ element "section" [] [("id", "homepage")] 0 1000 [];
    element "section" [] [("id", "performance")] 1000 2000 [] ].

(** A smooth-scroll link around a focusable label, and its target. *)
Definition cardWorld : World :=
  worldOf
    [ element "a" ["smooth-scroll"] [("href", "#report")] 0 50 [
        element "span" [] [("tabindex", "0")] 0 50 [Text "Report"] ];
      element "section" [] [("id", "report")] 1100 2100 [] ] true.

(** A run of a wrapper of a function that records its arguments: two
    calls 5 ms apart, the timer of the second one runs, a third call. *)
Definition record_args (a : nat) (s : list nat) : list nat := s ++ [a].

Definition sampleRun : list (EventLoop.input nat (list nat)) :=
  [ EventLoop.Call 1%nat; EventLoop.Tick 5; EventLoop.Call 2%nat; EventLoop.Tick 16;
    EventLoop.Fire 0; EventLoop.Tick 3; EventLoop.Call 3%nat ].

(** ** What [setupAccessibility] keeps

    The heading id of line 365, [heading.id || `section-heading-${index}`]. *)
Definition headingId (index : nat) (h : path) (d : list node) : string :=
  let hid := default "" (elem_id <$> get_elem h d) in
  if truthy (VStr hid) then hid else "section-heading-" +:+ pretty index.

(** The test of line 362. *)
Definition unlabelled (sec : path) (d : list node) : bool :=
  negb (truthy (of_attr (attr_at "aria-labelledby" sec d)))
  && negb (truthy (of_attr (attr_at "aria-label" sec d))).

(** An attribute is kept, or goes from missing or empty to a non-empty
    value. *)
Definition attr_kept (o o' : option string) : Prop :=
  o' = o \/ (truthy (of_attr o) = false /\ truthy (of_attr o') = true).

Definition elem_kept (e e' : elem) : Prop :=
  tag e' = tag e /\ classes e' = classes e
  /\ rect_top e' = rect_top e /\ rect_bottom e' = rect_bottom e
  /\ forall a,
       attr_kept (getAttribute a e) (getAttribute a e')
       /\ (a ∉ ["role"; "id"; "aria-labelledby"] ->
           getAttribute a e' = getAttribute a e).

Definition kept (d d' : list node) : Prop :=
  forest_paths d' = forest_paths d
  /\ forall q, option_Forall2 elem_kept (get_elem q d) (get_elem q d').

(** The section [s] refers to the heading [h] by a non-empty id. *)
Definition labelled_by (s h : path) (d : list node) : Prop :=
  exists v, v <> "" /\ attr_at "aria-labelledby" s d = Some v /\ attr_at "id" h d = Some v.

(** [m] changes nothing but the document, and that within [kept]. *)
Definition keeps {A} (m : M A) (w : World) : Prop :=
  kept (doc w) (doc (exec m w)) /\ set_doc (fun _ => doc w) (exec m w) = w.

(** What the marking of the navigation bar and of its links keeps: the
    elements, their tags, and every attribute but aria-current and
    aria-label. *)
Definition decorated (d d' : list node) : Prop :=
  forest_paths d' = forest_paths d
  /\ forall q,
       option_Forall2
         (fun e e' =>
            tag e' = tag e
            /\ forall a, a <> "aria-current" -> a <> "aria-label" ->
                 getAttribute a e' = getAttribute a e)
         (get_elem q d) (get_elem q d').

(** What the page has scrolled, pushed, focused and scheduled, and where
    it is. *)
Definition navigation_state (w : World)
    : list (path * gmap string string) * list string * option path
      * (string * string * string) * list (task * nat) :=
  (scrolledIntoView w, pushed w, focused w, (pathname w, search w, hash w), timeouts w).

(** * Properties *)

(** ** Reading and writing through handles *)

Section Handles.
Implicit Types (p q : path) (n : node) (ns : list node) (f : elem -> elem).

Lemma node_data_on_data f n : node_data (on_data f n) = f <$> node_data n.
Proof. by destruct n. Qed.

Lemma children_of_on_data f n : children_of (on_data f n) = children_of n.
Proof. by destruct n. Qed.

Lemma node_get_alter f p : forall q n,
  node_get q (node_alter (on_data f) p n) ≫= node_data
  = if decide (q = p) then f <$> (node_get q n ≫= node_data)
    else node_get q n ≫= node_data.
Proof.
  induction p as [|i p IH]; intros [|j q] n; simpl.
  - apply node_data_on_data.
  - by rewrite children_of_on_data.
  - by destruct n.
  - destruct n as [s|d ch]; simpl.
    { by case_decide. }
    destruct (decide (j = i)) as [->|Hne].
    + rewrite list_lookup_alter_eq. destruct (ch !! i) as [c|] eqn:Hc; simpl.
      * rewrite IH. repeat case_decide; congruence.
      * by case_decide.
    + rewrite list_lookup_alter_ne by done. case_decide; [congruence|done].
Qed.

(** A write through [p] is seen at [p] and nowhere else. *)
Lemma get_elem_set_elem f p q ns :
  get_elem q (set_elem f p ns)
  = if decide (q = p) then f <$> get_elem q ns else get_elem q ns.
Proof.
  unfold get_elem, set_elem. destruct p as [|i p], q as [|j q]; simpl; try done.
  destruct (decide (j = i)) as [->|Hne].
  - rewrite list_lookup_alter_eq. destruct (ns !! i) as [c|]; simpl.
    + rewrite node_get_alter. repeat case_decide; congruence.
    + by case_decide.
  - rewrite list_lookup_alter_ne by done. case_decide; [congruence|done].
Qed.

Lemma node_paths_Elem d ch : node_paths (Elem d ch) = [] :: forest_paths_from 0 ch.
Proof. reflexivity. Qed.

Lemma forest_paths_from_alter (g : node -> node) :
  (forall n, node_paths (g n) = node_paths n) ->
  forall ns i k, forest_paths_from k (alter g i ns) = forest_paths_from k ns.
Proof.
  intros Hg. induction ns as [|c ns IH]; intros i k; [done|].
  destruct i; simpl.
  - by rewrite Hg.
  - f_equal. apply IH.
Qed.

Lemma node_paths_alter f p : forall n,
  node_paths (node_alter (on_data f) p n) = node_paths n.
Proof.
  induction p as [|i p IH]; intros [s|d ch]; try done.
  cbn [node_alter on_children]. rewrite !node_paths_Elem.
  f_equal. by apply forest_paths_from_alter.
Qed.

(** A write through a handle keeps the shape of the document. *)
Lemma forest_paths_set_elem f p ns :
  forest_paths (set_elem f p ns) = forest_paths ns.
Proof.
  unfold forest_paths, set_elem. destruct p as [|i p]; [done|].
  apply forest_paths_from_alter, node_paths_alter.
Qed.

Lemma forest_paths_from_complete q c : forall ns i k,
  ns !! i = Some c -> q ∈ node_paths c ->
  (k + i)%nat :: q ∈ forest_paths_from k ns.
Proof.
  induction ns as [|c' ns IH]; intros i k Hc Hq; [done|].
  destruct i; simpl in *.
  - injection Hc as ->. apply elem_of_app. left.
    replace (k + 0)%nat with k by lia. by apply list_elem_of_fmap_2.
  - apply elem_of_app. right.
    replace (k + S i)%nat with (S k + i)%nat by lia. by apply IH.
Qed.

Lemma node_paths_complete p : forall n d ch,
  node_get p n = Some (Elem d ch) -> p ∈ node_paths n.
Proof.
  induction p as [|i p IH]; intros n d ch; simpl.
  - intros [= ->]. simpl. left.
  - destruct n as [s|d' ch']; simpl; [done|].
    intros H. right.
    destruct (ch' !! i) as [c|] eqn:Hc; simpl in H; [|done].
    apply IH in H.
    apply (forest_paths_from_complete p c ch' i 0 Hc H).
Qed.

(** Every element of the document is enumerated. *)
Lemma forest_paths_complete p ns e :
  get_elem p ns = Some e -> p ∈ forest_paths ns.
Proof.
  unfold get_elem, forest_paths. destruct p as [|i p]; simpl; [done|].
  destruct (ns !! i) as [c|] eqn:Hc; simpl; [|done].
  destruct (node_get p c) as [[s|d ch]|] eqn:Hn; simpl; try done.
  intros _. apply node_paths_complete in Hn.
  apply (forest_paths_from_complete p c ns i 0 Hc Hn).
Qed.

End Handles.

(** ** Active-section detection *)

Lemma scanSections_first w : forall ids pre s post,
  ids = pre ++ s :: post ->
  Forall (fun x => sectionVisible x w = false) pre ->
  sectionVisible s w = true ->
  scanSections ids w = (pre ++ [s], s).
Proof.
  intros ids pre. revert ids.
  induction pre as [|x pre IH]; intros ids s post -> Hpre Hs; simpl.
  - unfold sectionVisible in Hs. by rewrite Hs.
  - inversion Hpre as [|? ? Hx Hpre']; subst.
    unfold sectionVisible in Hx. rewrite Hx.
    by rewrite (IH _ s post eq_refl Hpre' Hs).
Qed.

Lemma scanSections_none w : forall ids,
  Forall (fun x => sectionVisible x w = false) ids ->
  scanSections ids w = (ids, "").
Proof.
  induction ids as [|x ids IH]; intros Hids; simpl; [done|].
  inversion Hids as [|? ? Hx Hids']; subst.
  unfold sectionVisible in Hx. rewrite Hx. by rewrite (IH Hids').
Qed.

Lemma updateActiveNavLink_doc w :
  doc (exec updateActiveNavLink w)
  = foldl (fun d link => set_elem (markLink (activeSection w)) link d)
      (doc w) (querySelectorAll navLinkSelector (doc w)).
Proof. reflexivity. Qed.

(** ** The visibility test *)

Lemma isElementVisible_band w p e t :
  get_elem p (doc w) = Some e ->
  isElementVisible (Some p) t w = true
  <-> ((rect_top e <=? windowHeight w * (1 - t))%float = true
       /\ (windowHeight w * t <=? rect_bottom e)%float = true).
Proof.
  intros He. unfold isElementVisible. rewrite He. apply andb_true_iff.
Qed.

(** ** Marking the navigation links *)

Lemma filter_idem {T} (P : T -> Prop) `{forall x, Decision (P x)} (l : list T) :
  filter P (filter P l) = filter P l.
Proof.
  induction l as [|x l IH]; [done|].
  rewrite (filter_cons P x l). destruct (decide (P x)) as [Hx|Hx]; [|done].
  rewrite (filter_cons P x (filter P l)). destruct (decide (P x)); [|done].
  by rewrite IH.
Qed.

Lemma href_markLink a e : getAttribute "href" (markLink a e) = getAttribute "href" e.
Proof. unfold markLink, getAttribute. simpl. by rewrite lookup_insert_ne. Qed.

Lemma markLink_idem a e : markLink a (markLink a e) = markLink a e.
Proof.
  unfold markLink at 1. rewrite href_markLink.
  unfold markLink, setAttribute, classList_toggle, getAttribute. simpl.
  rewrite insert_insert_eq. f_equal.
  destruct (bool_decide (attrs e !! "href" = Some ("#" +:+ a))).
  - destruct (bool_decide ("active" ∈ classes e)) eqn:Hin; [by rewrite Hin|].
    rewrite bool_decide_eq_true_2; [done|]. apply elem_of_app. right. left.
  - apply filter_idem.
Qed.

Lemma markLink_active a e :
  getAttribute "href" e = Some ("#" +:+ a) ->
  ("active" ∈ classes (markLink a e))
  /\ getAttribute "aria-current" (markLink a e) = Some "page".
Proof.
  intros Hh. unfold markLink, setAttribute, classList_toggle, getAttribute in *. simpl.
  rewrite bool_decide_eq_true_2 by done. rewrite lookup_insert_eq. split; [|done].
  destruct (bool_decide ("active" ∈ classes e)) eqn:Hin.
  - by apply bool_decide_eq_true in Hin.
  - apply elem_of_app. right. left.
Qed.

Lemma markLink_inactive a e :
  getAttribute "href" e ≠ Some ("#" +:+ a) ->
  ("active" ∉ classes (markLink a e))
  /\ getAttribute "aria-current" (markLink a e) = Some "false".
Proof.
  intros Hh. unfold markLink, setAttribute, classList_toggle, getAttribute in *. simpl.
  rewrite bool_decide_eq_false_2 by done. rewrite lookup_insert_eq. split; [|done].
  rewrite list_elem_of_filter. intros [Hne _]. by apply Hne.
Qed.

(** Marking changes neither the tag nor the class [smooth-scroll]. *)
Lemma matches_simple_markLink a s e :
  s = SelTag "nav" \/ s = SelTagClass "a" "smooth-scroll" ->
  matches_simple s (markLink a e) = matches_simple s e.
Proof.
  intros [->| ->]; simpl; [done|]. f_equal.
  unfold has_class, markLink, setAttribute, classList_toggle. simpl.
  apply bool_decide_ext.
  destruct (bool_decide (getAttribute "href" e = Some ("#" +:+ a))).
  - destruct (bool_decide ("active" ∈ classes e)); [done|].
    rewrite elem_of_app, list_elem_of_singleton. split; [|tauto].
    intros [?|?]; [done|discriminate].
  - rewrite list_elem_of_filter. split; [tauto|]. intros ?; split; [discriminate|done].
Qed.

Section ForEach.
Variable f : elem -> elem.
Hypothesis f_idem : forall e, f (f e) = f e.

(** A [forEach] that writes [f] through every handle of [ps]. *)
Lemma get_elem_forEach ps : forall ns q,
  get_elem q (foldl (fun d p => set_elem f p d) ns ps)
  = if decide (q ∈ ps) then f <$> get_elem q ns else get_elem q ns.
Proof.
  induction ps as [|p ps IH]; intros ns q; simpl.
  - done.
  - rewrite IH, get_elem_set_elem.
    destruct (decide (q = p)) as [->|Hne].
    + rewrite (decide_True (P := p ∈ p :: ps)) by left.
      case_decide; [|done]. destruct (get_elem p ns); simpl; [|done].
      by rewrite f_idem.
    + destruct (decide (q ∈ ps)) as [Hin|Hnin].
      * by rewrite decide_True by (by right).
      * rewrite decide_False; [done|]. rewrite elem_of_cons. tauto.
Qed.

Lemma forest_paths_forEach ps : forall ns,
  forest_paths (foldl (fun d p => set_elem f p d) ns ps) = forest_paths ns.
Proof.
  induction ps as [|p ps IH]; intros ns; simpl; [done|].
  by rewrite IH, forest_paths_set_elem.
Qed.

End ForEach.

Lemma matches_at_marked a s ps ns q :
  s = SelTag "nav" \/ s = SelTagClass "a" "smooth-scroll" ->
  matches_at s (foldl (fun d p => set_elem (markLink a) p d) ns ps) q
  = matches_at s ns q.
Proof.
  intros Hs. unfold matches_at.
  rewrite (get_elem_forEach _ (markLink_idem a)).
  case_decide; [|done]. destruct (get_elem q ns); simpl; [|done].
  by apply matches_simple_markLink.
Qed.

(** The links found after the marking are the links that were marked. *)
Lemma navLinks_marked a ps ns :
  querySelectorAll navLinkSelector (foldl (fun d p => set_elem (markLink a) p d) ns ps)
  = querySelectorAll navLinkSelector ns.
Proof.
  unfold querySelectorAll. rewrite forest_paths_forEach.
  apply list_filter_iff. intros q. simpl.
  rewrite (matches_at_marked a _ ps ns q) by (by right).
  replace (existsb (matches_at (SelTag "nav")
             (foldl (fun d p => set_elem (markLink a) p d) ns ps)) (ancestors q))
    with (existsb (matches_at (SelTag "nav") ns) (ancestors q)); [done|].
  induction (ancestors q) as [|x l IH]; simpl; [done|].
  rewrite IH. f_equal. symmetry. apply matches_at_marked. by left.
Qed.

(** After [updateActiveNavLink], a navigation link carries the marks of
    [markLink] for the active section. *)
Lemma updateActiveNavLink_link w p e :
  p ∈ querySelectorAll navLinkSelector (doc (exec updateActiveNavLink w)) ->
  get_elem p (doc (exec updateActiveNavLink w)) = Some e ->
  exists e0, get_elem p (doc w) = Some e0 /\ e = markLink (activeSection w) e0.
Proof.
  rewrite updateActiveNavLink_doc, navLinks_marked.
  rewrite (get_elem_forEach _ (markLink_idem _)).
  intros Hp. rewrite decide_True by done.
  destruct (get_elem p (doc w)) as [e0|]; simpl; [|done].
  intros [= <-]. by exists e0.
Qed.

(** ** URLs *)

Lemma append_cons a (x y : string) : String a x +:+ y = String a (x +:+ y).
Proof. reflexivity. Qed.

Lemma append_nil (y : string) : "" +:+ y = y.
Proof. reflexivity. Qed.

Lemma append_assoc (x y z : string) : (x +:+ y) +:+ z = x +:+ (y +:+ z).
Proof.
  induction x as [|a x IH]; [done|]. by rewrite !append_cons, IH.
Qed.

Lemma append_empty_r (x : string) : x +:+ "" = x.
Proof.
  induction x as [|a x IH]; [done|]. by rewrite append_cons, IH.
Qed.

Lemma has_char_app c x y : has_char c (x +:+ y) = has_char c x || has_char c y.
Proof.
  induction x as [|a x IH]; [done|].
  rewrite append_cons. simpl. by rewrite IH, orb_assoc.
Qed.

Lemma break_at_absent c s : has_char c s = false -> break_at c s = (s, "").
Proof.
  induction s as [|a s IH]; simpl; [done|].
  intros [Ha Hs]%orb_false_iff. rewrite Ha. by rewrite (IH Hs).
Qed.

Lemma break_at_first c x y :
  has_char c x = false -> break_at c (x +:+ String c y) = (x, String c y).
Proof.
  induction x as [|a x IH].
  - intros _. rewrite append_nil. simpl. by rewrite bool_decide_eq_true_2.
  - rewrite append_cons. simpl.
    intros [Ha Hx]%orb_false_iff. rewrite Ha. by rewrite (IH Hx).
Qed.

Lemma url_components_hash p q t :
  has_char "#" p = false -> has_char "?" p = false -> has_char "#" q = false ->
  q = "" \/ (startsWith "?" q = true /\ q <> "?") ->
  url_components (p +:+ q +:+ "#" +:+ t)
  = (p, q, if bool_decide (t = "") then "" else "#" +:+ t).
Proof.
  intros Hp1 Hp2 Hs Hq. unfold url_components.
  change ("#" +:+ t) with (String "#" t).
  rewrite <- append_assoc, break_at_first by (by rewrite has_char_app, Hp1, Hs).
  assert (Ht : (if bool_decide (String "#" t = "#") then "" else String "#" t)
               = if bool_decide (t = "") then "" else String "#" t).
  { destruct t; [done|]. by rewrite !bool_decide_eq_false_2. }
  rewrite Ht. destruct Hq as [->|[Hq1 Hq2]].
  - rewrite append_empty_r. by rewrite break_at_absent.
  - destruct q as [|a q]; [done|]. simpl in Hq1.
    apply bool_decide_eq_true in Hq1 as ->.
    rewrite break_at_first by done. by rewrite bool_decide_eq_false_2.
Qed.

Lemma all_chars_app f x y : all_chars f (x +:+ y) = all_chars f x && all_chars f y.
Proof.
  induction x as [|a x IH]; [done|]. rewrite append_cons. simpl.
  by rewrite IH, andb_assoc.
Qed.

Lemma drop_trailing_after x a y :
  is_c0_or_space a = false ->
  drop_trailing (x +:+ String a y) = x +:+ String a (drop_trailing y).
Proof.
  intros Ha. induction x as [|b x IH].
  - rewrite !append_nil. simpl. rewrite Ha. by destruct (drop_trailing y).
  - rewrite !append_cons. simpl. rewrite IH.
    by destruct x; rewrite ?append_nil, ?append_cons.
Qed.

Lemma remove_tab_newline_app x y :
  remove_tab_newline (x +:+ y) = remove_tab_newline x +:+ remove_tab_newline y.
Proof.
  induction x as [|a x IH]; [done|]. rewrite append_cons. simpl.
  destruct (is_tab_or_newline a); by rewrite IH.
Qed.

Lemma is_url_char_plain a :
  is_url_char a = true -> is_tab_or_newline a = false /\ is_c0_or_space a = false.
Proof.
  unfold is_url_char, is_tab_or_newline, is_c0_or_space.
  rewrite !andb_true_iff, !Nat.leb_le. intros [[H1 H2] _]. split.
  - apply bool_decide_eq_false. intros H.
    repeat (apply elem_of_cons in H as [H|H]; [lia|]). by apply elem_of_nil in H.
  - apply Nat.leb_gt. lia.
Qed.

Lemma remove_tab_newline_id x :
  all_chars is_url_char x = true -> remove_tab_newline x = x.
Proof.
  induction x as [|a x IH]; [done|]. simpl. intros [Ha Hx]%andb_true_iff.
  destruct (is_url_char_plain a Ha) as [-> _]. by rewrite IH.
Qed.

Lemma has_char_remove c x :
  has_char c (remove_tab_newline x) = true -> has_char c x = true.
Proof.
  induction x as [|a x IH]; [done|]. simpl.
  destruct (is_tab_or_newline a); simpl; rewrite ?orb_true_iff; intuition.
Qed.

(** The URL of line 68 from a well-formed location. *)
Lemma parse_url_hash w t :
  well_formed_location w = true ->
  parse_url (pathname w +:+ search w +:+ "#" +:+ t)
  = (pathname w, search w, hash_of_fragment (remove_tab_newline (drop_trailing t))).
Proof.
  unfold well_formed_location.
  rewrite !andb_true_iff, !negb_true_iff, orb_true_iff, andb_true_iff, negb_true_iff.
  intros [[[[[[[[[Hp1 Hp2] Hs] Hq] Hsl] _] Hpc] Hsc] _] _]. unfold parse_url.
  assert (Hlead : drop_leading (pathname w +:+ search w +:+ "#" +:+ t)
                  = pathname w +:+ search w +:+ "#" +:+ t).
  { destruct (pathname w) as [|a x]; [done|]. simpl in Hsl.
    apply bool_decide_eq_true in Hsl as ->. by rewrite append_cons. }
  rewrite Hlead. change ("#" +:+ t) with (String "#" t).
  rewrite <- append_assoc, drop_trailing_after by done.
  rewrite remove_tab_newline_app, remove_tab_newline_id
    by (by rewrite all_chars_app, Hpc, Hsc).
  change (remove_tab_newline (String "#" (drop_trailing t)))
    with ("#" +:+ remove_tab_newline (drop_trailing t)).
  rewrite append_assoc, url_components_hash; try done.
  - cbn [fst snd]. destruct (remove_tab_newline (drop_trailing t)) as [|a r]; [done|].
    by rewrite bool_decide_eq_false_2.
  - destruct Hq as [He|[Hq1 Hq2]]; [left; by apply bool_decide_eq_true in He|].
    right. split; [done|]. intros He. by rewrite He in Hq2.
Qed.

Lemma fragment_safe_plain t :
  fragment_safe t = true ->
  drop_trailing t = t /\ remove_tab_newline t = t /\ encode_fragment t = t.
Proof.
  unfold fragment_safe. induction t as [|a t IH]; [done|]. simpl.
  rewrite andb_true_iff, negb_true_iff. intros [Ha Ht].
  destruct (IH Ht) as (-> & -> & ->). rewrite Ha.
  unfold in_fragment_encode_set in Ha.
  apply orb_false_iff in Ha as [[Ha1 Ha2]%orb_false_iff Ha3].
  unfold is_c0_or_space, is_tab_or_newline. rewrite Ha1.
  assert (Htab : bool_decide (nat_of_ascii a ∈ [9; 10; 13]%nat) = false).
  { apply bool_decide_eq_false. intros H. apply Nat.leb_gt in Ha1.
    repeat (apply elem_of_cons in H as [H|H]; [lia|]). by apply elem_of_nil in H. }
  rewrite Htab. split; [by destruct t|]. split; [done|]. by rewrite append_cons, append_nil.
Qed.

Lemma hash_of_fragment_safe t :
  fragment_safe t = true -> t <> "" ->
  hash_of_fragment (remove_tab_newline (drop_trailing t)) = "#" +:+ t.
Proof.
  intros Hs Ht. destruct (fragment_safe_plain t Hs) as (-> & -> & He).
  unfold hash_of_fragment. by rewrite bool_decide_eq_false_2, He.
Qed.

Lemma word_fragment_safe t :
  all_chars is_word_or_hyphen t = true -> fragment_safe t = true.
Proof.
  unfold fragment_safe. induction t as [|a t IH]; [done|]. simpl.
  intros [Ha Ht]%andb_true_iff. rewrite (IH Ht), andb_true_r.
  clear IH Ht. revert Ha. destruct a as [[] [] [] [] [] [] [] []]; vm_compute; congruence.
Qed.

(** ** Looking elements up *)

Lemma getElementById_empty ns : getElementById "" ns = None.
Proof.
  unfold getElementById, querySelector, querySelectorAll.
  induction (forest_paths ns) as [|p l IH]; [done|].
  rewrite filter_cons. rewrite decide_False; [done|].
  simpl. unfold matches_at. by destruct (get_elem p ns).
Qed.

Lemma getElementById_Some_nonempty i ns p : getElementById i ns = Some p -> i <> "".
Proof. intros H ->. by rewrite getElementById_empty in H. Qed.

(** ** [scrollToElement] *)

Lemma scrollToElement_missing targetId options w :
  getElementById targetId (doc w) = None ->
  scrollToElement targetId options w
  = (false,
     set_console (fun c => c ++
       [(Warn, [VStr ("[Airbus Site] Element with ID '" +:+ targetId +:+ "' not found")])]) w).
Proof. intros H. unfold scrollToElement, bind, gets. by rewrite H. Qed.

Lemma scrollToElement_found targetId options w el :
  getElementById targetId (doc w) = Some el ->
  scrollToElement targetId options w
  = (true,
     (if bool_decide (el ∈ focusable w) then set_focused (Some el) else id)
       ((if has_pushState w
         then exec (pushState (pathname w +:+ search w +:+ "#" +:+ targetId))
         else id)
          (set_scrolledIntoView (fun c => c ++ [(el, options ∪ defaultOptions)]) w))).
Proof.
  intros H. unfold scrollToElement, bind, gets. rewrite H. simpl.
  destruct (has_pushState w); simpl; by destruct (bool_decide (el ∈ focusable w)).
Qed.

(** ** The regular expression of [validateHref] *)

Lemma test_Void s : test_anchored Void s = false.
Proof. induction s as [|c s IH]; [done|apply IH]. Qed.

Lemma test_Alt s : forall r1 r2,
  test_anchored (Alt r1 r2) s = test_anchored r1 s || test_anchored r2 s.
Proof. induction s as [|c s IH]; intros r1 r2; simpl; [done|apply IH]. Qed.

Lemma test_Seq_Void r s : test_anchored (Seq Void r) s = false.
Proof. induction s as [|c s IH]; [done|apply IH]. Qed.

Lemma test_Seq_Eps r s : test_anchored (Seq Eps r) s = test_anchored r s.
Proof.
  destruct s as [|c s]; simpl; [done|]. by rewrite test_Alt, test_Seq_Void.
Qed.

Lemma test_Seq_guard (b : bool) r s :
  test_anchored (Seq (if b then Eps else Void) r) s = b && test_anchored r s.
Proof. destruct b; [apply test_Seq_Eps|apply test_Seq_Void]. Qed.

Lemma test_Star_Class p s :
  test_anchored (Star (Class p)) s = all_chars p s.
Proof.
  induction s as [|c s IH]; simpl; [done|]. by rewrite test_Seq_guard, IH.
Qed.

Lemma test_href_regex s :
  test_anchored href_regex s
  = match s with
    | String a (String c rest) =>
        bool_decide (a = "#"%char) && (is_letter c && all_chars is_word_or_hyphen rest)
    | _ => false
    end.
Proof.
  destruct s as [|a [|c rest]]; simpl; [done| |].
  - by destruct (bool_decide (a = "#"%char)).
  - destruct (bool_decide (a = "#"%char)); simpl.
    + by rewrite test_Alt, test_Seq_Void, test_Seq_guard, test_Star_Class.
    + apply test_Seq_Void.
Qed.

Lemma validateHref_nonempty a s :
  validateHref (Some (String a s))
  = if negb (bool_decide (a = "#"%char)) then VBool false
    else if negb (1 <? String.length (String a s))%nat then VBool false
    else VBool (test_anchored href_regex (String a s)).
Proof. reflexivity. Qed.

Lemma validateHref_true href :
  validateHref href = VBool true
  <-> exists c rest, href = Some (String "#" (String c rest))
        /\ is_letter c = true /\ all_chars is_word_or_hyphen rest = true.
Proof.
  split.
  - destruct href as [[|a s]|]; [done| |done].
    rewrite validateHref_nonempty, test_href_regex.
    destruct (negb (bool_decide (a = "#"%char))) eqn:Ha; [done|].
    destruct (negb (1 <? String.length (String a s))%nat); [done|].
    destruct s as [|c rest]; [done|]. intros [= H].
    apply andb_true_iff in H as [_ [Hc Hr]%andb_true_iff].
    apply negb_false_iff, bool_decide_eq_true in Ha as ->. by exists c, rest.
  - intros (c & rest & -> & Hc & Hr).
    rewrite validateHref_nonempty, test_href_regex, Hc, Hr. done.
Qed.

(** The test of line 178 succeeds only on the value [true]. *)
Lemma validateHref_truthy href :
  truthy (validateHref href) = true <-> validateHref href = VBool true.
Proof.
  destruct href as [[|a s]|]; [done| |done].
  rewrite validateHref_nonempty.
  destruct (negb (bool_decide (a = "#"%char))); [done|].
  destruct (negb (1 <? String.length (String a s))%nat); [done|].
  destruct (test_anchored _ _); simpl; split; congruence.
Qed.

(** ** Clicks *)

Lemma handleDocumentClick_invalid w tgt link :
  closest (SelId "goToReport") tgt (doc w) = None ->
  closest (SelTagClass "a" "smooth-scroll") tgt (doc w) = Some link ->
  truthy (validateHref (get_elem link (doc w) ≫= getAttribute "href")) = false ->
  handleDocumentClick tgt w
  = (true,
     set_console (fun c => c ++
       [(Warn, [VStr "[Airbus Site] Invalid href format for smooth scroll:";
                of_attr (get_elem link (doc w) ≫= getAttribute "href")])]) w).
Proof.
  intros Hb Hl Hv. unfold handleDocumentClick, bind, gets.
  rewrite Hb, Hl. simpl. by rewrite Hv.
Qed.

(** ** What a command leaves alone *)

Section Frames.
Context {T : Type} (proj : World -> list T).

Lemma appends_ret {A} (a : A) : appends proj [] (ret a).
Proof. intros w. simpl. by rewrite app_nil_r. Qed.

Lemma appends_gets {A} (f : World -> A) : appends proj [] (gets f).
Proof. intros w. simpl. by rewrite app_nil_r. Qed.

Lemma appends_modify_keep (g : World -> World) :
  (forall w, proj (g w) = proj w) -> appends proj [] (modify g).
Proof. intros Hg w. simpl. by rewrite Hg, app_nil_r. Qed.

Lemma appends_modify_emit (g : World -> World) x :
  (forall w, proj (g w) = proj w ++ [x]) -> appends proj [x] (modify g).
Proof. intros Hg w. simpl. by rewrite Hg. Qed.

Lemma appends_bind {A B} (m : M A) (k : A -> M B) l1 l2 :
  appends proj l1 m -> (forall a, appends proj l2 (k a)) ->
  appends proj (l1 ++ l2) (bind m k).
Proof.
  intros Hm Hk w. unfold bind. specialize (Hm w).
  destruct (m w) as [a w']. simpl in Hm. by rewrite Hk, Hm, app_assoc.
Qed.

Lemma appends_bind_keep {A B} (m : M A) (k : A -> M B) l :
  appends proj [] m -> (forall a, appends proj l (k a)) ->
  appends proj l (bind m k).
Proof. intros Hm Hk. by apply (appends_bind m k [] l). Qed.

Lemma appends_bind_emit {A B} (m : M A) (k : A -> M B) x l :
  appends proj [x] m -> (forall a, appends proj l (k a)) ->
  appends proj (x :: l) (bind m k).
Proof. intros Hm Hk. by apply (appends_bind m k [x] l). Qed.

Lemma appends_forEach (f : nat -> path -> M unit) :
  (forall i x, appends proj [] (f i x)) ->
  forall l i, appends proj [] (forEach_indexed f i l).
Proof.
  intros Hf. induction l as [|x l IH]; intros i; simpl.
  - apply appends_ret.
  - apply appends_bind_keep; [apply Hf|]. intros _. apply IH.
Qed.

End Frames.

Ltac head_of t :=
  lazymatch t with
  | ?f _ => head_of f
  | _ => t
  end.

Ltac frame :=
  lazymatch goal with
  | |- appends _ _ (bind _ _) =>
      first [ apply appends_bind_keep; [solve [frame] | intros ?; frame]
            | apply appends_bind_emit; [solve [frame] | intros ?; frame] ]
  | |- appends _ _ (ret _) => apply appends_ret
  | |- appends _ _ (gets _) => apply appends_gets
  | |- appends _ _ (modify _) =>
      first [ apply appends_modify_keep; intros ?; reflexivity
            | apply appends_modify_emit; intros ?; reflexivity ]
  | |- appends _ _ (when ?b _) => destruct b; unfold when; frame
  | |- appends _ _ (forEach_indexed _ _ _) =>
      apply appends_forEach; intros ? ?; frame
  | |- appends _ _ (match ?x with _ => _ end) => destruct x; frame
  | |- appends _ _ ?m => let h := head_of m in unfold h; frame
  end.

Lemma setup_listeners :
  appends listeners
    [ (Window, "scroll", Throttled HandleNavbarScroll 16);
      (Window, "scroll", Throttled UpdateActiveNavLink 100);
      (Window, "resize", Debounced HandleWindowResize 250);
      (Document, "click", Direct HandleDocumentClick);
      (Document, "keydown", Direct HandleKeyboardNavigation);
      (Window, "beforeunload", Direct ResetScrollPosition);
      (Window, "popstate", Direct OnPopstate) ]
    initializeSite_setup.
Proof. frame. Qed.

Lemma setup_console :
  appends console [(Log, [VStr "[Airbus Site] Initialization complete"])]
    initializeSite_setup.
Proof. frame. Qed.

Lemma validate_listeners : appends listeners [] validateCriticalElements.
Proof. frame. Qed.

(** ** What a command does not look at *)

Lemma blind_ret {A} (a : A) : console_blind (ret a).
Proof. by intros w1 w2 H. Qed.

Lemma blind_gets {A} (f : World -> A) :
  (forall w, f w = f (erase_console w)) -> console_blind (gets f).
Proof.
  intros Hf w1 w2 H. simpl. split; [|done]. by rewrite (Hf w1), (Hf w2), H.
Qed.

Lemma blind_modify (g : World -> World) :
  (forall w, erase_console (g w) = erase_console (g (erase_console w))) ->
  console_blind (modify g).
Proof.
  intros Hg w1 w2 H. simpl. split; [done|]. by rewrite (Hg w1), (Hg w2), H.
Qed.

Lemma blind_bind {A B} (m : M A) (k : A -> M B) :
  console_blind m -> (forall a, console_blind (k a)) -> console_blind (bind m k).
Proof.
  intros Hm Hk w1 w2 H. unfold bind. specialize (Hm w1 w2 H).
  destruct (m w1) as [a1 w1'], (m w2) as [a2 w2']. simpl in Hm.
  destruct Hm as [-> Hw]. by apply Hk.
Qed.

Lemma blind_forEach (f : nat -> path -> M unit) :
  (forall i x, console_blind (f i x)) ->
  forall l i, console_blind (forEach_indexed f i l).
Proof.
  intros Hf. induction l as [|x l IH]; intros i; simpl.
  - apply blind_ret.
  - apply blind_bind; [apply Hf|]. intros _. apply IH.
Qed.

Ltac blind :=
  lazymatch goal with
  | |- console_blind (bind _ _) => apply blind_bind; [blind | intros ?; blind]
  | |- console_blind (ret _) => apply blind_ret
  | |- console_blind (gets _) => apply blind_gets; intros ?; reflexivity
  | |- console_blind (modify _) => apply blind_modify; intros ?; reflexivity
  | |- console_blind (when ?b _) => destruct b; unfold when; blind
  | |- console_blind (forEach_indexed _ _ _) =>
      apply blind_forEach; intros ? ?; blind
  | |- console_blind (match ?x with _ => _ end) => destruct x; blind
  | |- console_blind ?m => let h := head_of m in unfold h; blind
  end.

Lemma setup_blind : console_blind initializeSite_setup.
Proof. blind. Qed.

Lemma validate_blind : console_blind validateCriticalElements.
Proof. blind. Qed.

(** ** [validateCriticalElements] *)

Lemma length_filter_zero {T} (P : T -> Prop) `{forall x, Decision (P x)} (l : list T) :
  length (filter P l) = 0%nat <-> Forall (fun x => ~ P x) l.
Proof.
  induction l as [|x l IH]; simpl.
  - split; [constructor|done].
  - rewrite filter_cons. destruct (decide (P x)) as [Hx|Hx]; simpl.
    + split; [done|]. intros HF. inversion HF; subst. contradiction.
    + rewrite IH. split; [by constructor|]. intros HF. by inversion HF.
Qed.

Lemma validateCriticalElements_result w :
  fst (validateCriticalElements w) = true
  <-> present (Simple (SelId "homepage")) w
      /\ present (Simple (SelId "performance")) w
      /\ present (Simple (SelId "report")) w
      /\ present (Simple (SelTag "nav")) w.
Proof.
  unfold validateCriticalElements, bind, gets. simpl.
  set (missing := filter _ criticalElements).
  destruct (0 <? length missing)%nat; simpl;
    rewrite Nat.eqb_eq; subst missing; rewrite length_filter_zero;
    unfold criticalElements, present; rewrite !Forall_cons, Forall_nil; simpl;
    rewrite <- !not_eq_None_Some; tauto.
Qed.

Lemma validateCriticalElements_effect w :
  exec validateCriticalElements w
  = if fst (validateCriticalElements w) then w
    else set_console (fun c => c ++
           [(Warn, [VStr "[Airbus Site] Missing critical elements:";
                    VStr (String.concat ", "
                      (map snd (filter (fun c => querySelector (fst c) (doc w) = None)
                                  criticalElements)))])]) w.
Proof.
  unfold exec, validateCriticalElements, bind, gets. simpl.
  destruct (filter _ criticalElements) as [|m ms]; simpl; [|done].
  by destruct w.
Qed.

(** ** [initializeSite] *)

(** The world in which the setup part of [initializeSite] starts: the
    one [initializeSite] was called in, with more on the console. *)
Lemma initializeSite_unfold w :
  exec initializeSite w
  = exec initializeSite_setup
      (set_console (fun c => c ++ (Log, [VStr "[Airbus Site] Initializing..."])
                                :: validationMessages w) w).
Proof.
  unfold initializeSite, exec at 1, bind at 1. simpl.
  set (w1 := set_console _ w).
  assert (Hfst : fst (validateCriticalElements w1) = fst (validateCriticalElements w)).
  { by apply validate_blind. }
  pose proof (validateCriticalElements_effect w1) as Heff. unfold exec in Heff.
  unfold bind at 1. destruct (validateCriticalElements w1) as [ok w2]. simpl in *.
  subst w2. unfold validationMessages. rewrite <- Hfst.
  destruct ok; [reflexivity|].
  transitivity (exec initializeSite_setup
    (set_console (fun c => c ++
       [(Error, [VStr "[Airbus Site] Critical elements missing, some features may not work"])])
       (set_console (fun c => c ++
          [(Warn, [VStr "[Airbus Site] Missing critical elements:"; VStr (missingNames w)])])
          w1))); [reflexivity|].
  f_equal. unfold w1, set_console. simpl. f_equal. by rewrite <- !app_assoc.
Qed.

Lemma initializeSite_modulo_console w :
  erase_console (exec initializeSite w) = erase_console (exec initializeSite_setup w).
Proof. rewrite initializeSite_unfold. by apply setup_blind. Qed.

Lemma initializeSite_console w :
  console (exec initializeSite w)
  = console w ++ [(Log, [VStr "[Airbus Site] Initializing..."])]
      ++ validationMessages w
      ++ [(Log, [VStr "[Airbus Site] Initialization complete"])].
Proof.
  rewrite initializeSite_unfold. unfold exec. rewrite setup_console. simpl.
  by rewrite <- app_assoc.
Qed.

Lemma initializeSite_listeners w :
  listeners (exec initializeSite w)
  = listeners w ++
    [ (Window, "scroll", Throttled HandleNavbarScroll 16);
      (Window, "scroll", Throttled UpdateActiveNavLink 100);
      (Window, "resize", Debounced HandleWindowResize 250);
      (Document, "click", Direct HandleDocumentClick);
      (Document, "keydown", Direct HandleKeyboardNavigation);
      (Window, "beforeunload", Direct ResetScrollPosition);
      (Window, "popstate", Direct OnPopstate) ].
Proof. rewrite initializeSite_unfold. unfold exec. by rewrite setup_listeners. Qed.

(** ** The wrappers of [throttle] and [debounce] *)

Section Wrappers.
Import EventLoop.
Context {A S : Type}.
Variable func : A -> S -> S.
Variable wait : nat.
Implicit Types (m : machine A S) (log : list (obs A)).

Lemma debounce_throttle : debounce func wait = throttle func wait.
Proof. reflexivity. Qed.

Lemma omap_own_cons (t : timer A S) (l : list (timer A S)) :
  omap own (t :: l)
  = match own t with Some x => x :: omap own l | None => omap own l end.
Proof. reflexivity. Qed.

Lemma own_id (t : timer A S) x : own t = Some x -> x.1.1 = timer_id t.
Proof. unfold own. destruct (timer_cb t); [|done]. by intros [= <-]. Qed.

Lemma own_filter_id i (l : list (timer A S)) :
  omap own (filter (fun t => timer_id t ≠ i) l)
  = filter (fun x => x.1.1 ≠ i) (omap own l).
Proof.
  induction l as [|t l IH]; [done|].
  rewrite filter_cons, (omap_own_cons t l).
  destruct (own t) as [x|] eqn:Ht.
  - rewrite filter_cons, (own_id t x Ht).
    destruct (decide (timer_id t ≠ i)); [|done].
    by rewrite omap_own_cons, Ht, IH.
  - destruct (decide (timer_id t ≠ i)); [|done].
    by rewrite omap_own_cons, Ht, IH.
Qed.

Lemma own_delete_foreign k (l : list (timer A S)) (t : timer A S) :
  l !! k = Some t -> own t = None -> omap own (delete k l) = omap own l.
Proof.
  intros Hk Ht. rewrite <- (take_drop_middle l k t Hk) at 2.
  by rewrite delete_take_drop, !omap_app, omap_own_cons, Ht.
Qed.

Lemma own_delete_single k (l : list (timer A S)) (t : timer A S) x :
  l !! k = Some t -> own t = Some x -> omap own l = [x] -> omap own (delete k l) = [].
Proof.
  intros Hk Ht Hl. rewrite <- (take_drop_middle l k t Hk) in Hl.
  rewrite delete_take_drop, omap_app. rewrite omap_app, omap_own_cons, Ht in Hl.
  destruct (omap own (take k l)) as [|y l1].
  - rewrite !app_nil_l in *. by injection Hl.
  - rewrite <- app_comm_cons in Hl. injection Hl as _ Hl. by destruct l1.
Qed.

Lemma own_lookup (l : list (timer A S)) k (t : timer A S) x :
  l !! k = Some t -> own t = Some x -> x ∈ omap own l.
Proof.
  intros Hk Ht. apply list_elem_of_omap. exists t. split; [|done].
  by apply list_elem_of_lookup_2 with k.
Qed.

Lemma trailing_edge_nil : trailing_edge (timer_delay wait) (@nil (obs A)).
Proof. intros l1 t a l2 H. by destruct l1. Qed.

Lemma app_snoc_inv {T} (x l1 l2 : list T) (y z : T) :
  x ++ [y] = l1 ++ z :: l2 ->
  (l2 = [] /\ x = l1 /\ y = z) \/ (exists l2', l2 = l2' ++ [y] /\ x = l1 ++ z :: l2').
Proof.
  destruct l2 as [|u l2 _] using rev_ind.
  - intros [-> ->]%app_inj_tail. by left.
  - rewrite app_comm_cons, app_assoc. intros [-> ->]%app_inj_tail.
    right. by exists l2.
Qed.

Lemma trailing_edge_called log tc (a : A) :
  trailing_edge (timer_delay wait) log -> trailing_edge (timer_delay wait) (log ++ [Called tc a]).
Proof.
  intros Hlog l1 t b l2 [(_ & _ & [=]) | (l2' & -> & ->)]%app_snoc_inv.
  by apply (Hlog l1 t b l2').
Qed.

Lemma trailing_edge_invoked (l0 : list (obs A)) tc (a : A) (u : nat) :
  trailing_edge (timer_delay wait) (l0 ++ [Called tc a]) -> (tc + timer_delay wait <= u)%nat ->
  trailing_edge (timer_delay wait) ((l0 ++ [Called tc a]) ++ [Invoked u a]).
Proof.
  intros Hlog Hle l1 t' b l2 [(_ & <- & [= <- <-]) | (l2' & -> & Heq)]%app_snoc_inv.
  - by exists l0, tc.
  - by apply (Hlog l1 t' b l2').
Qed.

Lemma invariant_fresh t0 n0 (others : list (nat * nat * (S -> S))) (s0 : S) :
  invariant (A:=A) (timer_delay wait) (fresh t0 n0 others s0) [].
Proof.
  split; [apply trailing_edge_nil|]. left. split.
  - unfold own_timers, fresh. simpl. by induction others as [|o os IH].
  - intros l0 tc a H. by destruct l0.
Qed.

Lemma own_cleared m log :
  settled m log \/ armed (timer_delay wait) m log ->
  own_timers (clearTimeout (timeout m) m) = [].
Proof.
  unfold own_timers.
  intros [[Hown _] | (id & tc & a & l0 & Hown & Hto & _)].
  - destruct (timeout m) as [i|]; simpl; [|done].
    rewrite own_filter_id. unfold own_timers in Hown. by rewrite Hown.
  - rewrite Hto. simpl. rewrite own_filter_id. unfold own_timers in Hown.
    rewrite Hown, filter_cons. simpl. by rewrite decide_False by tauto.
Qed.

Lemma step_invariant i m log m' o :
  invariant (timer_delay wait) m log -> step (throttle func wait) i m = Some (m', o) ->
  invariant (timer_delay wait) m' (log ++ o).
Proof.
  intros [Hlog Hst] Hstep. destruct i as [a|k|d|g delay]; simpl in Hstep.
  - (* a call: the pending timer goes, a new one is set *)
    injection Hstep as <- <-. split; [by apply trailing_edge_called|].
    right. exists (next_id m), (clock m), a, log.
    pose proof (own_cleared m log Hst) as Hc.
    assert (Hn : next_id (clearTimeout (timeout m) m) = next_id m)
      by (destruct m as [c p n [i|] s]; reflexivity).
    assert (Hcl : clock (clearTimeout (timeout m) m) = clock m)
      by (destruct m as [c p n [i|] s]; reflexivity).
    unfold own_timers in *. simpl. by rewrite omap_app, Hc, Hn, Hcl.
  - (* the event loop runs a timer *)
    destruct (pending m !! k) as [t|] eqn:Hk; [|done].
    destruct (bool_decide (timer_due t <= clock m)%nat) eqn:Hdue; [|done].
    apply bool_decide_eq_true in Hdue.
    destruct (timer_cb t) as [a|g] eqn:Hcb; injection Hstep as <- <-.
    + assert (Hown : own t = Some (timer_id t, timer_due t, a))
        by (unfold own; by rewrite Hcb).
      destruct Hst as [[Hnil _] | (id & tc & b & l0 & Hone & Hto & ->)].
      { pose proof (own_lookup _ _ _ _ Hk Hown) as Hin.
        unfold own_timers in Hnil. rewrite Hnil in Hin. by apply elem_of_nil in Hin. }
      pose proof (own_lookup _ _ _ _ Hk Hown) as Hin.
      unfold own_timers in Hone. rewrite Hone in Hin.
      apply list_elem_of_singleton in Hin. injection Hin as Hid Ht <-.
      split; [apply trailing_edge_invoked; [done|lia]|].
      left. split.
      * rewrite <- Hid, <- Ht in Hone.
        unfold own_timers. simpl. rewrite Hto. simpl. rewrite own_filter_id.
        rewrite (own_delete_single _ _ _ _ Hk Hown Hone). done.
      * intros l1 tc' c [_ [=]]%app_inj_tail.
    + assert (Hown : own t = None) by (unfold own; by rewrite Hcb).
      rewrite app_nil_r. split; [done|].
      assert (Hsame : own_timers (set_state g (remove_timer k m)) = own_timers m).
      { unfold own_timers. simpl. by apply own_delete_foreign with t. }
      destruct Hst as [[Hnil Hl] | (id & tc & b & l0 & Hone & Hto & ->)].
      * left. split; [by rewrite Hsame|done].
      * right. exists id, tc, b, l0. by rewrite Hsame.
  - (* time passes *)
    injection Hstep as <- <-. rewrite app_nil_r. by split.
  - (* other code sets a timer *)
    injection Hstep as <- <-. rewrite app_nil_r. split; [done|].
    match goal with |- settled ?m1 _ \/ _ =>
      assert (Hsame : own_timers m1 = own_timers m) end.
    { unfold own_timers. simpl. by rewrite omap_app, omap_own_cons, app_nil_r. }
    destruct Hst as [[Hnil Hl] | (id & tc & b & l0 & Hone & Hto & ->)].
    + left. split; [by rewrite Hsame|done].
    + right. exists id, tc, b, l0. by rewrite Hsame.
Qed.

Lemma run_invariant tr : forall m log m' os,
  invariant (timer_delay wait) m log -> run (throttle func wait) tr m = Some (m', os) ->
  invariant (timer_delay wait) m' (log ++ os).
Proof.
  induction tr as [|i tr IH]; intros m log m' os Hinv Hrun; simpl in Hrun.
  - injection Hrun as <- <-. by rewrite app_nil_r.
  - destruct (step (throttle func wait) i m) as [[m1 o]|] eqn:Hstep; [|done].
    destruct (run (throttle func wait) tr m1) as [[m2 os']|] eqn:Hrun'; [|done].
    injection Hrun as <- <-. rewrite app_assoc.
    apply (IH m1 (log ++ o) m2 os'); [|done].
    by apply step_invariant with i m.
Qed.

(** The timers of the wrapper after a run: the timer of the last call
    when nothing was observed since, none otherwise. *)
Lemma invariant_own_timers m log :
  invariant (timer_delay wait) m log ->
  (fun x => (x.1.2, x.2)) <$> own_timers m
  = match last log with
    | Some (Called tc a) => [((tc + timer_delay wait)%nat, a)]
    | _ => []
    end.
Proof.
  intros [_ [[Hnil Hl] | (id & tc & b & l0 & Hone & Hto & ->)]].
  - rewrite Hnil. simpl. destruct (last log) as [[tc a|t a]|] eqn:Hlast; try done.
    apply last_Some in Hlast as [l0 ->]. by destruct (Hl l0 tc a).
  - by rewrite Hone, last_snoc.
Qed.

(** Once [wait] has passed after a call, the event loop can run its
    timer, and the wrapped function then receives the arguments of
    that call. *)
Lemma call_then_fire m a :
  exists pos m',
    step (throttle func wait) (Fire pos)
      (tick (timer_delay wait) (executedFunction (throttle func wait) a m))
    = Some (m', [Invoked (clock m + timer_delay wait)%nat a])
    /\ state m' = func a (state m).
Proof.
  set (m1 := clearTimeout (timeout m) m).
  set (m2 := tick (timer_delay wait) (executedFunction (throttle func wait) a m)).
  exists (length (pending m1)), (later (throttle func wait) a (remove_timer (length (pending m1)) m2)).
  assert (Hp : pending m2
               = pending m1 ++ [mkTimer (next_id m) (clock m + timer_delay wait)%nat (Later a)]).
  { subst m1 m2. destruct m as [c p n [i|] s]; reflexivity. }
  assert (Hc : clock m2 = (clock m + timer_delay wait)%nat).
  { subst m2. destruct m as [c p n [i|] s]; reflexivity. }
  split.
  - unfold step. rewrite Hp, lookup_app_r, Nat.sub_diag by lia.
    cbn [lookup list_lookup timer_due timer_cb].
    rewrite bool_decide_eq_true_2 by lia. by rewrite Hc.
  - subst m1 m2. destruct m as [c p n [i|] s]; reflexivity.
Qed.

(** The wrappers [initializeSite] registers are wrappers of the three
    handlers. *)
Lemma registered_wrappers :
  listener_wrapper (A:=A) (Throttled HandleNavbarScroll 16)
  = Some (throttle (fun _ => exec handleNavbarScroll) 16)
  /\ listener_wrapper (A:=A) (Throttled UpdateActiveNavLink 100)
     = Some (throttle (fun _ => exec updateActiveNavLink) 100)
  /\ listener_wrapper (A:=A) (Debounced HandleWindowResize 250)
     = Some (debounce (fun _ => exec handleWindowResize) 250).
Proof. repeat split. Qed.

(** *** Times *)

Lemma chronological_snoc log (o : obs A) :
  chronological log -> Forall (fun x => (obs_time x <= obs_time o)%nat) log ->
  chronological (log ++ [o]).
Proof.
  intros Hc Hall l1 o1 l2 o2 l3 Heq.
  assert (Heq' : log ++ [o] = (l1 ++ o1 :: l2) ++ o2 :: l3)
    by (by rewrite Heq, <- app_assoc).
  apply app_snoc_inv in Heq' as [(_ & Hlog & <-) | (l3' & -> & Hlog)].
  - rewrite Forall_forall in Hall. apply Hall. rewrite Hlog.
    apply elem_of_app. right. left.
  - apply (Hc l1 o1 l2 o2 l3'). by rewrite Hlog, <- app_assoc.
Qed.

Lemma step_timed i m log m' o :
  timed m log -> step (throttle func wait) i m = Some (m', o) ->
  timed m' (log ++ o).
Proof.
  intros [Hall Hc] Hstep. destruct i as [a|k|d|g delay]; simpl in Hstep.
  - injection Hstep as <- <-.
    match goal with |- timed ?m1 _ =>
      assert (Hcl : clock m1 = clock m)
        by (destruct m as [c p n [i|] s]; reflexivity) end.
    split.
    + rewrite Hcl. apply Forall_app. split; [done|]. by repeat constructor.
    + by apply chronological_snoc.
  - destruct (pending m !! k) as [t|]; [|done].
    destruct (bool_decide (timer_due t <= clock m)%nat); [|done].
    destruct (timer_cb t) as [a|g]; injection Hstep as <- <-.
    + match goal with |- timed ?m1 _ =>
        assert (Hcl : clock m1 = clock m)
          by (destruct m as [c p n [i|] s]; reflexivity) end.
      split.
      * rewrite Hcl. apply Forall_app. split; [done|]. by repeat constructor.
      * by apply chronological_snoc.
    + by rewrite app_nil_r.
  - injection Hstep as <- <-. rewrite app_nil_r. split; [|done].
    eapply Forall_impl; [exact Hall|]. simpl. intros; lia.
  - injection Hstep as <- <-. by rewrite app_nil_r.
Qed.

Lemma run_timed tr : forall m log m' os,
  timed m log -> run (throttle func wait) tr m = Some (m', os) ->
  timed m' (log ++ os).
Proof.
  induction tr as [|i tr IH]; intros m log m' os Hinv Hrun; simpl in Hrun.
  - injection Hrun as <- <-. by rewrite app_nil_r.
  - destruct (step (throttle func wait) i m) as [[m1 o]|] eqn:Hstep; [|done].
    destruct (run (throttle func wait) tr m1) as [[m2 os']|] eqn:Hrun'; [|done].
    injection Hrun as <- <-. rewrite app_assoc.
    apply (IH m1 (log ++ o) m2 os'); [|done].
    by apply step_timed with i m.
Qed.

(** Two invocations are at least [wait] apart. *)
Lemma rate_limited log :
  trailing_edge (timer_delay wait) log -> chronological log ->
  forall l1 t1 (a1 : A) l2 t2 a2 l3,
    log = l1 ++ Invoked t1 a1 :: l2 ++ Invoked t2 a2 :: l3 ->
    (t1 + timer_delay wait <= t2)%nat.
Proof.
  intros Hte Hc l1 t1 a1 l2 t2 a2 l3 Hlog.
  destruct (Hte (l1 ++ Invoked t1 a1 :: l2) t2 a2 l3) as (l0 & tc & Heq & Hle).
  { by rewrite <- app_assoc. }
  destruct l2 as [|u l2 _] using rev_ind.
  - by apply app_inj_tail in Heq as [_ [=]].
  - rewrite app_comm_cons, app_assoc in Heq.
    apply app_inj_tail in Heq as [_ ->].
    specialize (Hc l1 (Invoked t1 a1) l2 (Called tc a2) (Invoked t2 a2 :: l3)).
    simpl in Hc. rewrite <- app_assoc in Hlog. specialize (Hc Hlog). lia.
Qed.

(** *** Delays *)

Lemma timer_delay_small : (Z.of_nat wait < 2 ^ 31)%Z -> timer_delay wait = wait.
Proof.
  intros H. unfold timer_delay.
  rewrite Z.mod_small by lia.
  rewrite (proj2 (Z.ltb_lt _ _) H). apply Nat2Z.id.
Qed.

(** With a delay of 0 the timer of a call can run at once. *)
Lemma immediate_fire t0 (s0 : S) (a : A) :
  timer_delay wait = 0%nat ->
  snd <$> run (throttle func wait) [Call a; Fire 0] (fresh t0 0 [] s0)
  = Some [Called t0 a; Invoked t0 a].
Proof.
  intros Hd. unfold run, step, throttle, executedFunction, later, fresh, setTimeout,
    clearTimeout, set_timeout, set_state, remove_timer.
  cbn [timeout pending clock next_id state map app lookup list_lookup timer_due
       timer_cb fst snd].
  rewrite Hd, Nat.add_0_r. by rewrite bool_decide_eq_true_2 by lia.
Qed.

End Wrappers.

(** * The claims *)

(** C1: [updateActiveNavLink] goes through the fixed list of section
    identifiers ['homepage', 'performance', 'report'] in order and takes
    as active the first one whose element exists and is visible at
    threshold 0.3; the identifiers after it are not looked up; when no
    listed section is visible the active section is the empty string.
    The links are then marked for that section. *)
Theorem active_section_is_first_visible (w : World) :
  sections = ["homepage"; "performance"; "report"]
  /\ (forall pre s post,
        sections = pre ++ s :: post ->
        Forall (fun x => sectionVisible x w = false) pre ->
        sectionVisible s w = true ->
        scanSections sections w = (pre ++ [s], s))
  /\ (Forall (fun x => sectionVisible x w = false) sections ->
      scanSections sections w = (sections, ""))
  /\ doc (exec updateActiveNavLink w)
     = foldl (fun d link => set_elem (markLink (snd (scanSections sections w))) link d)
         (doc w) (querySelectorAll navLinkSelector (doc w)).
Proof.
  split; [reflexivity|]. split; [|split].
  - intros pre s post. apply scanSections_first.
  - apply scanSections_none.
  - apply updateActiveNavLink_doc.
Qed.

(** On the sample page the first section is out of the band, the second
    is in it, and the third is never looked up. *)
Lemma active_section_witness :
  scanSections sections sampleWorld = (["homepage"; "performance"], "performance").
Proof.
  apply (proj1 (proj2 (active_section_is_first_visible sampleWorld))
           ["homepage"] "performance" ["report"]).
  - reflexivity.
  - repeat constructor.
  - vm_compute. reflexivity.
Defined.

(** C2 (as amended): [isElementVisible(element, threshold)] is false
    without an element.  For an element with the box (top, bottom) in a
    window of height H it is true exactly when [top <= H * (1 - threshold)]
    and [bottom >= H * threshold], with the subtraction, the products and
    the comparisons of IEEE doubles.  At the threshold 0.3 of
    [updateActiveNavLink] and in a window 1000 px high the two bounds are
    700 and 300: the box has to meet the band between 30% and 70% of the
    window.  This is not the test the claim states: a box can pass it and
    overlap the window by less than 30% of its height, and, by rounding,
    fail it with an overlap of exactly 30%. *)
Theorem isElementVisible_is_band_test (w : World) (p : path) (e : elem) (t : float) :
  get_elem p (doc w) = Some e ->
  (isElementVisible (Some p) t w = true
   <-> ((rect_top e <=? windowHeight w * (1 - t))%float = true
        /\ (windowHeight w * t <=? rect_bottom e)%float = true))
  /\ isElementVisible None t w = false
  /\ (windowHeight w = 1000%float ->
      isElementVisible (Some p) 0.3 w = true
      <-> ((rect_top e <=? 700)%float = true /\ (300 <=? rect_bottom e)%float = true)).
Proof.
  intros He. split; [by apply isElementVisible_band|]. split; [done|].
  intros HH. rewrite (isElementVisible_band w p e _ He), HH.
  assert (H7 : (1000 * (1 - 0.3))%float = 700%float) by (vm_compute; reflexivity).
  assert (H3 : (1000 * 0.3)%float = 300%float) by (vm_compute; reflexivity).
  by rewrite H7, H3.
Qed.

Lemma isElementVisible_witness :
  isElementVisible (Some [0%nat; 1%nat; 1%nat]) 0.3 sampleWorld = true.
Proof.
  refine (proj2 (proj2 (proj2 (isElementVisible_is_band_test sampleWorld [0; 1; 1]%nat
                   (Element "section" [] (list_to_map [("id", "performance")]) 100 1100)
                   0.3 _)) _) _).
  - vm_compute. reflexivity.
  - vm_compute. reflexivity.
  - split; vm_compute; reflexivity.
Defined.

(** C2 fails as stated: a box 50 px high in the middle of a window
    1000 px high passes the test, and it overlaps the window by 50 px,
    less than 30% of the height of the window. *)
Lemma isElementVisible_thin_box :
  get_elem [0%nat] (doc thinWorld) = Some thinSection
  /\ isElementVisible (Some [0%nat]) 0.3 thinWorld = true
  /\ float_value (rect_top thinSection) = Some 600%Q
  /\ float_value (rect_bottom thinSection) = Some 650%Q
  /\ float_value (windowHeight thinWorld) = Some 1000%Q
  /\ ~ ((3 # 10) * 1000 <= viewport_overlap 600 650 1000)%Q.
Proof.
  split; [reflexivity|]. do 4 (split; [vm_compute; reflexivity|]).
  vm_compute. intros H. apply H. reflexivity.
Qed.

(** It fails in the other direction too, by rounding: in a window 720 px
    high the product 720 * (1 - 0.3) is 503.99999999999994 on doubles, so
    a box from 504 to 900, which overlaps the window by 216 px, 30% of its
    height, does not pass. *)
Lemma isElementVisible_rounding :
  get_elem [0%nat] (doc roundingWorld) = Some roundingSection
  /\ isElementVisible (Some [0%nat]) 0.3 roundingWorld = false
  /\ (windowHeight roundingWorld * (1 - 0.3))%float = 503.99999999999994%float
  /\ float_value (rect_top roundingSection) = Some 504%Q
  /\ float_value (rect_bottom roundingSection) = Some 900%Q
  /\ float_value (windowHeight roundingWorld) = Some 720%Q
  /\ ((3 # 10) * 720 <= viewport_overlap 504 900 720)%Q.
Proof.
  split; [reflexivity|]. do 5 (split; [vm_compute; reflexivity|]).
  vm_compute. discriminate.
Qed.

(** C3 (as amended): after [updateActiveNavLink] has run with active
    section S, every link matching 'nav a.smooth-scroll' whose href is
    '#' + S has the class 'active' and aria-current 'page', and every
    other such link has no class 'active' and aria-current 'false'.  S is
    the first listed section in view: the link of a section scrolled into
    view gains the class when no section listed before it is in view as
    well. *)
Theorem updateActiveNavLink_marks_links (w : World) (p : path) (e : elem) :
  p ∈ querySelectorAll navLinkSelector (doc (exec updateActiveNavLink w)) ->
  get_elem p (doc (exec updateActiveNavLink w)) = Some e ->
  (getAttribute "href" e = Some ("#" +:+ activeSection w) ->
     ("active" ∈ classes e) /\ getAttribute "aria-current" e = Some "page")
  /\ (getAttribute "href" e <> Some ("#" +:+ activeSection w) ->
     ("active" ∉ classes e) /\ getAttribute "aria-current" e = Some "false")
  /\ (forall pre s post,
        sections = pre ++ s :: post ->
        Forall (fun x => sectionVisible x w = false) pre ->
        sectionVisible s w = true ->
        getAttribute "href" e = Some ("#" +:+ s) ->
        "active" ∈ classes e).
Proof.
  intros Hp He.
  destruct (updateActiveNavLink_link w p e Hp He) as (e0 & _ & ->).
  rewrite href_markLink. split; [apply markLink_active|].
  split; [apply markLink_inactive|].
  intros pre s post Hsec Hpre Hs Hhref.
  apply (markLink_active (activeSection w) e0).
  unfold activeSection. by rewrite (scanSections_first w sections pre s post Hsec Hpre Hs).
Qed.

(** On the sample page the link of the second section gains the marks
    and the link of the first one, which had them, loses them. *)
Lemma updateActiveNavLink_witness :
  (exists e,
     get_elem [0; 0; 1]%nat (doc (exec updateActiveNavLink sampleWorld)) = Some e
     /\ ("active" ∈ classes e) /\ getAttribute "aria-current" e = Some "page")
  /\ (exists e,
     get_elem [0; 0; 0]%nat (doc (exec updateActiveNavLink sampleWorld)) = Some e
     /\ ("active" ∉ classes e) /\ getAttribute "aria-current" e = Some "false").
Proof.
  split.
  - eexists. split; [vm_compute; reflexivity|].
    refine (proj1 (updateActiveNavLink_marks_links sampleWorld [0; 0; 1]%nat _ _ _) _).
    + apply (bool_decide_unpack _). vm_compute. exact I.
    + vm_compute. reflexivity.
    + vm_compute. reflexivity.
  - eexists. split; [vm_compute; reflexivity|].
    refine (proj1 (proj2 (updateActiveNavLink_marks_links sampleWorld [0; 0; 0]%nat
                            _ _ _)) _).
    + apply (bool_decide_unpack _). vm_compute. exact I.
    + vm_compute. reflexivity.
    + vm_compute. discriminate.
Defined.

(** C3 fails as stated: with the first section still in view, the
    second section is scrolled into view and its link does not gain the
    class; the link of the first section keeps it. *)
Lemma later_section_in_view :
  sectionVisible "homepage" overlapWorld = true
  /\ sectionVisible "performance" overlapWorld = true
  /\ activeSection overlapWorld = "homepage"
  /\ exists e,
       get_elem [0; 0; 1]%nat (doc (exec updateActiveNavLink overlapWorld)) = Some e
       /\ [0; 0; 1]%nat
            ∈ querySelectorAll navLinkSelector (doc (exec updateActiveNavLink overlapWorld))
       /\ getAttribute "href" e = Some "#performance"
       /\ ("active" ∉ classes e)
       /\ getAttribute "aria-current" e = Some "false".
Proof.
  do 3 (split; [vm_compute; reflexivity|]).
  eexists. split; [vm_compute; reflexivity|].
  split; [apply (bool_decide_unpack _); vm_compute; exact I|].
  split; [vm_compute; reflexivity|].
  split; [apply (bool_decide_unpack _); vm_compute; exact I|vm_compute; reflexivity].
Qed.

(** C10: when none of the three listed sections is visible the active
    section is the empty string, and a navigation link is marked active
    exactly when its href is the bare string '#': such a link gets the
    class 'active' and aria-current 'page'; every link whose href has a
    non-empty fragment gets aria-current 'false'. *)
Theorem no_visible_section_marks_bare_hash (w : World) (p : path) (e : elem) :
  Forall (fun s => sectionVisible s w = false) sections ->
  p ∈ querySelectorAll navLinkSelector (doc (exec updateActiveNavLink w)) ->
  get_elem p (doc (exec updateActiveNavLink w)) = Some e ->
  activeSection w = ""
  /\ (getAttribute "href" e = Some "#" ->
        ("active" ∈ classes e) /\ getAttribute "aria-current" e = Some "page")
  /\ (getAttribute "href" e <> Some "#" ->
        ("active" ∉ classes e) /\ getAttribute "aria-current" e = Some "false")
  /\ (forall frag, frag <> "" -> getAttribute "href" e = Some ("#" +:+ frag) ->
        getAttribute "aria-current" e = Some "false").
Proof.
  intros Hnone Hp He.
  assert (Hact : activeSection w = "").
  { unfold activeSection. by rewrite (scanSections_none w sections Hnone). }
  destruct (updateActiveNavLink_link w p e Hp He) as (e0 & _ & ->).
  rewrite Hact, href_markLink.
  split; [done|]. split; [apply (markLink_active "")|].
  split; [apply (markLink_inactive "")|].
  intros frag Hfrag Hhref. apply (markLink_inactive "" e0).
  rewrite Hhref. intros [= H]. destruct frag; [done|discriminate].
Qed.

(** Scrolled past the sections, the link with href [#] is the active one. *)
Lemma no_visible_section_witness :
  exists e,
    get_elem [0; 0; 2]%nat (doc (exec updateActiveNavLink pastWorld)) = Some e
    /\ ("active" ∈ classes e) /\ getAttribute "aria-current" e = Some "page".
Proof.
  eexists. split; [vm_compute; reflexivity|].
  refine (proj1 (proj2 (no_visible_section_marks_bare_hash pastWorld [0; 0; 2]%nat
                          _ _ _ _)) _).
  - repeat constructor.
  - apply (bool_decide_unpack _). vm_compute. exact I.
  - vm_compute. reflexivity.
  - vm_compute. reflexivity.
Defined.

(** C5: when no element has the id [targetId], [scrollToElement] logs a
    warning and returns false; it scrolls nothing, leaves the URL, the
    history and the focus as they are, and returns normally. *)
Theorem scrollToElement_missing_noop (targetId : string) (options : gmap string string)
    (w : World) :
  getElementById targetId (doc w) = None ->
  scrollToElement targetId options w
  = (false,
     set_console (fun c => c ++
       [(Warn, [VStr ("[Airbus Site] Element with ID '" +:+ targetId +:+ "' not found")])]) w)
  /\ scrolledIntoView (exec (scrollToElement targetId options) w) = scrolledIntoView w
  /\ pushed (exec (scrollToElement targetId options) w) = pushed w
  /\ (pathname (exec (scrollToElement targetId options) w),
      search (exec (scrollToElement targetId options) w),
      hash (exec (scrollToElement targetId options) w))
     = (pathname w, search w, hash w)
  /\ focused (exec (scrollToElement targetId options) w) = focused w
  /\ doc (exec (scrollToElement targetId options) w) = doc w.
Proof.
  intros H. unfold exec. by rewrite (scrollToElement_missing targetId options w H).
Qed.

Lemma scrollToElement_missing_witness :
  fst (scrollToElement "contacts" ∅ sampleWorld) = false
  /\ console (exec (scrollToElement "contacts" ∅) sampleWorld)
     = [(Warn, [VStr "[Airbus Site] Element with ID 'contacts' not found"])].
Proof.
  assert (H : getElementById "contacts" (doc sampleWorld) = None)
    by (vm_compute; reflexivity).
  unfold exec.
  rewrite (proj1 (scrollToElement_missing_noop "contacts" ∅ sampleWorld H)).
  split; reflexivity.
Defined.



(** An id with a space: the URL that is pushed holds the space, and the
    hash of the location holds it percent-encoded. *)
Lemma scrollToElement_encodes_fragment :
  getElementById "a b" (doc spacedWorld) = Some [0]%nat
  /\ pushed (exec (scrollToElement "a b" ∅) spacedWorld) = ["/index.html?lang=it#a b"]
  /\ hash (exec (scrollToElement "a b" ∅) spacedWorld) = "#a%20b".
Proof. vm_compute. repeat split. Qed.


(** C9 (as amended): [validateHref(href)] returns true exactly when
    [href] is '#', an ASCII letter, and then word characters or hyphens
    only; the hrefs '#', '#1x' and a path are refused.  A click whose
    nearest smooth-scroll link has an href that fails the test, and which
    is not inside an element matching '#goToReport', prevents the default
    action, logs a warning and does nothing else: no scrolling, no
    analytics. *)
Theorem validateHref_gates_smooth_scroll :
  (forall href,
      validateHref href = VBool true
      <-> exists c rest, href = Some (String "#" (String c rest))
            /\ is_letter c = true /\ all_chars is_word_or_hyphen rest = true)
  /\ validateHref (Some "#") = VBool false
  /\ validateHref (Some "#1x") = VBool false
  /\ validateHref (Some "/report.html") = VBool false
  /\ (forall w tgt link,
        closest (SelId "goToReport") tgt (doc w) = None ->
        closest (SelTagClass "a" "smooth-scroll") tgt (doc w) = Some link ->
        validateHref (get_elem link (doc w) ≫= getAttribute "href") <> VBool true ->
        handleDocumentClick tgt w
        = (true,
           set_console (fun c => c ++
             [(Warn, [VStr "[Airbus Site] Invalid href format for smooth scroll:";
                      of_attr (get_elem link (doc w) ≫= getAttribute "href")])]) w)).
Proof.
  split; [apply validateHref_true|]. do 3 (split; [reflexivity|]).
  intros w tgt link Hb Hl Hv. apply handleDocumentClick_invalid; [done..|].
  destruct (truthy _) eqn:Ht; [|done]. by apply validateHref_truthy in Ht.
Qed.

(** The link with href [#] in the navigation bar of the sample page. *)
Lemma validateHref_witness :
  handleDocumentClick [0; 0; 2]%nat sampleWorld
  = (true,
     set_console (fun c => c ++
       [(Warn, [VStr "[Airbus Site] Invalid href format for smooth scroll:"; VStr "#"])])
       sampleWorld).
Proof.
  refine (proj2 (proj2 (proj2 (proj2 validateHref_gates_smooth_scroll)))
            sampleWorld [0; 0; 2]%nat [0; 0; 2]%nat _ _ _).
  - vm_compute. reflexivity.
  - vm_compute. reflexivity.
  - vm_compute. discriminate.
Defined.

(** C9 fails as stated: a smooth-scroll link with the href '#' inside
    the element '#goToReport'.  The href fails the test, and the click
    scrolls to the report section and is tracked. *)
Lemma click_inside_goToReport :
  closest (SelTagClass "a" "smooth-scroll") [0; 0]%nat (doc nestedLinkWorld)
  = Some [0; 0]%nat
  /\ get_elem [0; 0]%nat (doc nestedLinkWorld) ≫= getAttribute "href" = Some "#"
  /\ validateHref (Some "#") = VBool false
  /\ scrolledIntoView (exec (handleDocumentClick [0; 0]%nat) nestedLinkWorld)
     = [([1%nat], defaultOptions)]
  /\ gtag_events (exec (handleDocumentClick [0; 0]%nat) nestedLinkWorld)
     = [("button_click", "go_to_report", "homepage")]
  /\ console (exec (handleDocumentClick [0; 0]%nat) nestedLinkWorld) = [].
Proof. vm_compute. repeat split. Qed.

(** C8: [throttle] and [debounce] are the same function: the wrappers
    they return for a function and a wait schedule and invoke it alike,
    whatever is done to them. *)
Theorem throttle_debounce_same {A S : Type} (func : A -> S -> S) (wait : nat)
    (tr : list (EventLoop.input A S)) (m : EventLoop.machine A S) :
  EventLoop.throttle func wait = EventLoop.debounce func wait
  /\ EventLoop.run (EventLoop.throttle func wait) tr m
     = EventLoop.run (EventLoop.debounce func wait) tr m.
Proof. split; reflexivity. Qed.

(** C4 (as amended): the wrappers of [throttle] and [debounce] invoke
    the wrapped function on the trailing edge only.  The delay of their
    timer is [wait] when [wait] is a whole number below 2^31, and in
    general what [setTimeout] makes of it.  In every run from the moment
    the wrapper is made: an invocation comes right after the call whose
    arguments it receives and no sooner than the delay after it; the
    wrapper has one timer pending after a call, due one delay after that
    call, and none otherwise, so each call replaces the pending timer;
    two invocations are at least one delay apart; once the delay has
    passed after a call the event loop can run the timer, and the
    function then receives the arguments of that call.  [initializeSite]
    wraps one scroll handler with a wait of 16 ms, the other one with a
    wait of 100 ms, and the resize handler with a wait of 250 ms. *)
Theorem wrappers_trailing_edge {A S : Type} (func : A -> S -> S) (wait : nat)
    (w : EventLoop.wrapper A S) (t0 n0 : nat) (others : list (nat * nat * (S -> S)))
    (s0 : S) (tr : list (EventLoop.input A S)) (m : EventLoop.machine A S)
    (log : list (EventLoop.obs A)) :
  w = EventLoop.throttle func wait \/ w = EventLoop.debounce func wait ->
  EventLoop.run w tr (EventLoop.fresh t0 n0 others s0) = Some (m, log) ->
  ((Z.of_nat wait < 2 ^ 31)%Z -> EventLoop.timer_delay wait = wait)
  /\ (forall l1 t a l2, log = l1 ++ EventLoop.Invoked t a :: l2 ->
       exists l0 tc, l1 = l0 ++ [EventLoop.Called tc a]
                     /\ (tc + EventLoop.timer_delay wait <= t)%nat)
  /\ (fun x => (x.1.2, x.2)) <$> EventLoop.own_timers m
     = match last log with
       | Some (EventLoop.Called tc a) => [((tc + EventLoop.timer_delay wait)%nat, a)]
       | _ => []
       end
  /\ (forall l1 t1 a1 l2 t2 a2 l3,
        log = l1 ++ EventLoop.Invoked t1 a1 :: l2 ++ EventLoop.Invoked t2 a2 :: l3 ->
        (t1 + EventLoop.timer_delay wait <= t2)%nat)
  /\ (forall a, exists pos m',
        EventLoop.step w (EventLoop.Fire pos)
          (EventLoop.tick (EventLoop.timer_delay wait) (EventLoop.executedFunction w a m))
        = Some (m', [EventLoop.Invoked (EventLoop.clock m + EventLoop.timer_delay wait)%nat
                       a])
        /\ EventLoop.state m' = func a (EventLoop.state m))
  /\ (forall wd,
        filter (fun l => wrapped l.2 = true) (listeners (exec initializeSite wd))
        = filter (fun l => wrapped l.2 = true) (listeners wd)
          ++ [ (Window, "scroll", Throttled HandleNavbarScroll 16);
               (Window, "scroll", Throttled UpdateActiveNavLink 100);
               (Window, "resize", Debounced HandleWindowResize 250) ]).
Proof.
  intros Hw Hrun.
  assert (w = EventLoop.throttle func wait) as ->
    by (destruct Hw as [->| ->]; [done|apply debounce_throttle]).
  pose proof (run_invariant func wait tr _ [] m log
                (invariant_fresh wait t0 n0 others s0) Hrun) as Hinv.
  simpl in Hinv. split; [apply timer_delay_small|]. split; [apply Hinv|].
  split; [by apply invariant_own_timers|].
  split.
  { assert (Ht0 : EventLoop.timed (EventLoop.fresh t0 n0 others s0) (@nil (EventLoop.obs A))).
    { split; [constructor|]. intros l1 o1 l2 o2 l3 H. by destruct l1. }
    pose proof (run_timed func wait tr _ [] m log Ht0 Hrun) as [_ Hc].
    apply (rate_limited wait log); [apply Hinv|exact Hc]. }
  split; [intros a; apply call_then_fire|].
  intros wd. rewrite initializeSite_listeners, filter_app. reflexivity.
Qed.

(** In the sample run the function is invoked once, 16 ms after the
    second call and with its argument; the timer of the third call is
    pending at the end. *)
Lemma wrappers_trailing_edge_witness :
  exists m,
    EventLoop.run (EventLoop.throttle record_args 16) sampleRun
      (EventLoop.fresh 0 0 [] [])
    = Some (m, [ EventLoop.Called 0 1%nat; EventLoop.Called 5 2%nat;
                 EventLoop.Invoked 21 2%nat; EventLoop.Called 24 3%nat ])
    /\ EventLoop.state m = [2%nat]
    /\ (fun x => (x.1.2, x.2)) <$> EventLoop.own_timers m = [(40%nat, 3%nat)].
Proof.
  eexists. split; [vm_compute; reflexivity|]. split; [reflexivity|].
  refine (proj1 (proj2 (proj2 (wrappers_trailing_edge record_args 16 _ 0 0 [] []
                          sampleRun _
                          [ EventLoop.Called 0 1%nat; EventLoop.Called 5 2%nat;
                            EventLoop.Invoked 21 2%nat; EventLoop.Called 24 3%nat ]
                          (or_introl eq_refl) _)))).
  vm_compute. reflexivity.
Defined.

(** C4 fails as stated.  Not every scroll handler is wrapped with a wait
    of 16 ms: [initializeSite] registers [updateActiveNavLink] for scroll
    events with a wait of 100 ms.  And not for every wait value does the
    function wait: a wait of 2^31 ms is a delay of 0, and the function is
    invoked at the time of the call. *)
Lemma wrappers_wait_counterexample :
  (Window, "scroll", Throttled UpdateActiveNavLink 100)
    ∈ listeners (exec initializeSite sampleWorld)
  /\ EventLoop.timer_delay (2 ^ 31) = 0%nat
  /\ snd <$> EventLoop.run (EventLoop.throttle record_args (2 ^ 31))
               [EventLoop.Call 1%nat; EventLoop.Fire 0] (EventLoop.fresh 0 0 [] [])
     = Some [EventLoop.Called 0 1%nat; EventLoop.Invoked 0 1%nat].
Proof.
  assert (Hd : EventLoop.timer_delay (2 ^ 31) = 0%nat).
  { unfold EventLoop.timer_delay. rewrite Nat2Z.inj_pow. reflexivity. }
  split; [|split; [exact Hd|]].
  - rewrite initializeSite_listeners. apply elem_of_app. right.
    apply list_elem_of_further, list_elem_of_here.
  - by apply immediate_fire.
Qed.

(** * Further properties of the script *)

(** ** [updateActiveNavLink]: what it leaves alone *)

Lemma markLink_keeps a e :
  tag (markLink a e) = tag e
  /\ rect_top (markLink a e) = rect_top e
  /\ rect_bottom (markLink a e) = rect_bottom e
  /\ (forall b, b <> "aria-current" ->
        getAttribute b (markLink a e) = getAttribute b e)
  /\ (forall c, c <> "active" -> c ∈ classes (markLink a e) <-> c ∈ classes e).
Proof.
  unfold markLink, setAttribute, classList_toggle, getAttribute. simpl.
  split; [done|]. split; [done|]. split; [done|]. split.
  - intros b Hb. by rewrite lookup_insert_ne.
  - intros c Hc.
    destruct (bool_decide (attrs e !! "href" = Some ("#" +:+ a))).
    + destruct (bool_decide ("active" ∈ classes e)); [done|].
      rewrite elem_of_app, list_elem_of_singleton. tauto.
    + rewrite list_elem_of_filter. tauto.
Qed.

Lemma marked_elem w q :
  get_elem q (doc (exec updateActiveNavLink w))
  = if decide (q ∈ querySelectorAll navLinkSelector (doc w))
    then markLink (activeSection w) <$> get_elem q (doc w)
    else get_elem q (doc w).
Proof.
  rewrite updateActiveNavLink_doc.
  apply (get_elem_forEach _ (markLink_idem _)).
Qed.

(** X3: [updateActiveNavLink] changes no element but the navigation
    links, and of a link only the class 'active' and the attribute
    aria-current: tag, box, the other attributes and the other classes are
    kept, no element appears or disappears, and nothing outside the
    document changes. *)
Theorem updateActiveNavLink_frame (w : World) (q : path) :
  forest_paths (doc (exec updateActiveNavLink w)) = forest_paths (doc w)
  /\ set_doc (fun _ => doc w) (exec updateActiveNavLink w) = w
  /\ (q ∉ querySelectorAll navLinkSelector (doc w) ->
      get_elem q (doc (exec updateActiveNavLink w)) = get_elem q (doc w))
  /\ (forall e, get_elem q (doc w) = Some e ->
      exists e', get_elem q (doc (exec updateActiveNavLink w)) = Some e'
        /\ tag e' = tag e /\ rect_top e' = rect_top e /\ rect_bottom e' = rect_bottom e
        /\ (forall b, b <> "aria-current" -> getAttribute b e' = getAttribute b e)
        /\ (forall c, c <> "active" -> c ∈ classes e' <-> c ∈ classes e)).
Proof.
  split; [rewrite updateActiveNavLink_doc; apply forest_paths_forEach|].
  split; [by destruct w|]. split.
  - intros Hq. by rewrite marked_elem, decide_False.
  - intros e He. rewrite marked_elem, He.
    case_decide; simpl; [|by exists e].
    exists (markLink (activeSection w) e). split; [done|]. apply markLink_keeps.
Qed.

(** X4: after [updateActiveNavLink] all the navigation links that carry
    the class 'active' have the same href, the one of the active
    section: two different targets are never highlighted together. *)
Theorem updateActiveNavLink_one_target (w : World) (p1 p2 : path) (e1 e2 : elem) :
  p1 ∈ querySelectorAll navLinkSelector (doc (exec updateActiveNavLink w)) ->
  p2 ∈ querySelectorAll navLinkSelector (doc (exec updateActiveNavLink w)) ->
  get_elem p1 (doc (exec updateActiveNavLink w)) = Some e1 ->
  get_elem p2 (doc (exec updateActiveNavLink w)) = Some e2 ->
  "active" ∈ classes e1 -> "active" ∈ classes e2 ->
  getAttribute "href" e1 = Some ("#" +:+ activeSection w)
  /\ getAttribute "href" e2 = getAttribute "href" e1.
Proof.
  intros Hp1 Hp2 He1 He2 Ha1 Ha2.
  assert (Hone : forall p e,
    p ∈ querySelectorAll navLinkSelector (doc (exec updateActiveNavLink w)) ->
    get_elem p (doc (exec updateActiveNavLink w)) = Some e ->
    "active" ∈ classes e -> getAttribute "href" e = Some ("#" +:+ activeSection w)).
  { intros p e Hp He Ha.
    destruct (updateActiveNavLink_link w p e Hp He) as (e0 & _ & ->).
    rewrite href_markLink.
    destruct (decide (getAttribute "href" e0 = Some ("#" +:+ activeSection w)))
      as [|Hne]; [done|].
    by destruct (markLink_inactive _ _ Hne) as [Hn _]. }
  rewrite (Hone p1 e1), (Hone p2 e2); done.
Qed.

Lemma updateActiveNavLink_one_target_witness :
  exists e,
    get_elem [0; 0; 1]%nat (doc (exec updateActiveNavLink sampleWorld)) = Some e
    /\ getAttribute "href" e = Some "#performance".
Proof.
  eexists. split; [vm_compute; reflexivity|].
  refine (proj1 (updateActiveNavLink_one_target sampleWorld [0; 0; 1]%nat [0; 0; 1]%nat
                   _ _ _ _ _ _ _ _)).
  - apply (bool_decide_unpack _). vm_compute. exact I.
  - apply (bool_decide_unpack _). vm_compute. exact I.
  - vm_compute. reflexivity.
  - vm_compute. reflexivity.
  - apply (bool_decide_unpack _). vm_compute. exact I.
  - apply (bool_decide_unpack _). vm_compute. exact I.
Defined.

(** The marks decide no lookup by id and no visibility test. *)
Lemma matches_SelId_marked w i q :
  matches_at (SelId i) (doc (exec updateActiveNavLink w)) q
  = matches_at (SelId i) (doc w) q.
Proof.
  unfold matches_at. rewrite marked_elem.
  case_decide; [|done]. destruct (get_elem q (doc w)) as [e|]; simpl; [|done].
  destruct (markLink_keeps (activeSection w) e) as (_ & _ & _ & Hattr & _).
  by rewrite (Hattr "id").
Qed.

Lemma getElementById_marked w i :
  getElementById i (doc (exec updateActiveNavLink w)) = getElementById i (doc w).
Proof.
  unfold getElementById, querySelector, querySelectorAll. f_equal.
  rewrite updateActiveNavLink_doc at 1. rewrite forest_paths_forEach.
  apply list_filter_iff. intros q. cbn [matches]. by rewrite matches_SelId_marked.
Qed.

Lemma isElementVisible_marked w el t :
  isElementVisible el t (exec updateActiveNavLink w) = isElementVisible el t w.
Proof.
  unfold isElementVisible. destruct el as [p|]; [|done].
  rewrite marked_elem.
  case_decide; [|done]. destruct (get_elem p (doc w)) as [e|]; [|done].
  cbn [fmap option_fmap option_map].
  destruct (markLink_keeps (activeSection w) e) as (_ & -> & -> & _).
  by destruct w.
Qed.

Lemma scanSections_marked w ids :
  scanSections ids (exec updateActiveNavLink w) = scanSections ids w.
Proof.
  induction ids as [|i ids IH]; [done|]. cbn [scanSections].
  by rewrite getElementById_marked, isElementVisible_marked, IH.
Qed.

(** X5: [updateActiveNavLink] is idempotent: it does not change which
    section is active, and a second run leaves every element as the
    first one left it. *)
Theorem updateActiveNavLink_idempotent (w : World) (q : path) :
  activeSection (exec updateActiveNavLink w) = activeSection w
  /\ get_elem q (doc (exec updateActiveNavLink (exec updateActiveNavLink w)))
     = get_elem q (doc (exec updateActiveNavLink w)).
Proof.
  assert (Hact : activeSection (exec updateActiveNavLink w) = activeSection w).
  { unfold activeSection. by rewrite scanSections_marked. }
  split; [done|].
  assert (Hlinks : querySelectorAll navLinkSelector (doc (exec updateActiveNavLink w))
                   = querySelectorAll navLinkSelector (doc w)).
  { rewrite updateActiveNavLink_doc. apply navLinks_marked. }
  rewrite (marked_elem (exec updateActiveNavLink w)), Hact, Hlinks.
  rewrite (marked_elem w).
  case_decide; [|done].
  destruct (get_elem q (doc w)) as [e|]; simpl; [|done].
  by rewrite markLink_idem.
Qed.

(** ** [handleNavbarScroll] *)

Lemma querySelector_Some s d p :
  querySelector (Simple s) d = Some p ->
  exists e, get_elem p d = Some e /\ matches_simple s e = true.
Proof.
  unfold querySelector, querySelectorAll. intros H.
  apply head_Some in H as [l Hl].
  assert (Hin : p ∈ filter (fun p => matches (Simple s) d p = true) (forest_paths d))
    by (rewrite Hl; left).
  apply list_elem_of_filter in Hin as [Hm _]. cbn [matches] in Hm.
  unfold matches_at in Hm. destruct (get_elem p d) as [e|]; [|done]. by exists e.
Qed.

Lemma handleNavbarScroll_doc w el :
  querySelector (Simple (SelTag "nav")) (doc w) = Some el ->
  doc (exec handleNavbarScroll w)
  = set_elem (setAttribute "aria-label"
                (if negb (Qle_bool (scrollY w) 80)
                 then "Menu di navigazione principale (sfondo visibile)"
                 else "Menu di navigazione principale (trasparente)")) el
      (set_elem (classList_toggle "scrolled" (negb (Qle_bool (scrollY w) 80))) el (doc w)).
Proof. intros H. unfold exec, handleNavbarScroll, bind, gets. by rewrite H. Qed.

(** X6: [handleNavbarScroll] gives the first [nav] element the class
    'scrolled' exactly when the page is scrolled by more than 80 px, with
    the matching aria-label; its other classes and every other element
    stay as they are; without a [nav] element nothing happens. *)
Theorem handleNavbarScroll_marks_nav (w : World) :
  (querySelector (Simple (SelTag "nav")) (doc w) = None ->
   exec handleNavbarScroll w = w)
  /\ (forall el, querySelector (Simple (SelTag "nav")) (doc w) = Some el ->
      exists e e',
        get_elem el (doc w) = Some e
        /\ get_elem el (doc (exec handleNavbarScroll w)) = Some e'
        /\ ((80 < scrollY w)%Q ->
            ("scrolled" ∈ classes e')
            /\ getAttribute "aria-label" e'
               = Some "Menu di navigazione principale (sfondo visibile)")
        /\ ((scrollY w <= 80)%Q ->
            ("scrolled" ∉ classes e')
            /\ getAttribute "aria-label" e'
               = Some "Menu di navigazione principale (trasparente)")
        /\ (forall c, c <> "scrolled" -> c ∈ classes e' <-> c ∈ classes e)
        /\ (forall q, q <> el ->
            get_elem q (doc (exec handleNavbarScroll w)) = get_elem q (doc w))).
Proof.
  split.
  - intros H. unfold exec, handleNavbarScroll, bind, gets. by rewrite H.
  - intros el Hel. destruct (querySelector_Some _ _ _ Hel) as (e & He & _).
    rewrite (handleNavbarScroll_doc w el Hel).
    set (b := negb (Qle_bool (scrollY w) 80)).
    exists e. eexists. split; [done|]. split.
    { rewrite !get_elem_set_elem, !decide_True, He by done. reflexivity. }
    assert (Hb : b = true <-> (80 < scrollY w)%Q).
    { unfold b. rewrite negb_true_iff, <- not_true_iff_false, Qle_bool_iff.
      split; [apply Qnot_le_lt|apply Qlt_not_le]. }
    unfold setAttribute, classList_toggle, getAttribute. simpl.
    rewrite lookup_insert_eq. split; [|split; [|split]].
    + intros Hs. apply Hb in Hs. rewrite Hs. split; [|done].
      destruct (bool_decide ("scrolled" ∈ classes e)) eqn:Hin.
      * by apply bool_decide_eq_true in Hin.
      * apply elem_of_app. right. left.
    + intros Hs. assert (b = false) as ->.
      { apply not_true_iff_false. rewrite Hb. by apply Qle_not_lt. }
      split; [|done]. rewrite list_elem_of_filter. intros [Hne _]. by apply Hne.
    + intros c Hc. destruct b.
      * destruct (bool_decide ("scrolled" ∈ classes e)); [done|].
        rewrite elem_of_app, list_elem_of_singleton. tauto.
      * rewrite list_elem_of_filter. tauto.
    + intros q Hq. by rewrite !get_elem_set_elem, !decide_False.
Qed.

Lemma handleNavbarScroll_witness :
  exists e',
    get_elem [0; 0]%nat (doc (exec handleNavbarScroll sampleWorld)) = Some e'
    /\ ("scrolled" ∈ classes e')
    /\ getAttribute "aria-label" e'
       = Some "Menu di navigazione principale (sfondo visibile)".
Proof.
  destruct (proj2 (handleNavbarScroll_marks_nav sampleWorld) [0; 0]%nat)
    as (e & e' & _ & He' & Hs & _).
  - vm_compute. reflexivity.
  - exists e'. split; [exact He'|]. apply Hs. vm_compute. reflexivity.
Defined.

(** ** [trackEvent] and [handleDocumentClick] *)

Lemma trackEvent_effect a c l w :
  exec (trackEvent a c l) w
  = set_console (fun x => x ++
      (if bool_decide (hostname w = "localhost") || bool_decide (hostname w = "127.0.0.1")
       then [(Log, [VStr ("[Analytics] " +:+ a +:+ " | " +:+ c +:+ " | " +:+ l)])]
       else []))
      (set_gtag_events (fun x => x ++ (if has_gtag w then [(a, c, l)] else [])) w).
Proof.
  unfold exec, trackEvent, bind, gets, when. destruct w as
    [d ih ch sy vh pn se ha ho hp pu co sc fo fa li ti hg ge].
  destruct hg; cbn; destruct (bool_decide (ho = "localhost") || bool_decide (ho = "127.0.0.1"));
    cbn; unfold set_console, set_gtag_events; cbn; by rewrite ?app_nil_r.
Qed.

Lemma snoc_ne {T} (l : list T) (x : T) : l ++ [x] <> l.
Proof.
  intros H. apply (f_equal length) in H. rewrite length_app in H. simpl in H. lia.
Qed.

(** The three branches of [handleDocumentClick]. *)
Lemma click_button w tgt b :
  closest (SelId "goToReport") tgt (doc w) = Some b ->
  handleDocumentClick tgt w
  = (true,
     if fst (scrollToElement "report" ∅ w)
     then exec (trackEvent "button_click" "go_to_report" "homepage")
            (exec (scrollToElement "report" ∅) w)
     else exec (scrollToElement "report" ∅) w).
Proof.
  intros Hb. unfold handleDocumentClick, bind at 1, gets at 1. rewrite Hb.
  unfold bind at 1, gets at 1. unfold bind at 1, gets at 1.
  destruct (closest (SelTagClass "a" "smooth-scroll") tgt (doc w));
    destruct (closest (SelTagAttr "a" "download") tgt (doc w));
    unfold exec, bind; destruct (scrollToElement "report" ∅ w) as [[|] w1]; simpl;
    try done; by destruct (trackEvent _ _ _ w1).
Qed.

Lemma click_smooth_valid w tgt link href :
  closest (SelId "goToReport") tgt (doc w) = None ->
  closest (SelTagClass "a" "smooth-scroll") tgt (doc w) = Some link ->
  get_elem link (doc w) ≫= getAttribute "href" = Some href ->
  validateHref (Some href) = VBool true ->
  handleDocumentClick tgt w
  = (true,
     if fst (scrollToElement (substring1 href) ∅ w)
     then exec (trackEvent "navigation" "smooth_scroll" (substring1 href))
            (exec (scrollToElement (substring1 href) ∅) w)
     else exec (scrollToElement (substring1 href) ∅) w).
Proof.
  intros Hb Hl Hh Hv. unfold handleDocumentClick, bind at 1, gets at 1. rewrite Hb.
  unfold bind at 1, gets at 1. rewrite Hl. unfold bind at 1, gets at 1.
  destruct (closest (SelTagAttr "a" "download") tgt (doc w));
    unfold bind at 1, gets at 1; rewrite Hh, Hv; simpl;
    unfold exec, bind;
    destruct (scrollToElement (substring1 href) ∅ w) as [[|] w1]; simpl;
    try done; by destruct (trackEvent _ _ _ w1).
Qed.

(** X7: [handleDocumentClick] calls [preventDefault] exactly for the
    clicks inside '#goToReport' or inside a smooth-scroll link; a click on
    a download link alone keeps its default action, so the download
    starts. *)
Theorem click_prevents_default_iff (w : World) (tgt : path) :
  fst (handleDocumentClick tgt w) = true
  <-> is_Some (closest (SelId "goToReport") tgt (doc w))
      \/ is_Some (closest (SelTagClass "a" "smooth-scroll") tgt (doc w)).
Proof.
  destruct (closest (SelId "goToReport") tgt (doc w)) as [b|] eqn:Hb.
  { rewrite (click_button w tgt b Hb). simpl. split; [by left|done]. }
  destruct (closest (SelTagClass "a" "smooth-scroll") tgt (doc w)) as [link|] eqn:Hl.
  { split; [by right|]. intros _.
    unfold handleDocumentClick, bind at 1, gets at 1. rewrite Hb.
    unfold bind at 1, gets at 1. rewrite Hl. unfold bind at 1, gets at 1.
    destruct (closest (SelTagAttr "a" "download") tgt (doc w));
      unfold bind at 1, gets at 1; unfold bind at 1;
      match goal with |- context [let (_, _) := ?x in _] => by destruct x end. }
  split.
  - unfold handleDocumentClick, bind at 1, gets at 1. rewrite Hb.
    unfold bind at 1, gets at 1. rewrite Hl. unfold bind at 1, gets at 1.
    destruct (closest (SelTagAttr "a" "download") tgt (doc w)); [|done].
    unfold bind at 1, gets at 1. unfold bind at 1.
    match goal with |- context [let (_, _) := ?x in _] => destruct x end.
    unfold bind at 1.
    match goal with |- context [let (_, _) := ?x in _] => by destruct x end.
  - intros [[? [=]]|[? [=]]].
Qed.

Lemma exec_eq {A} (m : M A) w a w' : m w = (a, w') -> exec m w = w'.
Proof. unfold exec. by intros ->. Qed.

(** What [scrollToElement] followed by a guarded [trackEvent] leaves. *)
Lemma scroll_then_track_found sid a c l w el :
  getElementById sid (doc w) = Some el ->
  (if fst (scrollToElement sid ∅ w)
   then exec (trackEvent a c l) (exec (scrollToElement sid ∅) w)
   else exec (scrollToElement sid ∅) w)
  = exec (trackEvent a c l)
      ((if bool_decide (el ∈ focusable w) then set_focused (Some el) else id)
         ((if has_pushState w
           then exec (pushState (pathname w +:+ search w +:+ "#" +:+ sid))
           else id)
            (set_scrolledIntoView (fun x => x ++ [(el, defaultOptions)]) w))).
Proof.
  intros Hel. pose proof (scrollToElement_found sid ∅ w el Hel) as Hf.
  rewrite (left_id_L ∅ (∪)) in Hf.
  rewrite (exec_eq _ _ _ _ Hf). by rewrite Hf.
Qed.

Lemma scroll_then_track_missing sid a c l w :
  getElementById sid (doc w) = None ->
  (if fst (scrollToElement sid ∅ w)
   then exec (trackEvent a c l) (exec (scrollToElement sid ∅) w)
   else exec (scrollToElement sid ∅) w)
  = set_console (fun x => x ++
      [(Warn, [VStr ("[Airbus Site] Element with ID '" +:+ sid +:+ "' not found")])]) w.
Proof.
  intros Hel. pose proof (scrollToElement_missing sid ∅ w Hel) as Hf.
  rewrite (exec_eq _ _ _ _ Hf). by rewrite Hf.
Qed.

Lemma scroll_then_track_quiet sid a c l w :
  scrolledIntoView
    (if fst (scrollToElement sid ∅ w)
     then exec (trackEvent a c l) (exec (scrollToElement sid ∅) w)
     else exec (scrollToElement sid ∅) w) = scrolledIntoView w ->
  gtag_events
    (if fst (scrollToElement sid ∅ w)
     then exec (trackEvent a c l) (exec (scrollToElement sid ∅) w)
     else exec (scrollToElement sid ∅) w) = gtag_events w.
Proof.
  destruct (getElementById sid (doc w)) as [el|] eqn:Hel.
  - rewrite (scroll_then_track_found sid a c l w el Hel), trackEvent_effect.
    destruct (has_pushState w), (bool_decide (el ∈ focusable w)); cbn; intros H;
      by apply snoc_ne in H.
  - by rewrite (scroll_then_track_missing sid a c l w Hel).
Qed.

(** X8: a click inside a smooth-scroll link whose href passes
    [validateHref] and names an existing element, in a browser with
    [history.pushState] and from a well-formed location: the element is
    scrolled into view with the default options, the focus moves to it
    when the browser can focus it and stays where it is otherwise, the
    URL keeps its path and query and its hash becomes the href, and one
    'navigation' event is tracked. *)
Theorem click_valid_smooth_link (w : World) (tgt link el : path) (href : string) :
  closest (SelId "goToReport") tgt (doc w) = None ->
  closest (SelTagClass "a" "smooth-scroll") tgt (doc w) = Some link ->
  get_elem link (doc w) ≫= getAttribute "href" = Some href ->
  validateHref (Some href) = VBool true ->
  getElementById (substring1 href) (doc w) = Some el ->
  has_pushState w = true ->
  well_formed_location w = true ->
  fst (handleDocumentClick tgt w) = true
  /\ scrolledIntoView (exec (handleDocumentClick tgt) w)
     = scrolledIntoView w ++ [(el, defaultOptions)]
  /\ focused (exec (handleDocumentClick tgt) w)
     = (if bool_decide (el ∈ focusable w) then Some el else focused w)
  /\ pathname (exec (handleDocumentClick tgt) w) = pathname w
  /\ search (exec (handleDocumentClick tgt) w) = search w
  /\ hash (exec (handleDocumentClick tgt) w) = href
  /\ pushed (exec (handleDocumentClick tgt) w)
     = pushed w ++ [pathname w +:+ search w +:+ href]
  /\ gtag_events (exec (handleDocumentClick tgt) w)
     = gtag_events w
       ++ (if has_gtag w then [("navigation", "smooth_scroll", substring1 href)] else []).
Proof.
  intros Hb Hl Hh Hv Hel Hpush Hwf.
  pose proof (getElementById_Some_nonempty _ _ _ Hel) as Hne.
  assert (Hhref : "#" +:+ substring1 href = href).
  { apply validateHref_true in Hv as (c & rest & [= ->] & _). reflexivity. }
  pose proof (click_smooth_valid w tgt link href Hb Hl Hh Hv) as Hw.
  rewrite (scroll_then_track_found _ _ _ _ w el Hel), Hpush, trackEvent_effect in Hw.
  rewrite (exec_eq _ _ _ _ Hw), Hw.
  assert (Hsafe : hash_of_fragment (remove_tab_newline (drop_trailing (substring1 href)))
                  = href).
  { rewrite <- Hhref at 2. apply hash_of_fragment_safe; [|done].
    apply validateHref_true in Hv as (c & rest & [= ->] & Hc & Hr).
    apply word_fragment_safe. simpl. rewrite Hr, andb_true_r.
    unfold is_word_or_hyphen, is_word. by rewrite Hc. }
  destruct (bool_decide (el ∈ focusable w));
    cbn [fst exec pushState modify snd set_focused set_location set_pushed set_console
         set_gtag_events set_scrolledIntoView scrolledIntoView focused pathname search
         hash pushed gtag_events has_gtag hostname id];
    rewrite (parse_url_hash w _ Hwf), Hsafe, Hhref; repeat split.
Qed.

(** On the sample page the report section has no tabindex: the click
    on its link changes the hash and leaves the focus where it was. *)
Lemma click_valid_smooth_link_witness :
  hash (exec (handleDocumentClick [0; 0; 3]%nat) sampleWorld) = "#report"
  /\ focused (exec (handleDocumentClick [0; 0; 3]%nat) sampleWorld) = None.
Proof.
  destruct (click_valid_smooth_link sampleWorld [0; 0; 3]%nat [0; 0; 3]%nat
              [0; 1; 2]%nat "#report")
    as (_ & _ & Hf & _ & _ & Hh & _);
    [vm_compute; reflexivity..|].
  split; [exact Hh|exact Hf].
Defined.

(** X9: in click handling, analytics follow the scroll: for a click
    inside '#goToReport' or inside a smooth-scroll link, when nothing is
    scrolled into view no event is tracked. *)
Theorem click_tracks_only_scrolls (w : World) (tgt : path) :
  is_Some (closest (SelId "goToReport") tgt (doc w))
  \/ is_Some (closest (SelTagClass "a" "smooth-scroll") tgt (doc w)) ->
  scrolledIntoView (exec (handleDocumentClick tgt) w) = scrolledIntoView w ->
  gtag_events (exec (handleDocumentClick tgt) w) = gtag_events w.
Proof.
  intros Hcase.
  destruct (closest (SelId "goToReport") tgt (doc w)) as [b|] eqn:Hb.
  { rewrite (exec_eq _ _ _ _ (click_button w tgt b Hb)). apply scroll_then_track_quiet. }
  destruct Hcase as [[? [=]]|[link Hl]].
  assert (Hinv : truthy (validateHref (get_elem link (doc w) ≫= getAttribute "href")) = false
                 -> gtag_events (exec (handleDocumentClick tgt) w) = gtag_events w).
  { intros Ht. by rewrite (exec_eq _ _ _ _ (handleDocumentClick_invalid w tgt link Hb Hl Ht)). }
  destruct (get_elem link (doc w) ≫= getAttribute "href") as [href|] eqn:Hh;
    [|intros _; by apply Hinv].
  destruct (truthy (validateHref (Some href))) eqn:Ht; [|intros _; by apply Hinv].
  apply validateHref_truthy in Ht.
  rewrite (exec_eq _ _ _ _ (click_smooth_valid w tgt link href Hb Hl Hh Ht)).
  apply scroll_then_track_quiet.
Qed.

Lemma click_tracks_only_scrolls_witness :
  gtag_events (exec (handleDocumentClick [0; 0; 2]%nat) sampleWorld) = [].
Proof.
  apply (click_tracks_only_scrolls sampleWorld [0; 0; 2]%nat).
  - right. vm_compute. eexists. reflexivity.
  - vm_compute. reflexivity.
Defined.

(** ** Download feedback *)

Lemma click_download w tgt link :
  closest (SelId "goToReport") tgt (doc w) = None ->
  closest (SelTagClass "a" "smooth-scroll") tgt (doc w) = None ->
  closest (SelTagAttr "a" "download") tgt (doc w) = Some link ->
  handleDocumentClick tgt w
  = (false,
     exec (showDownloadFeedback link)
       (exec (trackEvent "download" "report_pdf"
                (if truthy (of_attr (attr_at "download" link (doc w)))
                 then default "" (attr_at "download" link (doc w))
                 else "document")) w)).
Proof.
  intros Hb Hl Hd. unfold handleDocumentClick, bind at 1, gets at 1. rewrite Hb.
  unfold bind at 1, gets at 1. rewrite Hl. unfold bind at 1, gets at 1. rewrite Hd.
  unfold bind at 1, gets at 1. unfold exec, bind, attr_at.
  destruct (trackEvent _ _ _ w) as [[] w1]. simpl.
  by destruct (showDownloadFeedback link w1) as [[] w2].
Qed.

Lemma showDownloadFeedback_gtag link : appends gtag_events [] (showDownloadFeedback link).
Proof. frame. Qed.

(** X10: a click on a download link (outside '#goToReport' and any
    smooth-scroll link) does not prevent the default action and tracks
    one 'download' event whose label is the value of the download
    attribute, or 'document' when that value is empty: the label is never
    empty. *)
Theorem click_download_label (w : World) (tgt link : path) :
  closest (SelId "goToReport") tgt (doc w) = None ->
  closest (SelTagClass "a" "smooth-scroll") tgt (doc w) = None ->
  closest (SelTagAttr "a" "download") tgt (doc w) = Some link ->
  exists label,
    label <> ""
    /\ (forall v, attr_at "download" link (doc w) = Some v -> v <> "" -> label = v)
    /\ (attr_at "download" link (doc w) = Some "" -> label = "document")
    /\ fst (handleDocumentClick tgt w) = false
    /\ gtag_events (exec (handleDocumentClick tgt) w)
       = gtag_events w ++ (if has_gtag w then [("download", "report_pdf", label)] else []).
Proof.
  intros Hb Hl Hd. pose proof (click_download w tgt link Hb Hl Hd) as Hw.
  rewrite (exec_eq _ _ _ _ Hw), Hw. clear Hw.
  set (label := if truthy _ then _ else _).
  exists label. split; [|split; [|split; [|split; [done|]]]].
  - subst label. destruct (attr_at "download" link (doc w)) as [v|]; simpl; [|done].
    case_bool_decide; simpl; [done|]. done.
  - intros v Hv Hne. subst label. rewrite Hv. simpl. by rewrite bool_decide_eq_false_2.
  - intros Hv. subst label. by rewrite Hv.
  - unfold exec at 1. rewrite showDownloadFeedback_gtag, app_nil_r.
    by rewrite trackEvent_effect.
Qed.

Lemma click_download_label_witness :
  gtag_events (exec (handleDocumentClick [0; 1; 2; 0; 0]%nat) sampleWorld)
  = [("download", "report_pdf", "report.pdf")].
Proof.
  destruct (click_download_label sampleWorld [0; 1; 2; 0; 0]%nat [0; 1; 2; 0]%nat)
    as (label & _ & Hv & _ & _ & Hg); [vm_compute; reflexivity..|].
  rewrite Hg. rewrite (Hv "report.pdf"); [reflexivity|vm_compute; reflexivity|discriminate].
Defined.

Section Subtrees.

Variable f : node -> node.

Lemma node_get_alter_same p : forall n,
  node_get p (node_alter f p n) = f <$> node_get p n.
Proof.
  induction p as [|i p IH]; intros n; [done|].
  destruct n as [s|d ch]; [done|]. cbn [node_get node_alter on_children children_of].
  rewrite list_lookup_alter_eq. destruct (ch !! i) as [c|]; [apply IH|done].
Qed.

Lemma get_node_alter_same p d :
  get_node p (alter_node f p d) = f <$> get_node p d.
Proof.
  destruct p as [|i p]; [done|]. cbn [get_node alter_node].
  rewrite list_lookup_alter_eq. destruct (d !! i) as [c|]; [apply node_get_alter_same|done].
Qed.

Lemma node_get_alter_off p : forall q n,
  ~ p `prefix_of` q ->
  node_get q (node_alter f p n) ≫= node_data = node_get q n ≫= node_data.
Proof.
  induction p as [|i p IH]; intros q n Hpq.
  - destruct Hpq. apply prefix_nil.
  - destruct q as [|j q]; [by destruct n|].
    destruct n as [s|d ch]; [done|]. cbn [node_get node_alter on_children children_of].
    destruct (decide (j = i)) as [->|Hne].
    + rewrite list_lookup_alter_eq. destruct (ch !! i) as [c|]; [|done].
      apply IH. intros Hp. apply Hpq. by apply prefix_cons.
    + by rewrite list_lookup_alter_ne.
Qed.

Lemma get_elem_alter_off p q d :
  ~ p `prefix_of` q -> get_elem q (alter_node f p d) = get_elem q d.
Proof.
  unfold get_elem. destruct p as [|i p]; [done|]. destruct q as [|j q]; [done|].
  intros Hpq. cbn [get_node alter_node].
  destruct (decide (j = i)) as [->|Hne].
  - rewrite list_lookup_alter_eq. destruct (d !! i) as [c|]; [|done].
    apply node_get_alter_off. intros Hp. apply Hpq. by apply prefix_cons.
  - by rewrite list_lookup_alter_ne.
Qed.

End Subtrees.

Lemma node_alter_compose f g p : forall n,
  node_alter g p (node_alter f p n) = node_alter (g ∘ f) p n.
Proof.
  induction p as [|i p IH]; intros n; [done|].
  destruct n as [s|d ch]; [done|]. cbn [node_alter on_children]. f_equal.
  rewrite list_alter_alter_eq. apply list_alter_ext; [|done]. intros c _. apply IH.
Qed.

Lemma alter_node_compose f g p d :
  alter_node g p (alter_node f p d) = alter_node (g ∘ f) p d.
Proof.
  destruct p as [|i p]; [done|]. cbn [alter_node].
  rewrite list_alter_alter_eq. apply list_alter_ext; [|done]. intros c _.
  apply node_alter_compose.
Qed.

Lemma node_alter_id f p : forall n m,
  node_get p n = Some m -> f m = m -> node_alter f p n = n.
Proof.
  induction p as [|i p IH]; intros n m; simpl.
  - by intros [= ->].
  - destruct n as [s|d ch]; [done|]. simpl. intros H Hf. f_equal.
    destruct (ch !! i) as [c|] eqn:Hc; simpl in H; [|done].
    rewrite <- (list_alter_id id ch i) at 2 by done.
    apply list_alter_ext; [|done]. intros x Hx. rewrite Hc in Hx. injection Hx as <-.
    by apply (IH c m).
Qed.

Lemma alter_node_id f p d m :
  get_node p d = Some m -> f m = m -> alter_node f p d = d.
Proof.
  destruct p as [|i p]; [done|]. simpl. intros H Hf.
  destruct (d !! i) as [c|] eqn:Hc; simpl in H; [|done].
  rewrite <- (list_alter_id id d i) at 2 by done.
  apply list_alter_ext; [|done]. intros x Hx. rewrite Hc in Hx. injection Hx as <-.
  by apply (node_alter_id f p c m).
Qed.

Lemma elem_querySelector_Some sel p d b :
  elem_querySelector sel p d = Some b ->
  matches sel d b = true /\ is_descendant p b = true.
Proof.
  unfold elem_querySelector, querySelectorAll. intros H.
  apply head_Some in H as [l Hl].
  assert (Hin : b ∈ filter (fun q => is_descendant p q = true)
                  (filter (fun q => matches sel d q = true) (forest_paths d)))
    by (rewrite Hl; left).
  apply list_elem_of_filter in Hin as [Hd Hin].
  by apply list_elem_of_filter in Hin as [Hm _].
Qed.

Lemma get_elem_node p d e :
  get_elem p d = Some e -> exists ch, get_node p d = Some (Elem e ch).
Proof.
  unfold get_elem. destruct (get_node p d) as [[s|e' ch]|]; simpl; try done.
  intros [= ->]. by exists ch.
Qed.

Lemma removeAttribute_setAttribute a v e :
  getAttribute a e = None -> removeAttribute a (setAttribute a v e) = e.
Proof.
  unfold removeAttribute, setAttribute, getAttribute. destruct e as [t c m rt rb]. simpl.
  intros H. by rewrite delete_insert_eq, delete_id.
Qed.

Lemma showDownloadFeedback_button link b w :
  elem_querySelector (Simple (SelTag "button")) link (doc w) = Some b ->
  exec (showDownloadFeedback link) w
  = set_timeouts (fun ts => ts ++
      [(RestoreButton b (default "" (textContent <$> get_node link (doc w))), 2000%nat)])
      (set_doc (fun d => alter_node
         (on_data (setAttribute "disabled" "") ∘ set_textContent "⬇ Download avviato...") b d) w).
Proof.
  intros Hq. unfold showDownloadFeedback, exec, bind at 1, gets at 1.
  unfold bind at 1, gets at 1. rewrite Hq.
  unfold bind, modify, write_elem, setTimeout, modify, set_elem. simpl.
  destruct w. unfold set_timeouts, set_doc. cbn [doc timeouts].
  by rewrite alter_node_compose.
Qed.

Lemma restoreButton_effect b t w :
  exec (run_task (RestoreButton b t)) w
  = set_doc (fun d => alter_node (on_data (removeAttribute "disabled") ∘ set_textContent t) b d) w.
Proof.
  unfold run_task, exec, bind, modify, write_elem, modify, set_elem. simpl.
  destruct w. unfold set_doc. cbn [doc].
  by rewrite alter_node_compose.
Qed.

Lemma removeAttribute_set a v e :
  removeAttribute a (setAttribute a v e) = removeAttribute a e.
Proof. unfold removeAttribute, setAttribute. simpl. by rewrite delete_insert_eq. Qed.

(** X11: the download feedback and its timer.  Without a button below
    the link nothing happens.  With one, the button is disabled and shows
    the notice, nothing outside the button changes, and one 2000 ms timer
    is registered; when it fires the button is enabled again and its
    content is one text node holding the text the whole link had (none
    for an empty text).  When the button held just that text and was
    enabled, the timer restores the document exactly. *)
Theorem showDownloadFeedback_round_trip (w : World) (link : path) :
  (elem_querySelector (Simple (SelTag "button")) link (doc w) = None ->
   exec (showDownloadFeedback link) w = w)
  /\ forall b,
       elem_querySelector (Simple (SelTag "button")) link (doc w) = Some b ->
       exists e ch,
         get_node b (doc w) = Some (Elem e ch)
         /\ tag e = "button"
         /\ get_node b (doc (exec (showDownloadFeedback link) w))
            = Some (Elem (setAttribute "disabled" "" e) [Text "⬇ Download avviato..."])
         /\ (forall q, ~ b `prefix_of` q ->
               get_elem q (doc (exec (showDownloadFeedback link) w)) = get_elem q (doc w))
         /\ timeouts (exec (showDownloadFeedback link) w)
            = timeouts w
              ++ [(RestoreButton b (default "" (textContent <$> get_node link (doc w))),
                   2000%nat)]
         /\ get_node b
              (doc (exec (run_task
                            (RestoreButton b
                               (default "" (textContent <$> get_node link (doc w)))))
                      (exec (showDownloadFeedback link) w)))
            = Some (Elem (removeAttribute "disabled" e)
                      (if bool_decide (default "" (textContent <$> get_node link (doc w)) = "")
                       then []
                       else [Text (default "" (textContent <$> get_node link (doc w)))]))
         /\ (ch = [Text (default "" (textContent <$> get_node link (doc w)))] ->
             default "" (textContent <$> get_node link (doc w)) <> "" ->
             getAttribute "disabled" e = None ->
             doc (exec (run_task
                          (RestoreButton b
                             (default "" (textContent <$> get_node link (doc w)))))
                    (exec (showDownloadFeedback link) w))
             = doc w).
Proof.
  split.
  - intros Hq. unfold showDownloadFeedback, exec, bind at 1, gets at 1.
    unfold bind at 1, gets at 1. by rewrite Hq.
  - intros b Hq. set (T := default "" _).
    destruct (elem_querySelector_Some _ _ _ _ Hq) as [Hm _].
    cbn [matches] in Hm. unfold matches_at in Hm.
    destruct (get_elem b (doc w)) as [e|] eqn:He; [|done].
    destruct (get_elem_node _ _ _ He) as [ch Hn].
    exists e, ch. rewrite restoreButton_effect, (showDownloadFeedback_button _ _ _ Hq).
    fold T. cbn [doc timeouts set_doc set_timeouts].
    split; [done|]. split; [by apply bool_decide_eq_true in Hm|].
    split; [by rewrite get_node_alter_same, Hn|].
    split; [intros q Hqx; by apply get_elem_alter_off|].
    split; [done|].
    rewrite alter_node_compose. split.
    + rewrite get_node_alter_same, Hn. simpl. by rewrite removeAttribute_set.
    + intros -> HT Hd. apply (alter_node_id _ _ _ _ Hn). simpl.
      rewrite removeAttribute_setAttribute by done.
      by rewrite bool_decide_eq_false_2.
Qed.

Lemma showDownloadFeedback_round_trip_witness :
  doc (exec (run_task (RestoreButton [0; 1; 2; 0; 0]%nat "Download"))
         (exec (showDownloadFeedback [0; 1; 2; 0]%nat) sampleWorld))
  = doc sampleWorld.
Proof.
  destruct (showDownloadFeedback_round_trip sampleWorld [0; 1; 2; 0]%nat) as [_ H].
  destruct (H [0; 1; 2; 0; 0]%nat) as (e & ch & Hn & _ & _ & _ & _ & _ & Hr);
    [vm_compute; reflexivity|].
  vm_compute in Hn. injection Hn as <- <-.
  apply Hr; [vm_compute; reflexivity|discriminate|vm_compute; reflexivity].
Defined.

(** ** Keyboard navigation *)

Lemma shortcuts_Some k sid :
  shortcuts !! k = Some sid ->
  (k = "1" /\ sid = "homepage") \/ (k = "2" /\ sid = "performance")
  \/ (k = "3" /\ sid = "report").
Proof.
  unfold shortcuts. rewrite !lookup_insert_Some, lookup_singleton_Some.
  intros [[<- <-]|[_ [[<- <-]|[_ [<- <-]]]]]; auto.
Qed.

(** The handler in one equation: the activation of the target, or the
    shortcut followed by the Escape action. *)
Lemma handleKeyboardNavigation_unfold e w :
  handleKeyboardNavigation e w
  = if (bool_decide (key e = "Enter") || bool_decide (key e = " "))
       && from_option matchesCustomTabindex false (get_elem (keyTarget e) (doc w))
    then (true, exec (click (keyTarget e)) w)
    else
      (ctrlKey e && negb (altKey e) && bool_decide (is_Some (shortcuts !! key e)),
       (if bool_decide (key e = "Escape")
        then fun w1 => exec (trackEvent "keyboard_navigation" "escape_to_top" "")
                         (exec (scrollToElement "homepage" ∅) w1)
        else id)
         (if ctrlKey e && negb (altKey e)
          then match shortcuts !! key e with
               | Some sid => exec (trackEvent "keyboard_navigation" "shortcut" sid)
                               (exec (scrollToElement sid ∅) w)
               | None => w
               end
          else w)).
Proof.
  unfold handleKeyboardNavigation, bind at 1, gets at 1.
  destruct (_ && from_option _ _ _).
  - unfold exec, bind. by destruct (click (keyTarget e) w) as [[] w1].
  - unfold bind at 1.
    destruct (ctrlKey e && negb (altKey e)); simpl.
    + destruct (shortcuts !! key e) as [sid|]; simpl.
      * unfold exec, bind.
        destruct (scrollToElement sid ∅ w) as [ok w1]. simpl.
        destruct (trackEvent _ _ sid w1) as [[] w2]. simpl.
        case_bool_decide; simpl; [|done].
        destruct (scrollToElement "homepage" ∅ w2) as [ok' w3]. simpl.
        by destruct (trackEvent _ _ "" w3) as [[] w4].
      * unfold exec, bind. case_bool_decide; simpl; [|done].
        destruct (scrollToElement "homepage" ∅ w) as [ok' w3]. simpl.
        by destruct (trackEvent _ _ "" w3) as [[] w4].
    + unfold exec, bind. case_bool_decide; simpl; [|done].
      destruct (scrollToElement "homepage" ∅ w) as [ok' w3]. simpl.
      by destruct (trackEvent _ _ "" w3) as [[] w4].
Qed.

(** X12: for a key event on an element, with a key that names no
    property of [Object.prototype], [handleKeyboardNavigation] calls
    [preventDefault] exactly when Enter or Space is pressed on an element
    with a tabindex that is no button, link or input, or when 1, 2 or 3 is
    pressed with Ctrl and without Alt.  Escape alone never prevents the
    default action. *)
Theorem keyboard_prevents_default_iff (e : KeyboardEvent) (w : World) :
  is_Some (get_elem (keyTarget e) (doc w)) ->
  key e ∉ objectPrototypeKeys ->
  fst (handleKeyboardNavigation e w) = true
  <-> ((key e = "Enter" \/ key e = " ")
       /\ exists el, get_elem (keyTarget e) (doc w) = Some el
                     /\ matchesCustomTabindex el = true)
      \/ (ctrlKey e = true /\ altKey e = false /\ key e ∈ ["1"; "2"; "3"]).
Proof.
  intros _ _. rewrite handleKeyboardNavigation_unfold.
  assert (Hs : is_Some (shortcuts !! key e) <-> key e ∈ ["1"; "2"; "3"]).
  { split.
    - intros [sid Hs].
      apply shortcuts_Some in Hs as [[-> _]|[[-> _]|[-> _]]];
        apply (bool_decide_unpack _); vm_compute; exact I.
    - intros Hk. repeat (apply elem_of_cons in Hk as [->|Hk]); [by eexists..|].
      by apply elem_of_nil in Hk. }
  destruct (_ && from_option _ _ _) eqn:Hact; simpl.
  - split; [intros _; left|done].
    apply andb_true_iff in Hact as [Hk Ht]. apply orb_true_iff in Hk.
    rewrite !bool_decide_eq_true in Hk. split; [done|].
    destruct (get_elem (keyTarget e) (doc w)) as [el|]; [|done]. by exists el.
  - rewrite !andb_true_iff, negb_true_iff, bool_decide_eq_true, Hs.
    split; [intros [[? ?] ?]; by right|].
    intros [[Hk (el & Hel & Hm)]|(? & ? & ?)]; [|done].
    rewrite Hel in Hact. simpl in Hact. rewrite Hm in Hact.
    destruct Hk as [Hk|Hk]; rewrite Hk in Hact; done.
Qed.

Lemma keyboard_prevents_default_witness :
  fst (handleKeyboardNavigation (mkKeyboardEvent "2" true false [0; 1]%nat) sampleWorld)
  = true.
Proof.
  apply (keyboard_prevents_default_iff
           (mkKeyboardEvent "2" true false [0; 1]%nat) sampleWorld);
    [by eexists|apply (bool_decide_unpack _); vm_compute; exact I|].
  right. split; [reflexivity|]. split; [reflexivity|].
  apply (bool_decide_unpack _); vm_compute; exact I.
Defined.

Lemma shortcut_key_plain k sid :
  shortcuts !! k = Some sid -> k <> "Enter" /\ k <> " " /\ k <> "Escape".
Proof. intros H. apply shortcuts_Some in H as [[-> _]|[[-> _]|[-> _]]]; done. Qed.

Lemma scrollToElement_scrolls sid o w :
  scrolledIntoView (exec (scrollToElement sid o) w)
  = scrolledIntoView w
    ++ match getElementById sid (doc w) with
       | Some el => [(el, o ∪ defaultOptions)]
       | None => []
       end.
Proof.
  destruct (getElementById sid (doc w)) as [el|] eqn:Hel.
  - rewrite (exec_eq _ _ _ _ (scrollToElement_found sid o w el Hel)).
    by destruct (has_pushState w), (bool_decide (el ∈ focusable w)).
  - rewrite (exec_eq _ _ _ _ (scrollToElement_missing sid o w Hel)).
    simpl. by rewrite app_nil_r.
Qed.

Lemma scrollToElement_gtag sid o w :
  has_gtag (exec (scrollToElement sid o) w) = has_gtag w
  /\ gtag_events (exec (scrollToElement sid o) w) = gtag_events w.
Proof.
  destruct (getElementById sid (doc w)) as [el|] eqn:Hel.
  - rewrite (exec_eq _ _ _ _ (scrollToElement_found sid o w el Hel)).
    by destruct (has_pushState w), (bool_decide (el ∈ focusable w)).
  - by rewrite (exec_eq _ _ _ _ (scrollToElement_missing sid o w Hel)).
Qed.

(** X13: Ctrl+1, Ctrl+2 and Ctrl+3 (without Alt) scroll to 'homepage',
    'performance' and 'report'.  The 'shortcut' event is tracked whether
    or not the section exists: unlike the click handler, the key handler
    does not look at the result of [scrollToElement]. *)
Theorem keyboard_shortcut_always_tracked (e : KeyboardEvent) (w : World) (sid : string) :
  ctrlKey e = true -> altKey e = false -> shortcuts !! key e = Some sid ->
  fst (handleKeyboardNavigation e w) = true
  /\ scrolledIntoView (exec (handleKeyboardNavigation e) w)
     = scrolledIntoView w
       ++ match getElementById sid (doc w) with
          | Some el => [(el, defaultOptions)]
          | None => []
          end
  /\ gtag_events (exec (handleKeyboardNavigation e) w)
     = gtag_events w
       ++ (if has_gtag w then [("keyboard_navigation", "shortcut", sid)] else []).
Proof.
  intros Hc Ha Hs. destruct (shortcut_key_plain _ _ Hs) as (Hk1 & Hk2 & Hk3).
  unfold exec. rewrite handleKeyboardNavigation_unfold, Hc, Ha, Hs.
  rewrite !(bool_decide_eq_false_2 (key e = _)) by done. simpl.
  split; [done|].
  rewrite trackEvent_effect. cbn [scrolledIntoView gtag_events set_console set_gtag_events].
  destruct (scrollToElement_gtag sid ∅ w) as [-> ->].
  split; [|done]. rewrite scrollToElement_scrolls. by rewrite (left_id_L ∅ (∪)).
Qed.

Lemma keyboard_shortcut_witness :
  fst (handleKeyboardNavigation (mkKeyboardEvent "3" true false [0]%nat) sampleWorld) = true
  /\ gtag_events
       (exec (handleKeyboardNavigation (mkKeyboardEvent "3" true false [0]%nat)) sampleWorld)
     = [("keyboard_navigation", "shortcut", "report")].
Proof.
  destruct (keyboard_shortcut_always_tracked
              (mkKeyboardEvent "3" true false [0]%nat) sampleWorld "report")
    as (Hp & _ & Hg); [reflexivity..|].
  split; [exact Hp|exact Hg].
Defined.

(** X14: Escape scrolls to 'homepage' and tracks 'escape_to_top' with an
    empty label, found or not, without calling [preventDefault]; with
    Ctrl, Alt or both it does the same. *)
Theorem keyboard_escape (e : KeyboardEvent) (w : World) :
  key e = "Escape" ->
  fst (handleKeyboardNavigation e w) = false
  /\ scrolledIntoView (exec (handleKeyboardNavigation e) w)
     = scrolledIntoView w
       ++ match getElementById "homepage" (doc w) with
          | Some el => [(el, defaultOptions)]
          | None => []
          end
  /\ gtag_events (exec (handleKeyboardNavigation e) w)
     = gtag_events w
       ++ (if has_gtag w then [("keyboard_navigation", "escape_to_top", "")] else []).
Proof.
  intros Hk. unfold exec. rewrite handleKeyboardNavigation_unfold, Hk.
  assert (Hs : shortcuts !! "Escape" = None) by (vm_compute; reflexivity).
  rewrite Hs. simpl. split; [by rewrite andb_false_r|].
  assert (Hw : (if ctrlKey e && negb (altKey e) then w else w) = w) by (by destruct (_ && _)).
  rewrite Hw, trackEvent_effect.
  cbn [scrolledIntoView gtag_events set_console set_gtag_events].
  destruct (scrollToElement_gtag "homepage" ∅ w) as [-> ->].
  split; [|done]. rewrite scrollToElement_scrolls. by rewrite (left_id_L ∅ (∪)).
Qed.

Lemma keyboard_escape_witness :
  scrolledIntoView
    (exec (handleKeyboardNavigation (mkKeyboardEvent "Escape" true true [0]%nat)) sampleWorld)
  = [([0; 1; 0]%nat, defaultOptions)].
Proof.
  destruct (keyboard_escape (mkKeyboardEvent "Escape" true true [0]%nat) sampleWorld)
    as (_ & Hs & _); [reflexivity|].
  exact Hs.
Defined.

(** X15: once [initializeSite] has run (from a page without listeners),
    Enter or Space on an element with a custom tabindex is a click on that
    element: [preventDefault] is called and the world is the one
    [handleDocumentClick] leaves for that target. *)
Theorem keyboard_activates_click (w0 : World) (e : KeyboardEvent) (el : elem) :
  listeners w0 = [] ->
  key e = "Enter" \/ key e = " " ->
  get_elem (keyTarget e) (doc (exec initializeSite w0)) = Some el ->
  matchesCustomTabindex el = true ->
  handleKeyboardNavigation e (exec initializeSite w0)
  = (true, exec (handleDocumentClick (keyTarget e)) (exec initializeSite w0)).
Proof.
  intros Hl0 Hk Hel Hm. pose proof (initializeSite_listeners w0) as Hl.
  rewrite Hl0 in Hl. simpl in Hl.
  set (w := exec initializeSite w0) in *.
  rewrite handleKeyboardNavigation_unfold, Hel. simpl. rewrite Hm.
  assert (Hkey : bool_decide (key e = "Enter") || bool_decide (key e = " ") = true).
  { destruct Hk as [-> | ->]; done. }
  rewrite Hkey. simpl. f_equal.
  unfold click, exec at 1, bind at 1, gets at 1. rewrite Hl.
  unfold exec, runClickListeners, bind, when, isClickListener. simpl.
  by destruct (handleDocumentClick (keyTarget e) w) as [b w1].
Qed.

Lemma keyboard_activates_click_witness :
  scrolledIntoView
    (exec (handleKeyboardNavigation (mkKeyboardEvent " " false false [0; 0]%nat))
       (exec initializeSite cardWorld))
  = [([1]%nat, defaultOptions)].
Proof.
  unfold exec at 1.
  rewrite (keyboard_activates_click cardWorld (mkKeyboardEvent " " false false [0; 0]%nat)
             (Element "span" [] {[ "tabindex" := "0" ]} 0 50));
    [vm_compute; reflexivity|reflexivity|by right|vm_compute; reflexivity|
     vm_compute; reflexivity].
Defined.

(** ** Accessibility attributes *)

Lemma attr_kept_refl o : attr_kept o o.
Proof. by left. Qed.

Lemma attr_kept_trans o1 o2 o3 : attr_kept o1 o2 -> attr_kept o2 o3 -> attr_kept o1 o3.
Proof.
  intros [->|[H1 H2]] [->|[H3 H4]]; try (by left); try (by right).
Qed.

Lemma elem_kept_refl e : elem_kept e e.
Proof. repeat split; try done. apply attr_kept_refl. Qed.

Lemma elem_kept_trans e1 e2 e3 : elem_kept e1 e2 -> elem_kept e2 e3 -> elem_kept e1 e3.
Proof.
  intros (Ht & Hc & Hrt & Hrb & Ha) (Ht' & Hc' & Hrt' & Hrb' & Ha').
  repeat split; try congruence.
  - apply (attr_kept_trans _ (getAttribute a e2)); [apply Ha|apply Ha'].
  - intros Hn. rewrite (proj2 (Ha' a) Hn). apply (proj2 (Ha a) Hn).
Qed.

Lemma kept_refl d : kept d d.
Proof.
  split; [done|]. intros q. destruct (get_elem q d); constructor. apply elem_kept_refl.
Qed.

Lemma kept_trans d1 d2 d3 : kept d1 d2 -> kept d2 d3 -> kept d1 d3.
Proof.
  intros [Hp H] [Hp' H']. split; [congruence|]. intros q.
  specialize (H q). specialize (H' q).
  destruct H as [e1 e2 He|]; inversion H' as [e2' e3 He'|]; subst; constructor.
  by apply (elem_kept_trans _ e2).
Qed.

Lemma set_doc_back g w : set_doc (fun _ => doc w) (set_doc g w) = w.
Proof. by destruct w. Qed.

Lemma keeps_same {A} (m : M A) w : exec m w = w -> keeps m w.
Proof. intros H. split; rewrite H; [apply kept_refl|by destruct w]. Qed.

Lemma keeps_bind {A B} (m : M A) (k : A -> M B) w :
  keeps m w -> keeps (k (fst (m w))) (exec m w) -> keeps (bind m k) w.
Proof.
  unfold keeps, exec, bind. destruct (m w) as [a w1]. simpl.
  intros [H1 E1] [H2 E2]. split; [by apply (kept_trans _ (doc w1))|].
  transitivity (set_doc (fun _ => doc w) (set_doc (fun _ => doc w1) (snd (k a w1))));
    [by destruct (snd (k a w1))|by rewrite E2].
Qed.

Lemma getAttribute_setAttribute a b v e :
  getAttribute a (setAttribute b v e)
  = if decide (a = b) then Some v else getAttribute a e.
Proof.
  unfold getAttribute, setAttribute. simpl. case_decide as H.
  - subst. apply lookup_insert_eq.
  - by apply lookup_insert_ne.
Qed.

Lemma attr_at_set a b v p q d :
  attr_at a q (set_elem (setAttribute b v) p d)
  = if decide (q = p /\ a = b) then get_elem q d ≫= (fun _ => Some v)
    else attr_at a q d.
Proof.
  unfold attr_at. rewrite get_elem_set_elem.
  destruct (decide (q = p)) as [->|Hq].
  - destruct (get_elem p d) as [e|]; simpl; [|by case_decide].
    rewrite getAttribute_setAttribute.
    destruct (decide (a = b)) as [->|Ha]; case_decide; intuition congruence.
  - case_decide; intuition congruence.
Qed.

Lemma kept_setAttribute d p a v :
  a ∈ ["role"; "id"; "aria-labelledby"] -> v <> "" ->
  truthy (of_attr (attr_at a p d)) = false \/ attr_at a p d = Some v ->
  kept d (set_elem (setAttribute a v) p d).
Proof.
  intros Ha Hv Hold. split; [apply forest_paths_set_elem|]. intros q.
  rewrite get_elem_set_elem. destruct (decide (q = p)) as [->|Hq].
  - unfold attr_at in Hold. destruct (get_elem p d) as [e|]; constructor.
    simpl in Hold. repeat split; try done.
    + rewrite getAttribute_setAttribute. case_decide as E; [subst a0|by left].
      destruct Hold as [Hf|Hs]; [right|left; congruence].
      split; [done|]. simpl. by rewrite bool_decide_eq_false_2.
    + intros Hn. rewrite getAttribute_setAttribute. case_decide; [by subst|done].
  - destruct (get_elem q d); constructor. apply elem_kept_refl.
Qed.

Lemma labelSection_effect i sec w :
  exec (labelSection i sec) w
  = if unlabelled sec (doc w)
    then match elem_querySelector headingSelector sec (doc w) with
         | Some h =>
             set_doc (fun d =>
               set_elem (setAttribute "aria-labelledby" (headingId i h (doc w))) sec
                 (set_elem (setAttribute "id" (headingId i h (doc w))) h d)) w
         | None => w
         end
    else w.
Proof.
  unfold labelSection, unlabelled, attr_at, headingSelector, headingId, exec, bind, gets,
    when. simpl.
  destruct (negb _ && negb _); [|done].
  destruct (elem_querySelector _ sec (doc w)) as [h|]; [|done].
  unfold write_elem, modify. by destruct w.
Qed.

Lemma headingId_nonempty i h d : headingId i h d <> "".
Proof.
  unfold headingId. simpl. case_bool_decide; simpl; [|done].
  rewrite append_cons. discriminate.
Qed.

Lemma headingId_old i h d :
  truthy (of_attr (attr_at "id" h d)) = false \/ attr_at "id" h d = Some (headingId i h d).
Proof.
  unfold headingId, attr_at, elem_id. destruct (get_elem h d) as [e|]; simpl; [|by left].
  destruct (getAttribute "id" e) as [v|]; simpl; [|by left].
  case_bool_decide; simpl; [by left|by right].
Qed.

Lemma unlabelled_true sec d :
  unlabelled sec d = true ->
  truthy (of_attr (attr_at "aria-labelledby" sec d)) = false
  /\ truthy (of_attr (attr_at "aria-label" sec d)) = false.
Proof.
  unfold unlabelled. rewrite andb_true_iff, !negb_true_iff. tauto.
Qed.

Lemma keeps_labelSection i sec w : keeps (labelSection i sec) w.
Proof.
  unfold keeps. rewrite labelSection_effect.
  destruct (unlabelled sec (doc w)) eqn:Hu; [|split; [apply kept_refl|by destruct w]].
  destruct (elem_querySelector headingSelector sec (doc w)) as [h|];
    [|split; [apply kept_refl|by destruct w]].
  split; [|apply set_doc_back]. cbn [doc set_doc].
  apply unlabelled_true in Hu as [Hu _].
  apply (kept_trans _ (set_elem (setAttribute "id" (headingId i h (doc w))) h (doc w))).
  - apply kept_setAttribute; [|apply headingId_nonempty|apply headingId_old].
    apply (bool_decide_unpack _). vm_compute. exact I.
  - apply kept_setAttribute; [|apply headingId_nonempty|].
    + apply (bool_decide_unpack _). vm_compute. exact I.
    + left. rewrite attr_at_set. case_decide as E; [|done]. by destruct E.
Qed.

Lemma exec_bind {A B} (m : M A) (k : A -> M B) w :
  exec (bind m k) w = exec (k (fst (m w))) (exec m w).
Proof. unfold exec, bind. by destruct (m w). Qed.

Lemma keeps_forEach l : forall i w, keeps (forEach_indexed labelSection i l) w.
Proof.
  induction l as [|sec l IH]; intros i w; simpl.
  - by apply keeps_same.
  - apply keeps_bind; [apply keeps_labelSection|apply IH].
Qed.

(** [setupAccessibility] in two steps: the role of [main], then the
    sections found after that. *)
Lemma setupAccessibility_unfold w :
  exec setupAccessibility w
  = exec (forEach_indexed labelSection 0
            (querySelectorAll (Simple (SelTag "section"))
               (doc (match querySelector (Simple (SelTag "main")) (doc w) with
                     | Some m =>
                         if truthy (of_attr (attr_at "role" m (doc w))) then w
                         else set_doc (set_elem (setAttribute "role" "main") m) w
                     | None => w
                     end))))
      (match querySelector (Simple (SelTag "main")) (doc w) with
       | Some m =>
           if truthy (of_attr (attr_at "role" m (doc w))) then w
           else set_doc (set_elem (setAttribute "role" "main") m) w
       | None => w
       end).
Proof.
  unfold setupAccessibility, exec, bind, gets, attr_at. simpl.
  destruct (querySelector (Simple (SelTag "main")) (doc w)) as [m|]; [|done]. simpl.
  by destruct (truthy _).
Qed.

Lemma keeps_setupAccessibility w : keeps setupAccessibility w.
Proof.
  unfold keeps. rewrite setupAccessibility_unfold.
  set (w1 := match querySelector _ _ with Some _ => _ | None => _ end).
  assert (H1 : kept (doc w) (doc w1) /\ set_doc (fun _ => doc w) w1 = w).
  { subst w1. destruct (querySelector _ _) as [m|]; [|split; [apply kept_refl|by destruct w]].
    destruct (truthy _) eqn:Hr; [split; [apply kept_refl|by destruct w]|].
    split; [|apply set_doc_back]. cbn [doc set_doc].
    apply kept_setAttribute; [|done|by left].
    apply (bool_decide_unpack _). vm_compute. exact I. }
  destruct H1 as [K1 E1].
  destruct (keeps_forEach (querySelectorAll (Simple (SelTag "section")) (doc w1)) 0 w1)
    as [K2 E2].
  split; [by apply (kept_trans _ (doc w1))|].
  set (w2 := exec _ w1) in *.
  transitivity (set_doc (fun _ => doc w) (set_doc (fun _ => doc w1) w2));
    [by destruct w2|by rewrite E2].
Qed.

(** X16: [setupAccessibility] changes nothing but attributes of the
    document.  Every element keeps its place, tag, classes and box; an
    attribute other than role, id and aria-labelledby keeps its value; and
    those three are only ever filled in: a value that was there and not
    empty is never overwritten. *)
Theorem setupAccessibility_only_fills_in (w : World) :
  set_doc (fun _ => doc w) (exec setupAccessibility w) = w
  /\ forest_paths (doc (exec setupAccessibility w)) = forest_paths (doc w)
  /\ forall q e,
       get_elem q (doc w) = Some e ->
       exists e',
         get_elem q (doc (exec setupAccessibility w)) = Some e'
         /\ tag e' = tag e /\ classes e' = classes e
         /\ rect_top e' = rect_top e /\ rect_bottom e' = rect_bottom e
         /\ forall a,
              getAttribute a e' = getAttribute a e
              \/ (a ∈ ["role"; "id"; "aria-labelledby"]
                  /\ (getAttribute a e = None \/ getAttribute a e = Some "")
                  /\ exists v, v <> "" /\ getAttribute a e' = Some v).
Proof.
  destruct (keeps_setupAccessibility w) as [[Hp Hk] He].
  split; [done|]. split; [done|]. intros q e Hq. specialize (Hk q). rewrite Hq in Hk.
  inversion Hk as [e0 e' (Ht & Hc & Hrt & Hrb & Ha) E0 E'|]. subst e0.
  exists e'. repeat split; try done. intros a.
  destruct (Ha a) as [[Hs|[Hf Hn]] Hout]; [by left|].
  destruct (decide (a ∈ ["role"; "id"; "aria-labelledby"])) as [Hin|Hnin];
    [|left; by apply Hout].
  right. split; [done|]. split.
  - destruct (getAttribute a e) as [v|]; [right|by left].
    simpl in Hf. apply negb_false_iff, bool_decide_eq_true in Hf. by subst.
  - destruct (getAttribute a e') as [v|]; [|done]. exists v. split; [|done].
    simpl in Hn. by apply negb_true_iff, bool_decide_eq_false in Hn.
Qed.

Lemma kept_attr d d' a q v :
  kept d d' -> attr_at a q d = Some v -> v <> "" -> attr_at a q d' = Some v.
Proof.
  intros [_ H] Ha Hv. specialize (H q). unfold attr_at in *.
  destruct H as [e e' (_ & _ & _ & _ & He)|]; [|done]. simpl in *.
  destruct (He a) as [[->|[Hf _]] _]; [done|].
  rewrite Ha in Hf. simpl in Hf. by rewrite bool_decide_eq_false_2 in Hf.
Qed.

Lemma kept_is_Some d d' q :
  kept d d' -> is_Some (get_elem q d) -> is_Some (get_elem q d').
Proof. intros [_ H] [e He]. specialize (H q). rewrite He in H. by inversion H. Qed.

Lemma kept_labelled_by d d' s h : kept d d' -> labelled_by s h d -> labelled_by s h d'.
Proof.
  intros K (v & Hv & H1 & H2). exists v.
  split; [done|]. split; by apply (kept_attr d).
Qed.

Lemma kept_matches_tag d d' t q :
  kept d d' -> matches_at (SelTag t) d' q = matches_at (SelTag t) d q.
Proof.
  intros [_ H]. specialize (H q). unfold matches_at.
  destruct H as [e e' (Ht & _)|]; [|done]. simpl. by rewrite Ht.
Qed.

Lemma kept_sections d d' t :
  kept d d' ->
  querySelectorAll (Simple (SelTag t)) d' = querySelectorAll (Simple (SelTag t)) d.
Proof.
  intros K. unfold querySelectorAll. rewrite (proj1 K).
  apply list_filter_iff. intros q. cbn [matches]. by rewrite (kept_matches_tag d d').
Qed.

Lemma kept_heading d d' s :
  kept d d' ->
  elem_querySelector headingSelector s d' = elem_querySelector headingSelector s d.
Proof.
  intros K. unfold elem_querySelector, querySelectorAll. rewrite (proj1 K).
  do 2 f_equal. apply list_filter_iff. intros q. unfold headingSelector. cbn [matches existsb].
  by rewrite !(kept_matches_tag d d').
Qed.

Lemma labelSection_other i sec s w :
  sec <> s -> unlabelled s (doc w) = true ->
  unlabelled s (doc (exec (labelSection i sec) w)) = true.
Proof.
  intros Hne Hu. rewrite labelSection_effect.
  destruct (unlabelled sec (doc w)); [|done].
  destruct (elem_querySelector headingSelector sec (doc w)) as [h|]; [|done].
  cbn [doc set_doc]. unfold unlabelled in *. rewrite !attr_at_set.
  rewrite !(decide_False (P := s = sec /\ _)) by (intros [? _]; congruence).
  by rewrite !(decide_False (P := s = h /\ _)) by (intros [_ ?]; discriminate).
Qed.

Lemma labelSection_visit i s h w :
  unlabelled s (doc w) = true ->
  elem_querySelector headingSelector s (doc w) = Some h ->
  is_Some (get_elem s (doc w)) -> is_Some (get_elem h (doc w)) ->
  labelled_by s h (doc (exec (labelSection i s) w)).
Proof.
  intros Hu Hh [es Hs] [eh Heh]. rewrite labelSection_effect, Hu, Hh. cbn [doc set_doc].
  exists (headingId i h (doc w)). split; [apply headingId_nonempty|].
  rewrite !attr_at_set.
  rewrite (decide_True (P := s = s /\ _)) by done.
  rewrite (decide_False (P := h = s /\ _)) by (intros [_ ?]; discriminate).
  rewrite (decide_True (P := h = h /\ _)) by done.
  rewrite get_elem_set_elem, Hs, Heh. by case_decide.
Qed.

Lemma forEach_labels s h l : forall i w,
  elem_querySelector headingSelector s (doc w) = Some h ->
  is_Some (get_elem s (doc w)) -> is_Some (get_elem h (doc w)) ->
  (unlabelled s (doc w) = true /\ s ∈ l) \/ labelled_by s h (doc w) ->
  labelled_by s h (doc (exec (forEach_indexed labelSection i l) w)).
Proof.
  induction l as [|sec l IH]; intros i w Hh Hs Heh H.
  - destruct H as [[_ H]|H]; [by apply elem_of_nil in H|done].
  - cbn [forEach_indexed]. rewrite exec_bind.
    destruct (keeps_labelSection i sec w) as [K _].
    set (w1 := exec (labelSection i sec) w) in *.
    apply IH.
    + by rewrite (kept_heading _ _ _ K).
    + by apply (kept_is_Some _ _ _ K).
    + by apply (kept_is_Some _ _ _ K).
    + destruct H as [[Hu Hin]|H]; [|right; by apply (kept_labelled_by _ _ _ _ K)].
      destruct (decide (sec = s)) as [->|Hne].
      * right. by apply labelSection_visit.
      * left. split; [by apply labelSection_other|].
        apply elem_of_cons in Hin as [->|Hin]; [done|exact Hin].
Qed.

Lemma querySelectorAll_elem sel d q :
  q ∈ querySelectorAll (Simple sel) d -> is_Some (get_elem q d).
Proof.
  unfold querySelectorAll. intros H. apply list_elem_of_filter in H as [H _].
  cbn [matches] in H. unfold matches_at in H. by destruct (get_elem q d).
Qed.

(** X17: after [setupAccessibility] the [main] element, when there is
    one, has a non-empty role: the one it had, or 'main' when it had none
    or an empty one. *)
Theorem setupAccessibility_main_role (w : World) (m : path) :
  querySelector (Simple (SelTag "main")) (doc w) = Some m ->
  attr_at "role" m (doc (exec setupAccessibility w))
  = Some (if truthy (of_attr (attr_at "role" m (doc w)))
          then default "" (attr_at "role" m (doc w))
          else "main")
  /\ attr_at "role" m (doc (exec setupAccessibility w)) <> Some "".
Proof.
  intros Hm. destruct (querySelector_Some _ _ _ Hm) as (e & He & _).
  rewrite setupAccessibility_unfold, Hm.
  set (w1 := if truthy _ then w else _).
  destruct (keeps_forEach (querySelectorAll (Simple (SelTag "section")) (doc w1)) 0 w1)
    as [K _].
  assert (H1 : exists v, v <> ""
            /\ attr_at "role" m (doc w1) = Some v
            /\ v = if truthy (of_attr (attr_at "role" m (doc w)))
                   then default "" (attr_at "role" m (doc w)) else "main").
  { subst w1. destruct (truthy _) eqn:Hr.
    - destruct (attr_at "role" m (doc w)) as [v|]; [|done]. exists v. simpl in Hr.
      apply negb_true_iff, bool_decide_eq_false in Hr. done.
    - exists "main". split; [done|]. split; [|done]. cbn [doc set_doc].
      rewrite attr_at_set, He. by case_decide as E; [|destruct E]. }
  destruct H1 as (v & Hv & Hv1 & <-).
  rewrite (kept_attr _ _ _ _ _ K Hv1 Hv). split; [done|]. by intros [= ->].
Qed.

Lemma setupAccessibility_main_role_witness :
  attr_at "role" [0; 1]%nat (doc (exec setupAccessibility sampleWorld)) = Some "main".
Proof.
  apply (setupAccessibility_main_role sampleWorld [0; 1]%nat). vm_compute. reflexivity.
Defined.

(** X18: a section that has neither aria-labelledby nor aria-label and
    holds a heading (h2, h3 or h4) is, after [setupAccessibility],
    labelled by its first heading: its aria-labelledby is the id of that
    heading, which is not empty and is the id the heading had when it had
    one. *)
Theorem setupAccessibility_labels_section (w : World) (s h : path) :
  s ∈ querySelectorAll (Simple (SelTag "section")) (doc w) ->
  unlabelled s (doc w) = true ->
  elem_querySelector headingSelector s (doc w) = Some h ->
  exists v,
    v <> ""
    /\ attr_at "aria-labelledby" s (doc (exec setupAccessibility w)) = Some v
    /\ attr_at "id" h (doc (exec setupAccessibility w)) = Some v
    /\ forall v0, attr_at "id" h (doc w) = Some v0 -> v0 <> "" -> v = v0.
Proof.
  intros Hin Hu Hh. destruct (keeps_setupAccessibility w) as [K _].
  assert (L : labelled_by s h (doc (exec setupAccessibility w))).
  { rewrite setupAccessibility_unfold.
    set (w1 := match querySelector _ _ with Some _ => _ | None => _ end).
    assert (H1 : kept (doc w) (doc w1) /\ unlabelled s (doc w1) = true).
    { subst w1. destruct (querySelector _ _) as [m|]; [|split; [apply kept_refl|done]].
      destruct (truthy _) eqn:Hr; [split; [apply kept_refl|done]|].
      cbn [doc set_doc]. split.
      - apply kept_setAttribute; [|done|by left].
        apply (bool_decide_unpack _). vm_compute. exact I.
      - unfold unlabelled in *. rewrite !attr_at_set.
        by rewrite !(decide_False (P := _ /\ _)) by (intros [_ ?]; discriminate). }
    destruct H1 as [K1 Hu1].
    assert (Hs : is_Some (get_elem s (doc w))) by (by apply querySelectorAll_elem in Hin).
    assert (Heh : is_Some (get_elem h (doc w))).
    { destruct (elem_querySelector_Some _ _ _ _ Hh) as [Hm _].
      unfold headingSelector in Hm. cbn [matches existsb] in Hm. unfold matches_at in Hm.
      by destruct (get_elem h (doc w)). }
    apply forEach_labels.
    - by rewrite (kept_heading _ _ _ K1).
    - by apply (kept_is_Some _ _ _ K1).
    - by apply (kept_is_Some _ _ _ K1).
    - left. split; [done|]. by rewrite (kept_sections _ _ _ K1). }
  destruct L as (v & Hv & L1 & L2). exists v. repeat split; try done.
  intros v0 H0 Hv0. rewrite (kept_attr _ _ _ _ _ K H0 Hv0) in L2. congruence.
Qed.

Lemma setupAccessibility_labels_section_witness :
  attr_at "aria-labelledby" [0; 1; 0]%nat (doc (exec setupAccessibility sampleWorld))
  = attr_at "id" [0; 1; 0; 0]%nat (doc (exec setupAccessibility sampleWorld)).
Proof.
  destruct (setupAccessibility_labels_section sampleWorld [0; 1; 0]%nat [0; 1; 0; 0]%nat)
    as (v & _ & H1 & H2 & _);
    [apply (bool_decide_unpack _); vm_compute; exact I|vm_compute; reflexivity..|].
  by rewrite H1, H2.
Defined.

(** ** Scrolling *)

(** X19: when the element exists, [scrollToElement] (on a page with a
    well-formed location, where [history.pushState] is defined) scrolls
    it into view once, with the options of the caller over the defaults
    (behavior smooth, block start, inline nearest); the focus moves to
    the element when the browser can focus it, and stays where it is
    otherwise; the document and the console are left alone. *)
Theorem scrollToElement_merges_options (targetId : string) (options : gmap string string)
    (w : World) (el : path) :
  getElementById targetId (doc w) = Some el ->
  (has_pushState w = true -> well_formed_location w = true) ->
  exists o,
    scrolledIntoView (exec (scrollToElement targetId options) w)
    = scrolledIntoView w ++ [(el, o)]
    /\ (forall k, o !! k = match options !! k with
                           | Some v => Some v
                           | None => defaultOptions !! k
                           end)
    /\ focused (exec (scrollToElement targetId options) w)
       = (if bool_decide (el ∈ focusable w) then Some el else focused w)
    /\ doc (exec (scrollToElement targetId options) w) = doc w
    /\ console (exec (scrollToElement targetId options) w) = console w.
Proof.
  intros Hel _. exists (options ∪ defaultOptions).
  rewrite (exec_eq _ _ _ _ (scrollToElement_found targetId options w el Hel)).
  split; [by destruct (has_pushState w), (bool_decide (el ∈ focusable w))|]. split.
  - intros k. rewrite lookup_union.
    by destruct (options !! k), (defaultOptions !! k).
  - by destruct (has_pushState w), (bool_decide (el ∈ focusable w)).
Qed.

(** A section with a tabindex takes the focus; the option of the caller
    replaces the default. *)
Lemma scrollToElement_merges_options_witness :
  scrolledIntoView (exec (scrollToElement "report" {[ "behavior" := "auto" ]}) tabindexWorld)
  = [([0]%nat,
      {[ "behavior" := "auto"; "block" := "start"; "inline" := "nearest" ]})]
  /\ focused (exec (scrollToElement "report" {[ "behavior" := "auto" ]}) tabindexWorld)
     = Some [0]%nat.
Proof.
  destruct (scrollToElement_merges_options "report" {[ "behavior" := "auto" ]} tabindexWorld
              [0]%nat) as (o & Hs & Ho & Hf & _);
    [vm_compute; reflexivity|intros _; vm_compute; reflexivity|].
  split; [|exact Hf].
  rewrite Hs. simpl. do 2 f_equal. apply map_eq. intros k. rewrite Ho.
  destruct (decide (k = "behavior")) as [->|Hb]; [reflexivity|].
  rewrite lookup_singleton_ne by done. unfold defaultOptions.
  by rewrite !(lookup_insert_ne _ "behavior") by done.
Defined.

(** ** What [initializeSite] leaves alone *)

Lemma navigation_kept {A} (m : M A) w :
  appends (fun w => [navigation_state w]) [] m ->
  navigation_state (exec m w) = navigation_state w.
Proof. intros H. specialize (H w). rewrite app_nil_r in H. unfold exec. congruence. Qed.

Lemma setupAccessibility_navigation :
  appends (fun w => [navigation_state w]) [] setupAccessibility.
Proof. frame. Qed.

Lemma handleWindowResize_navigation :
  appends (fun w => [navigation_state w]) [] handleWindowResize.
Proof. frame. Qed.

Lemma handleNavbarScroll_navigation :
  appends (fun w => [navigation_state w]) [] handleNavbarScroll.
Proof. frame. Qed.

Lemma updateActiveNavLink_navigation :
  appends (fun w => [navigation_state w]) [] updateActiveNavLink.
Proof. frame. Qed.

Lemma addEventListener_navigation t ty l :
  appends (fun w => [navigation_state w]) [] (addEventListener t ty l).
Proof. frame. Qed.

Lemma hash_timer_navigation w :
  navigation_state
    (exec (h <- gets hash ;;
           when (truthy (VStr h)) (setTimeout ScrollToLocationHash 300) ;;;
           console_emit Log [VStr "[Airbus Site] Initialization complete"]) w)
  = (scrolledIntoView w, pushed w, focused w, (pathname w, search w, hash w),
     timeouts w ++ (if bool_decide (hash w = "") then []
                    else [(ScrollToLocationHash, 300%nat)])).
Proof.
  destruct w as [d ih ch sy vh pa se ha ho ps pu co sc fo fa li ti hg ge].
  unfold exec, bind, gets, when, console_emit, setTimeout, modify, navigation_state.
  cbn [hash truthy]. case_bool_decide; cbn; [by rewrite app_nil_r|done].
Qed.

Lemma navigation_state_eq w w' :
  navigation_state w' = navigation_state w ->
  (scrolledIntoView w', pushed w', focused w', (pathname w', search w', hash w'),
   timeouts w' ++ (if bool_decide (hash w' = "") then []
                   else [(ScrollToLocationHash, 300%nat)]))
  = (scrolledIntoView w, pushed w, focused w, (pathname w, search w, hash w),
     timeouts w ++ (if bool_decide (hash w = "") then []
                    else [(ScrollToLocationHash, 300%nat)])).
Proof.
  destruct w, w'. unfold navigation_state. cbn. intros [= -> -> -> -> -> -> ->]. done.
Qed.

Lemma initializeSite_setup_navigation w :
  navigation_state (exec initializeSite_setup w)
  = (scrolledIntoView w, pushed w, focused w, (pathname w, search w, hash w),
     timeouts w ++ (if bool_decide (hash w = "") then []
                    else [(ScrollToLocationHash, 300%nat)])).
Proof.
  unfold initializeSite_setup.
  assert (Hn : navigation_state w = navigation_state w) by done.
  revert Hn. generalize w at 1 3. intros x Hn.
  repeat
    match goal with
    | |- context [exec (bind ?m (fun _ => ?k)) x] =>
        let N := fresh "N" in
        let y := fresh "y" in
        assert (N : appends (fun w => [navigation_state w]) [] m)
          by first [ apply setupAccessibility_navigation
                   | apply handleWindowResize_navigation
                   | apply addEventListener_navigation
                   | apply handleNavbarScroll_navigation
                   | apply updateActiveNavLink_navigation ];
        rewrite (exec_bind m (fun _ => k) x); cbv beta;
        apply (navigation_kept m x) in N; rewrite Hn in N; clear Hn;
        generalize dependent (exec m x); clear x; intros x Hn
    end.
  rewrite hash_timer_navigation. by apply navigation_state_eq.
Qed.

(** X20: [initializeSite] scrolls nothing, pushes no URL, and leaves the
    focus and the location alone.  It registers one timer of 300 ms when
    the location has a hash, and none otherwise; when that timer runs,
    the element whose id is the hash without its first character is
    scrolled into view, if it exists then. *)
Theorem initializeSite_hash_timer (w : World) :
  scrolledIntoView (exec initializeSite w) = scrolledIntoView w
  /\ pushed (exec initializeSite w) = pushed w
  /\ focused (exec initializeSite w) = focused w
  /\ pathname (exec initializeSite w) = pathname w
  /\ search (exec initializeSite w) = search w
  /\ hash (exec initializeSite w) = hash w
  /\ timeouts (exec initializeSite w)
     = timeouts w
       ++ (if bool_decide (hash w = "") then [] else [(ScrollToLocationHash, 300%nat)])
  /\ scrolledIntoView (exec (run_task ScrollToLocationHash) (exec initializeSite w))
     = scrolledIntoView w
       ++ match getElementById (substring1 (hash w)) (doc (exec initializeSite w)) with
          | Some el => [(el, defaultOptions)]
          | None => []
          end.
Proof.
  assert (H : navigation_state (exec initializeSite w)
              = (scrolledIntoView w, pushed w, focused w, (pathname w, search w, hash w),
                 timeouts w ++ (if bool_decide (hash w = "") then []
                                else [(ScrollToLocationHash, 300%nat)]))).
  { rewrite initializeSite_unfold. by rewrite initializeSite_setup_navigation. }
  set (w' := exec initializeSite w) in *. clearbody w'.
  unfold navigation_state in H. injection H as Hs Hp Hf Hpa Hse Hh Ht.
  repeat (split; [done|]).
  unfold run_task. rewrite exec_bind. cbn [gets fst]. rewrite exec_bind.
  unfold exec at 1 3. cbn [gets ret snd]. rewrite Hh, scrollToElement_scrolls, Hs.
  by rewrite (left_id_L ∅ (∪)).
Qed.

(** ** The wrappers and the timers of other code *)

Section Foreign.
Import EventLoop.
Context {A S : Type}.
Variable func : A -> S -> S.
Variable wait : nat.

Lemma filter_foreign_delete (l : list (timer A S)) k t :
  l !! k = Some t -> is_foreign t = false ->
  filter (fun t => is_foreign t = true) (delete k l)
  = filter (fun t => is_foreign t = true) l.
Proof.
  intros Hk Ht. rewrite <- (take_drop_middle l k t Hk) at 2.
  rewrite delete_take_drop, !filter_app, filter_cons.
  by rewrite decide_False by congruence.
Qed.

Lemma filter_foreign_clear (l : list (timer A S)) i :
  Forall (fun t => timer_id t = i -> is_foreign t = false) l ->
  filter (fun t => is_foreign t = true) (filter (fun t => timer_id t ≠ i) l)
  = filter (fun t => is_foreign t = true) l.
Proof.
  induction 1 as [|t l Ht _ IH]; [done|].
  rewrite !filter_cons. destruct (decide (timer_id t ≠ i)) as [Hne|He].
  - rewrite filter_cons. by rewrite IH.
  - apply dec_stable in He. rewrite decide_False by (rewrite Ht; done). exact IH.
Qed.

Lemma foreign_clearTimeout (m : machine A S) :
  ids_fresh m -> foreign_timers (clearTimeout (timeout m) m) = foreign_timers m.
Proof.
  intros [_ Hto]. unfold foreign_timers. destruct m as [c p n [i|] s]; [|done].
  simpl. apply filter_foreign_clear. by apply (Hto i).
Qed.

Lemma foreign_call (m : machine A S) a :
  ids_fresh m ->
  foreign_timers (executedFunction (throttle func wait) a m) = foreign_timers m.
Proof.
  intros Hf. rewrite <- (foreign_clearTimeout m Hf).
  unfold foreign_timers. destruct m as [c p n [i|] s]; simpl;
    rewrite filter_app, filter_cons; simpl; by rewrite app_nil_r.
Qed.

Lemma foreign_later (m : machine A S) pos t a :
  ids_fresh m -> pending m !! pos = Some t -> timer_cb t = Later a ->
  foreign_timers (later (throttle func wait) a (remove_timer pos m)) = foreign_timers m.
Proof.
  intros [Hids Hto] Hpos Hcb.
  assert (Ht : is_foreign t = false) by (unfold is_foreign; by rewrite Hcb).
  unfold foreign_timers. destruct m as [c p n [i|] s]; simpl in *.
  - rewrite filter_foreign_clear; [by apply filter_foreign_delete with t|].
    destruct (Hto i eq_refl) as [_ Hall]. by apply Forall_delete.
  - by apply filter_foreign_delete with t.
Qed.

Lemma ids_fresh_fresh t0 n0 (others : list (nat * nat * (S -> S))) (s0 : S) :
  Forall (fun o => (o.1.1 < n0)%nat) others ->
  ids_fresh (A:=A) (fresh t0 n0 others s0).
Proof.
  intros H. split; [|done]. simpl.
  induction H as [|o os Ho _ IH]; constructor; done.
Qed.

Lemma Forall_filter_keep {T} (P Q : T -> Prop) `{forall x, Decision (Q x)} (l : list T) :
  Forall P l -> Forall P (filter Q l).
Proof.
  induction 1 as [|x l Hx _ IH]; [constructor|].
  rewrite filter_cons. destruct (decide (Q x)); [by constructor|done].
Qed.

Lemma ids_fresh_clear (m : machine A S) :
  ids_fresh m -> ids_fresh (clearTimeout (timeout m) m).
Proof.
  intros [Hids Hto]. destruct m as [c p n [i|] s]; [|done]. simpl in *.
  split; simpl.
  - by apply Forall_filter_keep.
  - intros j Hj. destruct (Hto j Hj) as [Hlt Hall]. split; [done|].
    by apply Forall_filter_keep.
Qed.

Lemma ids_fresh_step i (m m' : machine A S) o :
  ids_fresh m -> step (throttle func wait) i m = Some (m', o) -> ids_fresh m'.
Proof.
  intros Hf Hstep. destruct i as [a|pos|d|k delay]; simpl in Hstep.
  - injection Hstep as <- _. apply ids_fresh_clear in Hf as [Hids _].
    set (m1 := clearTimeout (timeout m) m) in *.
    split; simpl.
    + apply Forall_app. split; [|repeat constructor; simpl; lia].
      eapply Forall_impl; [exact Hids|]. simpl. intros; lia.
    + intros j [= <-]. split; [lia|]. apply Forall_app. split.
      * eapply Forall_impl; [exact Hids|]. simpl. intros t Hlt He. lia.
      * by repeat constructor.
  - destruct (pending m !! pos) as [t|] eqn:Hpos; [|done].
    destruct (bool_decide _); [|done].
    assert (Hd : ids_fresh (remove_timer pos m)).
    { destruct Hf as [Hids Hto]. split; simpl; [by apply Forall_delete|].
      intros j Hj. destruct (Hto j Hj) as [Hlt Hall]. split; [done|].
      by apply Forall_delete. }
    destruct (timer_cb t) as [a|k]; injection Hstep as <- _.
    + apply ids_fresh_clear in Hd. by destruct Hd.
    + by destruct Hd.
  - injection Hstep as <- _. by destruct Hf.
  - injection Hstep as <- _. destruct Hf as [Hids Hto]. split; simpl.
    + apply Forall_app. split; [|repeat constructor; simpl; lia].
      eapply Forall_impl; [exact Hids|]. simpl. intros; lia.
    + intros j Hj. destruct (Hto j Hj) as [Hlt Hall]. split; [lia|].
      apply Forall_app. split; [done|]. repeat constructor. simpl. lia.
Qed.

Lemma ids_fresh_run tr : forall (m m' : machine A S) os,
  ids_fresh m -> run (throttle func wait) tr m = Some (m', os) -> ids_fresh m'.
Proof.
  induction tr as [|i tr IH]; intros m m' os Hf Hrun; simpl in Hrun.
  - by injection Hrun as <- _.
  - destruct (step (throttle func wait) i m) as [[m1 o]|] eqn:Hstep; [|done].
    destruct (run (throttle func wait) tr m1) as [[m2 os']|] eqn:Hrun'; [|done].
    injection Hrun as <- _. apply (IH m1 m2 os'); [|done].
    by apply ids_fresh_step with i m o.
Qed.

End Foreign.

(** X21: the wrappers never cancel a timer of other code.  When timer
    ids are handed out once (the ids in the table when the wrapper is
    made are below the next id), then in every state a run reaches, a
    call of the wrapper and the run of its own timer leave the timers of
    other code in the table as they are. *)
Theorem wrappers_spare_foreign_timers {A S : Type} (func : A -> S -> S) (wait : nat)
    (w : EventLoop.wrapper A S) (t0 n0 : nat) (others : list (nat * nat * (S -> S)))
    (s0 : S) (tr : list (EventLoop.input A S)) (m : EventLoop.machine A S)
    (log : list (EventLoop.obs A)) :
  w = EventLoop.throttle func wait \/ w = EventLoop.debounce func wait ->
  Forall (fun o => (o.1.1 < n0)%nat) others ->
  EventLoop.run w tr (EventLoop.fresh t0 n0 others s0) = Some (m, log) ->
  (forall a, foreign_timers (EventLoop.executedFunction w a m) = foreign_timers m)
  /\ (forall pos t a,
        EventLoop.pending m !! pos = Some t ->
        EventLoop.timer_cb t = EventLoop.Later a ->
        foreign_timers (EventLoop.later w a (EventLoop.remove_timer pos m))
        = foreign_timers m).
Proof.
  intros Hw Hothers Hrun.
  assert (Hw' : w = EventLoop.throttle func wait) by (by destruct Hw).
  subst w.
  assert (Hf : ids_fresh m).
  { apply (ids_fresh_run func wait tr (EventLoop.fresh t0 n0 others s0) m log); [|done].
    by apply ids_fresh_fresh. }
  split.
  - intros a. by apply foreign_call.
  - intros pos t a Hpos Hcb. by apply foreign_later with t.
Qed.

Lemma wrappers_spare_foreign_timers_witness :
  length
    (foreign_timers
       (EventLoop.executedFunction (EventLoop.throttle record_args 16) 2%nat
          (EventLoop.executedFunction (EventLoop.throttle record_args 16) 1%nat
             (EventLoop.fresh 0 1 [(0%nat, 100%nat, fun s : list nat => s)] []))))
  = 1%nat.
Proof.
  destruct (wrappers_spare_foreign_timers record_args 16
              (EventLoop.throttle record_args 16) 0 1
              [(0%nat, 100%nat, fun s : list nat => s)] []
              [EventLoop.Call 1%nat]
              (EventLoop.executedFunction (EventLoop.throttle record_args 16) 1%nat
                 (EventLoop.fresh 0 1 [(0%nat, 100%nat, fun s : list nat => s)] []))
              [EventLoop.Called 0 1%nat]) as [H _].
  - by left.
  - repeat constructor.
  - reflexivity.
  - rewrite H. reflexivity.
Defined.

(** ** The value of [validateHref] *)

(** X22: [validateHref] returns a boolean exactly for a non-empty
    string; for a missing or empty href it returns the href itself (null
    or the empty string), which is falsy.  For an accepted href the
    target id the click handler takes from it, [href.substring(1)], is not
    empty, and '#' followed by it is the href. *)
Theorem validateHref_value (href : option string) :
  ((exists b, validateHref href = VBool b) <-> exists s, href = Some s /\ s <> "")
  /\ (href = None \/ href = Some "" -> validateHref href = of_attr href)
  /\ (truthy (validateHref href) = true <-> validateHref href = VBool true)
  /\ (validateHref href = VBool true ->
      substring1 (default "" href) <> ""
      /\ href = Some ("#" +:+ substring1 (default "" href))).
Proof.
  split; [|split; [by intros [-> | ->]|split; [apply validateHref_truthy|]]].
  - split.
    + intros [b Hb]. destruct href as [[|a s]|]; [done| |done]. by eexists.
    + intros (s & -> & Hs). destruct s as [|a s]; [done|].
      rewrite validateHref_nonempty.
      destruct (negb _); [by eexists|]. destruct (negb _); by eexists.
  - intros H. apply validateHref_true in H as (c & rest & -> & _ & _).
    split; [done|]. simpl. by rewrite append_cons, append_nil.
Qed.

(** ** The setup of [initializeSite], step by step *)

Lemma decorated_refl d : decorated d d.
Proof. split; [done|]. intros q. by destruct (get_elem q d); constructor. Qed.

Lemma decorated_trans d1 d2 d3 : decorated d1 d2 -> decorated d2 d3 -> decorated d1 d3.
Proof.
  intros [Hp H] [Hp' H']. split; [congruence|]. intros q.
  specialize (H q). specialize (H' q).
  destruct H as [e1 e2 [Ht Ha]|]; inversion H' as [e2' e3 [Ht' Ha']|]; subst; constructor.
  split; [congruence|]. intros a H1 H2. rewrite Ha' by done. by apply Ha.
Qed.

Lemma decorated_updateActiveNavLink w : decorated (doc w) (doc (exec updateActiveNavLink w)).
Proof.
  split; [rewrite updateActiveNavLink_doc; apply forest_paths_forEach|]. intros q.
  rewrite marked_elem. case_decide; destruct (get_elem q (doc w)) as [e|]; constructor;
    [|done].
  destruct (markLink_keeps (activeSection w) e) as (Ht & _ & _ & Ha & _).
  split; [done|]. intros a Ha1 _. by apply Ha.
Qed.

Lemma decorated_handleNavbarScroll w : decorated (doc w) (doc (exec handleNavbarScroll w)).
Proof.
  destruct (querySelector (Simple (SelTag "nav")) (doc w)) as [el|] eqn:Hel.
  - rewrite (handleNavbarScroll_doc w el Hel). split.
    + by rewrite !forest_paths_set_elem.
    + intros q. rewrite !get_elem_set_elem.
      case_decide; destruct (get_elem q (doc w)) as [e|]; constructor; [|done].
      split; [done|]. intros a _ Ha. unfold getAttribute, setAttribute, classList_toggle.
      simpl. by rewrite lookup_insert_ne.
  - assert (Hw : exec handleNavbarScroll w = w)
      by (unfold exec, handleNavbarScroll, bind, gets; by rewrite Hel).
    rewrite Hw. apply decorated_refl.
Qed.

Lemma decorated_attr d d' a q :
  decorated d d' -> a <> "aria-current" -> a <> "aria-label" ->
  attr_at a q d' = attr_at a q d.
Proof.
  intros [_ H] H1 H2. specialize (H q). unfold attr_at.
  destruct H as [e e' [_ Ha]|]; [|done]. simpl. by apply Ha.
Qed.

Lemma decorated_tag d d' t :
  decorated d d' ->
  querySelectorAll (Simple (SelTag t)) d' = querySelectorAll (Simple (SelTag t)) d.
Proof.
  intros [Hp H]. unfold querySelectorAll. rewrite Hp.
  apply list_filter_iff. intros q. cbn [matches]. unfold matches_at.
  specialize (H q). destruct H as [e e' [Ht _]|]; [|done]. simpl. by rewrite Ht.
Qed.

Lemma decorated_labelled_by d d' s h :
  decorated d d' -> labelled_by s h d -> labelled_by s h d'.
Proof.
  intros K (v & Hv & H1 & H2). exists v. split; [done|].
  by rewrite !(decorated_attr d d') by done.
Qed.

Lemma updateActiveNavLink_vh v w :
  exec updateActiveNavLink (set_vh_px v w) = set_vh_px v (exec updateActiveNavLink w).
Proof. by destruct w. Qed.

Lemma updateActiveNavLink_listeners f w :
  exec updateActiveNavLink (set_listeners f w) = set_listeners f (exec updateActiveNavLink w).
Proof. by destruct w. Qed.

Lemma handleNavbarScroll_vh v w :
  exec handleNavbarScroll (set_vh_px v w) = set_vh_px v (exec handleNavbarScroll w).
Proof.
  unfold exec, handleNavbarScroll, bind, gets. destruct w. cbn [doc set_vh_px].
  by destruct (querySelector _ _).
Qed.

Lemma handleNavbarScroll_listeners f w :
  exec handleNavbarScroll (set_listeners f w) = set_listeners f (exec handleNavbarScroll w).
Proof.
  unfold exec, handleNavbarScroll, bind, gets. destruct w. cbn [doc set_listeners].
  by destruct (querySelector _ _).
Qed.

Lemma exec_addEventListener t ty l w :
  exec (addEventListener t ty l) w = set_listeners (fun ls => ls ++ [(t, ty, l)]) w.
Proof. reflexivity. Qed.

Lemma setupAccessibility_outside w :
  set_doc (fun _ => doc w) (exec setupAccessibility w) = w.
Proof. apply keeps_setupAccessibility. Qed.

(** The setup as one expression: the four steps that write to the
    document, then the value of --vh, the listeners, the timer and the
    last line on the console. *)
Lemma initializeSite_setup_effect w :
  exec initializeSite_setup w
  = set_console (fun c => c ++ [(Log, [VStr "[Airbus Site] Initialization complete"])])
      (set_timeouts (fun ts => ts ++ (if bool_decide (hash w = "") then []
                                      else [(ScrollToLocationHash, 300%nat)]))
         (set_listeners (fun ls => ls ++
              [ (Window, "scroll", Throttled HandleNavbarScroll 16);
                (Window, "scroll", Throttled UpdateActiveNavLink 100);
                (Window, "resize", Debounced HandleWindowResize 250);
                (Document, "click", Direct HandleDocumentClick);
                (Document, "keydown", Direct HandleKeyboardNavigation);
                (Window, "beforeunload", Direct ResetScrollPosition);
                (Window, "popstate", Direct OnPopstate) ])
            (set_vh_px (Some (innerHeight w * 0.01)%float)
               (exec updateActiveNavLink
                  (exec handleNavbarScroll
                     (exec updateActiveNavLink (exec setupAccessibility w))))))).
Proof.
  unfold initializeSite_setup. rewrite exec_bind. cbv beta.
  pose proof (setupAccessibility_outside w) as Hout.
  set (w1 := exec setupAccessibility w) in *.
  assert (Hih : innerHeight w1 = innerHeight w) by (rewrite <- Hout; by destruct w1).
  assert (Hh1 : hash w1 = hash w) by (rewrite <- Hout; by destruct w1).
  clearbody w1. clear Hout. rewrite <- Hih, <- Hh1. clear Hih Hh1 w.
  rewrite exec_bind. cbv beta.
  assert (HR : exec handleWindowResize w1
               = set_vh_px (Some (innerHeight w1 * 0.01)%float) (exec updateActiveNavLink w1)).
  { rewrite <- updateActiveNavLink_vh. by destruct w1. }
  rewrite HR. clear HR.
  set (w2 := exec updateActiveNavLink w1).
  assert (Hh2 : hash w2 = hash w1) by (subst w2; by destruct w1).
  clearbody w2. rewrite <- Hh2. clear Hh2.
  generalize (innerHeight w1 * 0.01)%float. intros vh. clear w1.
  do 7 (rewrite exec_bind; cbv beta; rewrite exec_addEventListener).
  rewrite exec_bind. cbv beta.
  rewrite !handleNavbarScroll_listeners, handleNavbarScroll_vh.
  pose proof (navigation_kept _ w2 handleNavbarScroll_navigation) as Hn3.
  set (w3 := exec handleNavbarScroll w2) in *.
  assert (Hh3 : hash w3 = hash w2).
  { unfold navigation_state in Hn3. clearbody w3. by injection Hn3. }
  clearbody w3. rewrite <- Hh3. clear Hh3 Hn3 w2.
  rewrite exec_bind. cbv beta.
  rewrite !updateActiveNavLink_listeners, updateActiveNavLink_vh.
  set (w4 := exec updateActiveNavLink w3).
  assert (Hh4 : hash w4 = hash w3) by (subst w4; by destruct w3).
  clearbody w4. rewrite <- Hh4. clear Hh4 w3.
  destruct w4 as [d ih ch sy vh' pa se ha ho ps pu co sc fo fa li ti hg ge].
  unfold exec, bind, gets, when, setTimeout, console_emit, modify.
  cbn [hash set_listeners set_vh_px truthy snd fst].
  case_bool_decide;
    cbv [set_console set_timeouts set_listeners set_vh_px ret negb
         doc innerHeight clientHeight scrollY vh_px pathname search hash hostname
         has_pushState pushed console scrolledIntoView focused focusable listeners
         timeouts has_gtag gtag_events];
    rewrite <- ?app_assoc, ?app_nil_r; reflexivity.
Qed.

Lemma setupAccessibility_role w m :
  querySelector (Simple (SelTag "main")) (doc w) = Some m ->
  attr_at "role" m (doc (exec setupAccessibility w))
  = Some (if truthy (of_attr (attr_at "role" m (doc w)))
          then default "" (attr_at "role" m (doc w))
          else "main").
Proof.
  intros Hm. destruct (querySelector_Some _ _ _ Hm) as (e & He & _).
  rewrite setupAccessibility_unfold, Hm.
  set (w1 := if truthy _ then w else _).
  destruct (keeps_forEach (querySelectorAll (Simple (SelTag "section")) (doc w1)) 0 w1)
    as [K _].
  assert (H1 : exists v, v <> ""
            /\ attr_at "role" m (doc w1) = Some v
            /\ v = if truthy (of_attr (attr_at "role" m (doc w)))
                   then default "" (attr_at "role" m (doc w)) else "main").
  { subst w1. destruct (truthy _) eqn:Hr.
    - destruct (attr_at "role" m (doc w)) as [v|]; [|done]. exists v. simpl in Hr.
      apply negb_true_iff, bool_decide_eq_false in Hr. done.
    - exists "main". split; [done|]. split; [|done]. cbn [doc set_doc].
      rewrite attr_at_set, He. by case_decide as E; [|destruct E]. }
  destruct H1 as (v & Hv & Hv1 & <-).
  by rewrite (kept_attr _ _ _ _ _ K Hv1 Hv).
Qed.

Lemma setupAccessibility_labelled w s h :
  s ∈ querySelectorAll (Simple (SelTag "section")) (doc w) ->
  unlabelled s (doc w) = true ->
  elem_querySelector headingSelector s (doc w) = Some h ->
  labelled_by s h (doc (exec setupAccessibility w)).
Proof.
  intros Hin Hu Hh. rewrite setupAccessibility_unfold.
  set (w1 := match querySelector _ _ with Some _ => _ | None => _ end).
  assert (H1 : kept (doc w) (doc w1) /\ unlabelled s (doc w1) = true).
  { subst w1. destruct (querySelector _ _) as [m|]; [|split; [apply kept_refl|done]].
    destruct (truthy _) eqn:Hr; [split; [apply kept_refl|done]|].
    cbn [doc set_doc]. split.
    - apply kept_setAttribute; [|done|by left].
      apply (bool_decide_unpack _). vm_compute. exact I.
    - unfold unlabelled in *. rewrite !attr_at_set.
      by rewrite !(decide_False (P := _ /\ _)) by (intros [_ ?]; discriminate). }
  destruct H1 as [K1 Hu1].
  assert (Hs : is_Some (get_elem s (doc w))) by (by apply querySelectorAll_elem in Hin).
  assert (Heh : is_Some (get_elem h (doc w))).
  { destruct (elem_querySelector_Some _ _ _ _ Hh) as [Hm _].
    unfold headingSelector in Hm. cbn [matches existsb] in Hm. unfold matches_at in Hm.
    by destruct (get_elem h (doc w)). }
  apply forEach_labels.
  - by rewrite (kept_heading _ _ _ K1).
  - by apply (kept_is_Some _ _ _ K1).
  - by apply (kept_is_Some _ _ _ K1).
  - left. split; [done|]. by rewrite (kept_sections _ _ _ K1).
Qed.

Lemma handleNavbarScroll_nav w el :
  querySelector (Simple (SelTag "nav")) (doc w) = Some el ->
  exists e',
    get_elem el (doc (exec handleNavbarScroll w)) = Some e'
    /\ ((80 < scrollY w)%Q ->
        ("scrolled" ∈ classes e')
        /\ getAttribute "aria-label" e'
           = Some "Menu di navigazione principale (sfondo visibile)")
    /\ ((scrollY w <= 80)%Q ->
        ("scrolled" ∉ classes e')
        /\ getAttribute "aria-label" e'
           = Some "Menu di navigazione principale (trasparente)").
Proof.
  intros Hel. destruct (querySelector_Some _ _ _ Hel) as (e & He & _).
  rewrite (handleNavbarScroll_doc w el Hel).
  set (b := negb (Qle_bool (scrollY w) 80)).
  eexists. split.
  { rewrite !get_elem_set_elem, !decide_True, He by done. reflexivity. }
  assert (Hb : b = true <-> (80 < scrollY w)%Q).
  { unfold b. rewrite negb_true_iff, <- not_true_iff_false, Qle_bool_iff.
    split; [apply Qnot_le_lt|apply Qlt_not_le]. }
  unfold setAttribute, classList_toggle, getAttribute. simpl.
  rewrite lookup_insert_eq. split.
  - intros Hs. apply Hb in Hs. rewrite Hs. split; [|done].
    destruct (bool_decide ("scrolled" ∈ classes e)) eqn:Hin.
    + by apply bool_decide_eq_true in Hin.
    + apply elem_of_app. right. left.
  - intros Hs. assert (b = false) as ->.
    { apply not_true_iff_false. rewrite Hb. by apply Qle_not_lt. }
    split; [|done]. rewrite list_elem_of_filter. intros [Hne _]. by apply Hne.
Qed.

Lemma updateActiveNavLink_keeps_elem w q e :
  get_elem q (doc w) = Some e ->
  exists e',
    get_elem q (doc (exec updateActiveNavLink w)) = Some e'
    /\ (forall a, a <> "aria-current" -> getAttribute a e' = getAttribute a e)
    /\ (forall c, c <> "active" -> c ∈ classes e' <-> c ∈ classes e).
Proof.
  intros He. rewrite marked_elem, He. case_decide; eexists; (split; [reflexivity|]).
  - destruct (markLink_keeps (activeSection w) e) as (_ & _ & _ & Ha & Hc). by split.
  - by split.
Qed.

Lemma activeSection_ext w1 w2 :
  doc w1 = doc w2 -> innerHeight w1 = innerHeight w2 -> clientHeight w1 = clientHeight w2 ->
  activeSection w1 = activeSection w2.
Proof.
  intros Hd Hi Hc. unfold activeSection, sections. cbn [scanSections].
  unfold isElementVisible, windowHeight. by rewrite Hd, Hi, Hc.
Qed.

Lemma outside_doc w w' :
  set_doc (fun _ => doc w) w' = w ->
  innerHeight w' = innerHeight w /\ clientHeight w' = clientHeight w
  /\ scrollY w' = scrollY w.
Proof. intros <-. by destruct w'. Qed.

(** The world after [initializeSite], apart from the console. *)
Lemma initializeSite_effect w :
  erase_console (exec initializeSite w)
  = erase_console
      (set_timeouts (fun ts => ts ++ (if bool_decide (hash w = "") then []
                                      else [(ScrollToLocationHash, 300%nat)]))
         (set_listeners (fun ls => ls ++
              [ (Window, "scroll", Throttled HandleNavbarScroll 16);
                (Window, "scroll", Throttled UpdateActiveNavLink 100);
                (Window, "resize", Debounced HandleWindowResize 250);
                (Document, "click", Direct HandleDocumentClick);
                (Document, "keydown", Direct HandleKeyboardNavigation);
                (Window, "beforeunload", Direct ResetScrollPosition);
                (Window, "popstate", Direct OnPopstate) ])
            (set_vh_px (Some (innerHeight w * 0.01)%float)
               (exec updateActiveNavLink
                  (exec handleNavbarScroll
                     (exec updateActiveNavLink (exec setupAccessibility w))))))).
Proof.
  rewrite initializeSite_modulo_console, initializeSite_setup_effect.
  generalize (exec updateActiveNavLink
                (exec handleNavbarScroll
                   (exec updateActiveNavLink (exec setupAccessibility w)))).
  intros x. by destruct x.
Qed.

Lemma erase_console_proj x y :
  erase_console x = erase_console y ->
  doc x = doc y /\ vh_px x = vh_px y /\ innerHeight x = innerHeight y
  /\ clientHeight x = clientHeight y /\ timeouts x = timeouts y.
Proof.
  destruct x, y. unfold erase_console, set_console. cbn.
  intros [= -> -> -> -> -> -> -> -> -> -> -> -> -> -> -> -> -> ->]. done.
Qed.

(** ** The claim about [initializeSite] *)

(** C7: [validateCriticalElements] returns true exactly when '#homepage',
    '#performance', '#report' and 'nav' are all present; otherwise its
    only effect is a console warning that names the missing ones.
    [initializeSite] runs the whole setup whatever the result.  The
    seven listeners are registered; the console holds the two log lines
    with the messages about missing elements between them; --vh is one
    hundredth of the height of the window; the timer for the hash of the
    location is set; a [main] element has a role; a section without a
    label is labelled by its first heading; the navigation bar carries
    the class 'scrolled' and the aria-label for the scroll position; and
    the navigation links are marked for the active section. *)
Theorem validation_is_not_fatal (w : World) :
  (fst (validateCriticalElements w) = true
   <-> present (Simple (SelId "homepage")) w
       /\ present (Simple (SelId "performance")) w
       /\ present (Simple (SelId "report")) w
       /\ present (Simple (SelTag "nav")) w)
  /\ exec validateCriticalElements w
     = (if fst (validateCriticalElements w) then w
        else set_console (fun c => c ++
               [(Warn, [VStr "[Airbus Site] Missing critical elements:";
                        VStr (missingNames w)])]) w)
  /\ erase_console (exec initializeSite w) = erase_console (exec initializeSite_setup w)
  /\ listeners (exec initializeSite w)
     = listeners w ++
       [ (Window, "scroll", Throttled HandleNavbarScroll 16);
         (Window, "scroll", Throttled UpdateActiveNavLink 100);
         (Window, "resize", Debounced HandleWindowResize 250);
         (Document, "click", Direct HandleDocumentClick);
         (Document, "keydown", Direct HandleKeyboardNavigation);
         (Window, "beforeunload", Direct ResetScrollPosition);
         (Window, "popstate", Direct OnPopstate) ]
  /\ console (exec initializeSite w)
     = console w ++ [(Log, [VStr "[Airbus Site] Initializing..."])]
         ++ validationMessages w
         ++ [(Log, [VStr "[Airbus Site] Initialization complete"])]
  /\ vh_px (exec initializeSite w) = Some (innerHeight w * 0.01)%float
  /\ timeouts (exec initializeSite w)
     = timeouts w
       ++ (if bool_decide (hash w = "") then [] else [(ScrollToLocationHash, 300%nat)])
  /\ (forall m,
        querySelector (Simple (SelTag "main")) (doc w) = Some m ->
        attr_at "role" m (doc (exec initializeSite w))
        = Some (if truthy (of_attr (attr_at "role" m (doc w)))
                then default "" (attr_at "role" m (doc w))
                else "main"))
  /\ (forall s h,
        s ∈ querySelectorAll (Simple (SelTag "section")) (doc w) ->
        unlabelled s (doc w) = true ->
        elem_querySelector headingSelector s (doc w) = Some h ->
        exists v, v <> ""
                  /\ attr_at "aria-labelledby" s (doc (exec initializeSite w)) = Some v
                  /\ attr_at "id" h (doc (exec initializeSite w)) = Some v)
  /\ (forall el,
        querySelector (Simple (SelTag "nav")) (doc w) = Some el ->
        exists e',
          get_elem el (doc (exec initializeSite w)) = Some e'
          /\ ((80 < scrollY w)%Q ->
              ("scrolled" ∈ classes e')
              /\ getAttribute "aria-label" e'
                 = Some "Menu di navigazione principale (sfondo visibile)")
          /\ ((scrollY w <= 80)%Q ->
              ("scrolled" ∉ classes e')
              /\ getAttribute "aria-label" e'
                 = Some "Menu di navigazione principale (trasparente)"))
  /\ (forall p e,
        p ∈ querySelectorAll navLinkSelector (doc (exec initializeSite w)) ->
        get_elem p (doc (exec initializeSite w)) = Some e ->
        (getAttribute "href" e = Some ("#" +:+ activeSection (exec initializeSite w)) ->
           ("active" ∈ classes e) /\ getAttribute "aria-current" e = Some "page")
        /\ (getAttribute "href" e <> Some ("#" +:+ activeSection (exec initializeSite w)) ->
           ("active" ∉ classes e) /\ getAttribute "aria-current" e = Some "false")).
Proof.
  split; [apply validateCriticalElements_result|].
  split; [apply validateCriticalElements_effect|].
  split; [apply initializeSite_modulo_console|].
  split; [apply initializeSite_listeners|]. split; [apply initializeSite_console|].
  destruct (erase_console_proj _ _ (initializeSite_effect w)) as (Hd & Hv & Hi & Hc & Ht).
  cbn [doc vh_px innerHeight clientHeight timeouts set_timeouts set_listeners set_vh_px]
    in Hd, Hv, Hi, Hc, Ht.
  set (X := exec initializeSite w) in *. clearbody X.
  pose proof (keeps_setupAccessibility w) as [KA EA].
  destruct (outside_doc _ _ EA) as (Hi1 & Hc1 & Hs1).
  set (W1 := exec setupAccessibility w) in *.
  pose proof (decorated_updateActiveNavLink W1) as D2.
  assert (Hs2 : scrollY (exec updateActiveNavLink W1) = scrollY W1) by (by destruct W1).
  set (W2 := exec updateActiveNavLink W1) in *.
  pose proof (decorated_handleNavbarScroll W2) as D3.
  set (W3 := exec handleNavbarScroll W2) in *.
  pose proof (decorated_updateActiveNavLink W3) as D4.
  assert (D14 : decorated (doc W1) (doc X)).
  { rewrite Hd. apply (decorated_trans _ (doc W2)); [done|].
    by apply (decorated_trans _ (doc W3)). }
  split; [done|]. split.
  { rewrite Ht. f_equal.
    pose proof (navigation_kept _ W3 updateActiveNavLink_navigation) as N4.
    pose proof (navigation_kept _ W2 handleNavbarScroll_navigation) as N3.
    pose proof (navigation_kept _ W1 updateActiveNavLink_navigation) as N2.
    pose proof (navigation_kept _ w setupAccessibility_navigation) as N1.
    fold W1 in N1, N2. fold W2 in N2, N3. fold W3 in N3, N4.
    rewrite N3, N2, N1 in N4. clearbody W1 W2 W3.
    clear -N4. revert N4. generalize (exec updateActiveNavLink W3). intros W4 N4.
    unfold navigation_state in N4. by injection N4. }
  split.
  { intros m Hm. rewrite (decorated_attr _ _ _ _ D14) by done.
    by apply setupAccessibility_role. }
  split.
  { intros s h Hin Hu Hh.
    by apply (decorated_labelled_by _ _ _ _ D14), setupAccessibility_labelled. }
  split.
  { intros el Hel.
    assert (Hel2 : querySelector (Simple (SelTag "nav")) (doc W2) = Some el).
    { unfold querySelector. rewrite (decorated_tag _ _ _ D2), (kept_sections _ _ _ KA).
      exact Hel. }
    destruct (handleNavbarScroll_nav W2 el Hel2) as (e3 & He3 & Hon & Hoff).
    fold W3 in He3. rewrite Hs2, Hs1 in Hon, Hoff.
    destruct (updateActiveNavLink_keeps_elem W3 el e3 He3) as (e4 & He4 & Ha & Hcl).
    exists e4. rewrite Hd. split; [exact He4|].
    rewrite (Ha "aria-label") by done. rewrite (Hcl "scrolled") by done.
    split; [exact Hon|exact Hoff]. }
  intros p e Hp He.
  assert (Hact : activeSection X = activeSection W3).
  { rewrite (activeSection_ext X (exec updateActiveNavLink W3) Hd Hi Hc).
    unfold activeSection. by rewrite scanSections_marked. }
  rewrite Hact. rewrite Hd in Hp, He.
  destruct (updateActiveNavLink_link W3 p e Hp He) as (e0 & _ & ->).
  rewrite href_markLink. split; [apply markLink_active|apply markLink_inactive].
Qed.

(** Without the report section the validation fails, and the setup is
    done all the same: --vh is set, [main] gets its role, the navigation
    bar is marked as scrolled and the seven listeners are registered. *)
Lemma validation_witness :
  fst (validateCriticalElements partialWorld) = false
  /\ vh_px (exec initializeSite partialWorld) = Some 10%float
  /\ attr_at "role" [1]%nat (doc (exec initializeSite partialWorld)) = Some "main"
  /\ (exists e', get_elem [0]%nat (doc (exec initializeSite partialWorld)) = Some e'
                 /\ "scrolled" ∈ classes e')
  /\ length (listeners (exec initializeSite partialWorld)) = 7%nat.
Proof.
  destruct (validation_is_not_fatal partialWorld)
    as (_ & _ & _ & Hl & _ & Hv & _ & Hr & _ & Hn & _).
  split; [vm_compute; reflexivity|]. split; [rewrite Hv; vm_compute; reflexivity|].
  split; [rewrite (Hr [1]%nat); vm_compute; reflexivity|]. split.
  - destruct (Hn [0]%nat) as (e' & He' & Hon & _); [vm_compute; reflexivity|].
    exists e'. split; [exact He'|]. apply Hon. vm_compute. reflexivity.
  - rewrite Hl. reflexivity.
Defined.
